(** * Lexicon-to-transducer compilation: a shallow embedding of [lexicon.py]

    The development follows the source file top-down:
    - Python exceptions become the [Raise] branch of a [result];
    - the dictionaries [count] and [last_sym] are [gmap]s, the sets [prefix]
      and [reserved_empty] are [gset]s;
    - the insertion-ordered dictionaries [phone_map] and [words_map], whose
      order is written to the symbol files, are association lists with the
      update-in-place behaviour of a Python [dict];
    - [print(..., file=file)] writes a structured line to one of two output
      streams ([file] or the standard output); the formatting of numbers into
      text is not modelled;
    - costs, weights and probabilities are real numbers (the spec's data model
      has real-valued costs), which is exact for what is written where; the
      rounding of Python's floats is in [Binary64], on the expressions of the
      source whose numerical value a claim speaks of;
    - [prepare_lexicon] is given twice: on lexicon values, where each entry
      owns its transcription list, and with an explicit object store
      ([prepare_lexicon_heap]), where lists are objects that the deep copy
      duplicates and the loops update in place; the two agree when no list is
      shared between entries (lemma [prepare_lexicon_heap_values]);
    - the module constants are in [Config], and the loop of
      [nbest_oracle.py] that picks the oracle hypothesis of a sentence is
      [oracle]. *)

From Stdlib Require Import Reals Lra ZArith Ascii.
From Stdlib Require OrdersEx.
From Stdlib Require PrimFloat FloatOps SpecFloat Uint63.
From stdpp Require Import gmap strings list pretty sorting.

Open Scope string_scope.
Open Scope list_scope.
Open Scope nat_scope.

(** ** Exceptions and results *)

Inductive exn : Set :=
| AssertionError
| IndexError
| KeyError
| TypeError
| ValueError
| ZeroDivisionError.

Inductive result (A : Type) : Type :=
| Ok (a : A)
| Raise (e : exn).
Arguments Ok {A} a.
Arguments Raise {A} e.

Definition rbind {A B : Type} (c : result A) (k : A → result B) : result B :=
  match c with
  | Ok a => k a
  | Raise e => Raise e
  end.

Notation "x <- c ;; k" := (rbind c (fun x => k))
  (at level 100, c at next level, right associativity).

(** [for x in l: acc = body(acc, x)] with exceptions. *)
Fixpoint for_each {A S : Type} (l : list A) (body : S → A → result S) (s : S)
  : result S :=
  match l with
  | [] => Ok s
  | x :: l' => s' <- body s x ;; for_each l' body s'
  end.

(** [for i in range(lo, hi)]. *)
Definition for_range {S : Type} (lo hi : nat) (body : S → nat → result S) (s : S)
  : result S :=
  for_each (seq lo (hi - lo)) body s.

(** ** Python list indexing *)

(** The position an index denotes in a list of length [n]: negative indices
    count from the end, anything outside [-n, n) is an [IndexError]. *)
Definition py_index (n : nat) (i : Z) : result nat :=
  if decide (0 ≤ i < Z.of_nat n)%Z then Ok (Z.to_nat i)
  else if decide (- Z.of_nat n ≤ i < 0)%Z then Ok (Z.to_nat (Z.of_nat n + i))
  else Raise IndexError.

Definition py_getitem {A : Type} (l : list A) (i : Z) : result A :=
  k <- py_index (length l) i ;;
  match l !! k with
  | Some v => Ok v
  | None => Raise IndexError
  end.

Definition py_setitem {A : Type} (l : list A) (i : Z) (v : A) : result (list A) :=
  k <- py_index (length l) i ;;
  Ok (<[k := v]> l).

(** [l[i] += s] on a list of strings. *)
Definition iadd_item (l : list string) (i : Z) (s : string) : result (list string) :=
  v <- py_getitem l i ;;
  py_setitem l i (v +:+ s).

(** [l.pop()] on a non-empty list, keeping the list only. *)
Definition py_pop {A : Type} (l : list A) : list A := take (length l - 1) l.

(** [l.append(v)]. *)
Definition py_append {A : Type} (l : list A) (v : A) : list A := (l ++ [v])%list.

(** [' '.join(trans)]. *)
Definition join (trans : list string) : string := String.concat " " trans.

(** ** The lexicon *)

(** A lexicon entry [(word, pron-prob, prons)]. *)
Definition entry : Type := string * R * list string.

Definition e_word (e : entry) : string := e.1.1.
Definition e_prob (e : entry) : R := e.1.2.
Definition e_trans (e : entry) : list string := e.2.

(** ** Phone check (the assertion loop that opens [prepare_lexicon]) *)

Definition check_phones (lexicon : list entry)
    (silence_phones nonsilence_phones : list string) : result () :=
  for_each lexicon (fun _ '(w, p, trans) =>
    for_each trans (fun _ ph =>
      if bool_decide (ph ∈ nonsilence_phones) || bool_decide (ph ∈ silence_phones)
      then Ok ()
      else Raise AssertionError) ()) ().

(** ** Positional tagging *)

Definition tag_trans (trans : list string) : result (list string) :=
  if decide (length trans = 1) then
    iadd_item trans 0 "_S"
  else
    trans <- iadd_item trans 0 "_B" ;;
    trans <- (if decide (2 < length trans) then
                for_range 1 (length trans - 1)
                  (fun t i => iadd_item t (Z.of_nat i) "_I") trans
              else Ok trans) ;;
    iadd_item trans (-1) "_E".

Definition tag_entry (e : entry) : result entry :=
  let '(w, p, trans) := e in
  trans' <- tag_trans trans ;;
  Ok (w, p, trans').

(** The tagging loop over the (copied) lexicon. *)
Fixpoint tag_lexicon (lexicon : list entry) : result (list entry) :=
  match lexicon with
  | [] => Ok []
  | e :: rest =>
      e' <- tag_entry e ;;
      rest' <- tag_lexicon rest ;;
      Ok (e' :: rest')
  end.

(** ** Disambiguation symbols ([# add_disambig]) *)

Definition first_sym : nat := 1.

(** [if x not in count: count[x] = 1 else: count[x] += 1]. *)
Definition incr_count (count : gmap string nat) (x : string) : gmap string nat :=
  match count !! x with
  | None => <[x := 1]> count
  | Some c => <[x := c + 1]> count
  end.

(** First pass: the number of identical transcriptions. *)
Definition count_pass (lexicon : list entry) : gmap string nat :=
  foldl (fun count e => incr_count count (join (e_trans e))) ∅ lexicon.

(** [while len(t) > 0: t.pop(); prefix.add(' '.join(t))].  The list shrinks by
    one element per iteration, so [length t] iterations are enough; [fuel]
    only makes the recursion structural. *)
Fixpoint pop_prefixes (fuel : nat) (t : list string) (prefix : gset string)
  : gset string :=
  match fuel with
  | 0 => prefix
  | S fuel' =>
      if decide (0 < length t) then
        let t' := py_pop t in
        pop_prefixes fuel' t' ({[ join t' ]} ∪ prefix)
      else prefix
  end.

(** Second pass: the set of all proper prefixes. *)
Definition prefix_pass (lexicon : list entry) : gset string :=
  foldl (fun prefix e => pop_prefixes (length (e_trans e)) (e_trans e) prefix)
        ∅ lexicon.

(** [while curr_sym in reserved_empty: curr_sym += 1].  Every iteration walks
    past one more member of the finite set, so [S (size reserved_empty)]
    iterations are enough (lemma [skip_reserved_exits]). *)
Fixpoint skip_reserved_fuel (fuel : nat) (reserved_empty : gset nat) (curr_sym : nat)
  : nat :=
  match fuel with
  | 0 => curr_sym
  | S fuel' =>
      if decide (curr_sym ∈ reserved_empty)
      then skip_reserved_fuel fuel' reserved_empty (curr_sym + 1)
      else curr_sym
  end.

Definition skip_reserved (reserved_empty : gset nat) (curr_sym : nat) : nat :=
  skip_reserved_fuel (S (size reserved_empty)) reserved_empty curr_sym.

(** The locals the third pass updates. *)
Record disambig_state : Type := DisambigState {
  max_disambig : nat;
  reserved_empty : gset nat;
  last_sym : gmap string nat
}.

Definition disambig_init : disambig_state :=
  {| max_disambig := first_sym - 1; reserved_empty := ∅; last_sym := ∅ |}.

(** [f'#{n}']. *)
Definition disambig_name (n : nat) : string := "#" +:+ pretty n.

(** [x not in prefix and count[x] == 1]; the lookup is only made when the
    first conjunct holds, and raises [KeyError] on a missing key. *)
Definition needs_no_symbol (count : gmap string nat) (prefix : gset string)
    (x : string) : result bool :=
  if decide (x ∈ prefix) then Ok false
  else match count !! x with
       | Some c => Ok (bool_decide (c = 1))
       | None => Raise KeyError
       end.

(** Body of the third loop: the new locals and the entry with its
    transcription possibly extended. *)
Definition disambig_entry (count : gmap string nat) (prefix : gset string)
    (st : disambig_state) (e : entry) : result (disambig_state * entry) :=
  let '(w, p, trans) := e in
  let x := join trans in
  plain <- needs_no_symbol count prefix x ;;
  if plain then Ok (st, e)
  else if decide (String.length x = 0) then
    let m := max_disambig st + 1 in
    Ok ({| max_disambig := m;
           reserved_empty := {[ m ]} ∪ reserved_empty st;
           last_sym := last_sym st |},
        (w, p, py_append trans (disambig_name m)))
  else
    let curr_sym := match last_sym st !! x with
                    | None => first_sym
                    | Some s => s + 1
                    end in
    let curr_sym := skip_reserved (reserved_empty st) curr_sym in
    let m := if decide (max_disambig st < curr_sym) then curr_sym
             else max_disambig st in
    Ok ({| max_disambig := m;
           reserved_empty := reserved_empty st;
           last_sym := <[x := curr_sym]> (last_sym st) |},
        (w, p, py_append trans (disambig_name curr_sym))).

(** The third loop. *)
Fixpoint disambig_loop (count : gmap string nat) (prefix : gset string)
    (st : disambig_state) (lexicon : list entry)
  : result (disambig_state * list entry) :=
  match lexicon with
  | [] => Ok (st, [])
  | e :: rest =>
      r <- disambig_entry count prefix st e ;;
      r' <- disambig_loop count prefix r.1 rest ;;
      Ok (r'.1, r.2 :: r'.2)
  end.

(** The three passes over the tagged lexicon, then [max_disambig += 1;
    sil_disambig = max_disambig].  Returns the lexicon with its symbols and
    the incremented [max_disambig].  This is the pass on lexicon values,
    where every entry owns its transcription; the appends to list objects
    that entries may share are those of [disambig_heap]. *)
Definition add_disambig (lexicon : list entry) : result (list entry * nat) :=
  let count := count_pass lexicon in
  let prefix := prefix_pass lexicon in
  r <- disambig_loop count prefix disambig_init lexicon ;;
  Ok (r.2, max_disambig r.1 + 1).

(** ** Output streams *)

(** A line of the text format: an arc
    [src<TAB>dest<TAB>phone<TAB>word<TAB>cost] or a final state
    [state<TAB>final_cost]. *)
Inductive line : Type :=
| Arc (src dest : nat) (phone word : string) (cost : R)
| Final (state : nat) (final_cost : R).

(** The two places a [print] can write to: the [file] argument of
    [write_fst_with_silence] and the standard output. *)
Record streams : Type := Streams {
  file : list line;
  stdout : list line
}.

Definition no_output : streams := {| file := []; stdout := [] |}.

(** Printing code: it transforms the streams and returns a value or raises;
    what was printed before an exception stays printed. *)
Definition emit (A : Type) : Type := streams → streams * result A.

Definition eret {A : Type} (a : A) : emit A := fun s => (s, Ok a).

Definition ebind {A B : Type} (c : emit A) (k : A → emit B) : emit B :=
  fun s => match c s with
           | (s', Ok a) => k a s'
           | (s', Raise e) => (s', Raise e)
           end.

Definition elift {A : Type} (r : result A) : emit A := fun s => (s, r).

Notation "x <~ c ;; k" := (ebind c (fun x => k))
  (at level 100, c at next level, right associativity).

(** [print(l, file=file)] *)
Definition print_file (l : line) : emit () :=
  fun s => ({| file := file s ++ [l]; stdout := stdout s |}, Ok ()).

(** [print(l)] *)
Definition print (l : line) : emit () :=
  fun s => ({| file := file s; stdout := stdout s ++ [l] |}, Ok ()).

Fixpoint efor_each {A S : Type} (l : list A) (body : S → A → emit S) (s : S)
  : emit S :=
  match l with
  | [] => eret s
  | x :: l' => s' <~ body s x ;; efor_each l' body s'
  end.

(** [range(n)] for an integer [n]: empty when [n] is negative. *)
Definition range (n : Z) : list nat := seq 0 (Z.to_nat n).

(** ** Float operations that can raise *)

#[global] Instance Rlt_decision (x y : R) : Decision (x < y)%R := Rlt_dec x y.

(** [math.log(x)]: which inputs raise, and the logarithm as a real number
    (not its rounding to a float). *)
Definition math_log (x : R) : result R :=
  if decide (0 < x)%R then Ok (ln x) else Raise ValueError.

(** [1.0 / n] for an integer [n]: which inputs raise, and the quotient as a
    real number; the rounded quotient is [Binary64.float_div_int]. *)
Definition float_div_int (x : R) (n : nat) : result R :=
  if decide (n = 0) then Raise ZeroDivisionError else Ok (x / INR n)%R.

(** [len(l)] where [l] may be [None] *)
Definition py_len {A : Type} (l : option (list A)) : result nat :=
  match l with
  | Some l => Ok (length l)
  | None => Raise TypeError
  end.

(** [for x in l] where [l] may be [None] *)
Definition py_iter {A : Type} (l : option (list A)) : result (list A) :=
  match l with
  | Some l => Ok l
  | None => Raise TypeError
  end.

Definition eps : string := "<eps>".

(** ** [write_nonterminal_arcs] *)

Definition write_nonterminal_arcs (start_state loop_state next_state : nat)
    (nonterminals : list string) (left_context_phones : option (list string))
  : emit nat :=
  let shared_state := next_state in
  let next_state := next_state + 1 in
  let final_state := next_state in
  let next_state := next_state + 1 in
  _ <~ print (Arc start_state shared_state "#nonterm_begin" "#nonterm_begin" 0) ;;
  _ <~ efor_each nonterminals (fun _ nonterminal =>
         print (Arc loop_state shared_state nonterminal nonterminal 0)) () ;;
  n <~ elift (py_len left_context_phones) ;;
  q <~ elift (float_div_int 1 n) ;;
  l <~ elift (math_log q) ;;
  let this_cost := (- l)%R in
  lcp <~ elift (py_iter left_context_phones) ;;
  _ <~ efor_each lcp (fun _ left_context_phone =>
         print (Arc shared_state loop_state left_context_phone eps this_cost)) () ;;
  _ <~ print (Arc loop_state final_state "#nonterm_end" "#nonterm_end" 0) ;;
  _ <~ print (Final final_state 0) ;;
  eret next_state.

(** ** [write_fst_with_silence] *)

(** The chain loop [for i in range(len(pron) - 1)]; the loop carries
    [(cur_state, next_state)]. *)
Definition write_chain (loop_state : nat) (word : string) (pron_cost : R)
    (pron : list string) (next_state : nat) : emit (nat * nat) :=
  efor_each (range (Z.of_nat (length pron) - 1))
    (fun '(cur_state, next_state) i =>
       ph <~ elift (py_getitem pron (Z.of_nat i)) ;;
       _ <~ print_file (Arc cur_state next_state ph
                          (if decide (i = 0) then word else eps)
                          (if decide (i = 0) then pron_cost else 0)) ;;
       eret (next_state, next_state + 1))
    (loop_state, next_state).

(** Body of the loop over the lexicon; returns the new [next_state].  The
    costs of the two closing arcs are sums of real numbers here; the rounded
    sums are [Binary64.closing_costs]. *)
Definition write_entry (loop_state sil_state : nat) (sil_cost no_sil_cost : R)
    (next_state : nat) (e : entry) : emit nat :=
  let '(word, pronprob, pron) := e in
  let pron_cost := pronprob in
  st <~ write_chain loop_state word pron_cost pron next_state ;;
  let cur_state := st.1 in
  let next_state := st.2 in
  let i := (Z.of_nat (length pron) - 1)%Z in
  ph <~ (if decide (0 ≤ i)%Z then elift (py_getitem pron i) else eret eps) ;;
  let wd := if decide (i ≤ 0)%Z then word else eps in
  let extra := if decide (i ≤ 0)%Z then pron_cost else 0%R in
  _ <~ print_file (Arc cur_state loop_state ph wd (no_sil_cost + extra)) ;;
  _ <~ print_file (Arc cur_state sil_state ph wd (sil_cost + extra)) ;;
  eret next_state.

Definition write_fst_with_silence (lexicon : list entry) (sil_prob : R)
    (sil_phone : string) (sil_disambig : option string)
    (nonterminals : option (list string))
    (left_context_phones : option (list string)) : emit () :=
  if negb (bool_decide (0 < sil_prob)%R && bool_decide (sil_prob < 1)%R)
  then elift (Raise AssertionError)
  else
  l1 <~ elift (math_log sil_prob) ;;
  let sil_cost := (- l1)%R in
  l2 <~ elift (math_log (1 - sil_prob)) ;;
  let no_sil_cost := (- l2)%R in
  let start_state := 0 in
  let loop_state := 1 in
  let sil_state := 2 in
  let next_state := 3 in
  _ <~ print_file (Arc start_state loop_state eps eps no_sil_cost) ;;
  _ <~ print_file (Arc start_state sil_state eps eps sil_cost) ;;
  next_state <~
    match sil_disambig with
    | None =>
        _ <~ print_file (Arc sil_state loop_state sil_phone eps 0) ;;
        eret next_state
    | Some sil_disambig =>
        let sil_disambig_state := next_state in
        let next_state := next_state + 1 in
        _ <~ print_file (Arc sil_state sil_disambig_state sil_phone eps 0) ;;
        _ <~ print_file (Arc sil_disambig_state loop_state sil_disambig eps 0) ;;
        eret next_state
    end ;;
  next_state <~ efor_each lexicon
                  (write_entry loop_state sil_state sil_cost no_sil_cost)
                  next_state ;;
  next_state <~
    match nonterminals with
    | Some nonterminals =>
        write_nonterminal_arcs start_state loop_state next_state
          nonterminals left_context_phones
    | None => eret next_state
    end ;;
  print_file (Final loop_state 0).

(** ** Insertion-ordered dictionaries *)

(** A Python [dict] whose iteration order matters: [d[k] = v] replaces the
    value of an existing key where it stands and appends a new key. *)
Fixpoint dict_set {V : Type} (d : list (string * V)) (k : string) (v : V)
  : list (string * V) :=
  match d with
  | [] => [(k, v)]
  | (k', v') :: d' =>
      if decide (k' = k) then (k, v) :: d' else (k', v') :: dict_set d' k v
  end.

(** [d[k]], a [KeyError] when the key is missing. *)
Fixpoint dict_get {V : Type} (d : list (string * V)) (k : string) : result V :=
  match d with
  | [] => Raise KeyError
  | (k', v') :: d' => if decide (k' = k) then Ok v' else dict_get d' k
  end.

(** [m[k] = counter; counter += 1] on the pair [(m, counter)]. *)
Definition assign (st : list (string * nat) * nat) (k : string)
  : list (string * nat) * nat :=
  (dict_set st.1 k st.2, st.2 + 1).

(** ** Symbol registry *)

(** [phone_map] and the final [counter]; [max_disambig] is the value of the
    variable at this point, after its increment. *)
Definition build_phone_map (silence_phones nonsilence_phones : list string)
    (max_disambig : nat) : list (string * nat) * nat :=
  let st := assign ([], 0) eps in
  let st := foldl (fun st ph =>
              let st := assign st ph in
              let st := assign st (ph +:+ "_B") in
              let st := assign st (ph +:+ "_E") in
              let st := assign st (ph +:+ "_S") in
              assign st (ph +:+ "_I")) st silence_phones in
  let st := foldl (fun st ph =>
              let st := assign st (ph +:+ "_B") in
              let st := assign st (ph +:+ "_E") in
              let st := assign st (ph +:+ "_S") in
              assign st (ph +:+ "_I")) st nonsilence_phones in
  foldl (fun st i => assign st (disambig_name i)) st (range (Z.of_nat max_disambig + 1)).

(** The lines of [disambig.int]. *)
Definition disambig_ints (phone_map : list (string * nat)) (max_disambig : nat)
  : result (list nat) :=
  for_each (range (Z.of_nat max_disambig + 1))
    (fun acc i => d <- dict_get phone_map (disambig_name i) ;; Ok (acc ++ [d])%list) [].

(** The order of [sorted] on strings. *)
Definition str_le (a b : string) : Prop := String.leb a b = true.

#[global] Instance str_le_dec (a b : string) : Decision (str_le a b).
Proof. unfold str_le. apply _. Defined.

(** [sorted(wordlist)] for a set of words. *)
Definition sorted (wordlist : gset string) : list string :=
  merge_sort str_le (elements wordlist).

Definition build_words_map (lexicon : list entry) : list (string * nat) :=
  let st := assign ([], 0) eps in
  let wordlist := foldl (fun wordlist e => {[ e_word e ]} ∪ wordlist) ∅ lexicon in
  let st := foldl assign st (sorted wordlist) in
  let st := assign st "#0" in
  let st := assign st "<s>" in
  dict_set st.1 "</s>" st.2.

(** The lines of [word_boundary.int]. *)
Definition word_boundary_lines (silence_phones nonsilence_phones : list string)
  : list (nat * string) :=
  let write (st : list (nat * string) * nat) (b : string) :=
    ((st.1 ++ [(st.2, b)])%list, st.2 + 1) in
  let st := ([], 1) in
  let st := foldl (fun st _ =>
              foldl write st ["nonword"; "begin"; "end"; "singleton"; "internal"])
              st (range (Z.of_nat (length silence_phones))) in
  let st := foldl (fun st _ =>
              foldl write st ["begin"; "end"; "singleton"; "internal"])
              st (range (Z.of_nat (length nonsilence_phones))) in
  st.1.

(** ** [prepare_lexicon] *)

(** What [prepare_lexicon] returns and writes: the two symbol tables (the
    pairs given to [add_symbol], in order), the text given to the FST
    compiler (the compilation and arc sorting are the library's), and the
    contents of the four files. *)
Record prepared : Type := Prepared {
  isyms : list (string * nat);
  osyms : list (string * nat);
  fst_text : list line;
  phones_txt : list (string * nat);
  disambig_int : list nat;
  words_txt : list (string * nat);
  word_boundary_int : list (nat * string);
  printed : list line
}.

(** The part of [prepare_lexicon] that follows the disambiguation pass: the
    two symbol tables, the four files and the call of the emitter.
    [lexicon] is the tagged lexicon with its symbols, [max_disambig] the
    variable after its increment (the value also stored in
    [sil_disambig]). *)
Definition write_tables (lexicon : list entry) (max_disambig : nat)
    (silence_phones nonsilence_phones : list string)
    (optional_silence : string) : result prepared :=
  let sil_disambig := max_disambig in
  let phone_map := (build_phone_map silence_phones nonsilence_phones max_disambig).1 in
  ds <- disambig_ints phone_map max_disambig ;;
  let words_map := build_words_map lexicon in
  let boundaries := word_boundary_lines silence_phones nonsilence_phones in
  let out := write_fst_with_silence lexicon (1 / 2) optional_silence None
               None None no_output in
  _ <- out.2 ;;
  Ok {| isyms := phone_map;
        osyms := words_map;
        fst_text := file out.1;
        phones_txt := phone_map;
        disambig_int := ds;
        words_txt := words_map;
        word_boundary_int := boundaries;
        printed := stdout out.1 |}.

(** [prepare_lexicon] on a lexicon whose entries each own their
    transcription list, as [words_to_lexicon] builds it: the deep copy is
    then a copy of the value and the in-place updates of the copy are
    updates of the value.  [prepare_lexicon_heap] below has the object store
    explicit. *)
Definition prepare_lexicon (lexicon : list entry)
    (silence_phones nonsilence_phones : list string)
    (optional_silence oov : string) : result prepared :=
  _ <- check_phones lexicon silence_phones nonsilence_phones ;;
  lexicon <- tag_lexicon lexicon ;;
  r <- add_disambig lexicon ;;
  write_tables r.1 r.2 silence_phones nonsilence_phones optional_silence.

(** ** [prepare_lexicon] with the object store *)

(** Python lists are objects: the caller's lexicon is a reference to a list
    of tuples, and each tuple holds a reference to its transcription list.
    Strings, floats and tuples are immutable and stay values. *)
Definition loc : Set := nat.

Inductive pyobj : Type :=
| PList (items : list string)
| PLexicon (entries : list (string * R * loc)).

Definition read_list (h : gmap loc pyobj) (l : loc) : result (list string) :=
  match h !! l with
  | Some (PList t) => Ok t
  | _ => Raise TypeError
  end.

Definition read_entries (h : gmap loc pyobj) (l : loc)
  : result (list (string * R * loc)) :=
  match h !! l with
  | Some (PLexicon es) => Ok es
  | _ => Raise TypeError
  end.

(** The entries with the current contents of their lists. *)
Fixpoint read_values (h : gmap loc pyobj) (es : list (string * R * loc))
  : result (list entry) :=
  match es with
  | [] => Ok []
  | (w, p, tl) :: rest =>
      t <- read_list h tl ;;
      rest' <- read_values h rest ;;
      Ok ((w, p, t) :: rest')
  end.

Definition read_lexicon (h : gmap loc pyobj) (l : loc) : result (list entry) :=
  es <- read_entries h l ;; read_values h es.

(** A new object at an unused location. *)
Definition alloc (h : gmap loc pyobj) (o : pyobj) : gmap loc pyobj * loc :=
  let l := fresh (dom h) in (<[l := o]> h, l).

(** [copy.deepcopy] on the entries: every list object is copied once, and a
    list that appears in several tuples is copied to one shared list
    ([memo] maps the originals to their copies). *)
Fixpoint deepcopy_entries (h : gmap loc pyobj) (memo : gmap loc loc)
    (es : list (string * R * loc))
  : gmap loc pyobj * result (list (string * R * loc)) :=
  match es with
  | [] => (h, Ok [])
  | (w, p, tl) :: rest =>
      match memo !! tl with
      | Some tl' =>
          let r := deepcopy_entries h memo rest in
          (r.1, rest' <- r.2 ;; Ok ((w, p, tl') :: rest'))
      | None =>
          match read_list h tl with
          | Ok t =>
              let a := alloc h (PList t) in
              let r := deepcopy_entries a.1 (<[tl := a.2]> memo) rest in
              (r.1, rest' <- r.2 ;; Ok ((w, p, a.2) :: rest'))
          | Raise e => (h, Raise e)
          end
      end
  end.

(** [copy.deepcopy(lexicon)]: the new store and the reference to the copy. *)
Definition deepcopy (h : gmap loc pyobj) (l : loc)
  : gmap loc pyobj * result loc :=
  match read_entries h l with
  | Ok es =>
      let r := deepcopy_entries h ∅ es in
      match r.2 with
      | Ok es' => let a := alloc r.1 (PLexicon es') in (a.1, Ok a.2)
      | Raise e => (r.1, Raise e)
      end
  | Raise e => (h, Raise e)
  end.

(** The tagging loop, updating the lists where they are. *)
Fixpoint tag_heap (h : gmap loc pyobj) (es : list (string * R * loc))
  : gmap loc pyobj * result () :=
  match es with
  | [] => (h, Ok ())
  | (w, p, tl) :: rest =>
      match read_list h tl with
      | Ok t =>
          match tag_trans t with
          | Ok t' => tag_heap (<[tl := PList t']> h) rest
          | Raise e => (h, Raise e)
          end
      | Raise e => (h, Raise e)
      end
  end.

(** The third loop, appending to the lists where they are. *)
Fixpoint disambig_heap (count : gmap string nat) (prefix : gset string)
    (st : disambig_state) (h : gmap loc pyobj) (es : list (string * R * loc))
  : gmap loc pyobj * result disambig_state :=
  match es with
  | [] => (h, Ok st)
  | (w, p, tl) :: rest =>
      match read_list h tl with
      | Ok t =>
          match disambig_entry count prefix st (w, p, t) with
          | Ok r => disambig_heap count prefix r.1 (<[tl := PList (e_trans r.2)]> h) rest
          | Raise e => (h, Raise e)
          end
      | Raise e => (h, Raise e)
      end
  end.

(** A step that reads the store and may raise. *)
Definition reading {A B : Type} (h : gmap loc pyobj) (r : result A)
    (k : A → gmap loc pyobj * result B) : gmap loc pyobj * result B :=
  match r with
  | Ok a => k a
  | Raise e => (h, Raise e)
  end.

(** [prepare_lexicon] called with the reference [lexicon] in the store [h]:
    the store at the end and the result. *)
Definition prepare_lexicon_heap (h : gmap loc pyobj) (lexicon : loc)
    (silence_phones nonsilence_phones : list string)
    (optional_silence oov : string) : gmap loc pyobj * result prepared :=
  reading h (read_lexicon h lexicon) (fun values =>
  reading h (check_phones values silence_phones nonsilence_phones) (fun _ =>
  let c := deepcopy h lexicon in
  reading c.1 c.2 (fun lexicon =>
  reading c.1 (read_entries c.1 lexicon) (fun es =>
  let t := tag_heap c.1 es in
  reading t.1 t.2 (fun _ =>
  reading t.1 (read_values t.1 es) (fun values =>
  let count := count_pass values in
  let prefix := prefix_pass values in
  let d := disambig_heap count prefix disambig_init t.1 es in
  reading d.1 d.2 (fun st =>
  reading d.1 (read_values d.1 es) (fun values =>
  (d.1, write_tables values (max_disambig st + 1)
          silence_phones nonsilence_phones optional_silence))))))))).

(** * Reference descriptions

    Closed forms the code is compared with. *)

(** The streams after [f] was written to the file and [o] printed. *)
Definition write_to (s : streams) (f o : list line) : streams :=
  {| file := file s ++ f; stdout := stdout s ++ o |}.

(** Arc [i] of the chain of an entry whose first fresh state is [next]. *)
Definition chain_arc (loop_state next : nat) (word : string) (weight : R)
    (pron : list string) (i : nat) : line :=
  Arc (if decide (i = 0) then loop_state else next + i - 1)
      (next + i)
      (default eps (pron !! i))
      (if decide (i = 0) then word else eps)
      (if decide (i = 0) then weight else 0%R).

(** The two parallel arcs that close an entry. *)
Definition final_arcs (loop_state sil_state : nat) (sil_cost no_sil_cost : R)
    (next : nat) (word : string) (weight : R) (pron : list string) : list line :=
  let L := length pron in
  let cur := if decide (L ≤ 1) then loop_state else next + L - 2 in
  let ph := default eps (pron !! (L - 1)) in
  let wd := if decide (L ≤ 1) then word else eps in
  let extra := if decide (L ≤ 1) then weight else 0%R in
  [Arc cur loop_state ph wd (no_sil_cost + extra);
   Arc cur sil_state ph wd (sil_cost + extra)].

(** All the lines of an entry. *)
Definition entry_lines (loop_state sil_state : nat) (sil_cost no_sil_cost : R)
    (next : nat) (e : entry) : list line :=
  (chain_arc loop_state next (e_word e) (e_prob e) (e_trans e)
     <$> seq 0 (length (e_trans e) - 1))
  ++ final_arcs loop_state sil_state sil_cost no_sil_cost next
       (e_word e) (e_prob e) (e_trans e).

(** The lines of a lexicon, the entries taking their fresh states one after
    the other, and the first state left unallocated. *)
Fixpoint lexicon_lines (loop_state sil_state : nat) (sil_cost no_sil_cost : R)
    (next : nat) (lexicon : list entry) : list line :=
  match lexicon with
  | [] => []
  | e :: rest =>
      entry_lines loop_state sil_state sil_cost no_sil_cost next e
      ++ lexicon_lines loop_state sil_state sil_cost no_sil_cost
           (next + (length (e_trans e) - 1)) rest
  end.

Definition lexicon_next (next : nat) (lexicon : list entry) : nat :=
  foldl (fun n e => n + (length (e_trans e) - 1)) next lexicon.

(** The lines of the silence branch. *)
Definition silence_lines (sil_phone : string) (sil_disambig : option string)
  : list line :=
  match sil_disambig with
  | None => [Arc 2 1 sil_phone eps 0]
  | Some d => [Arc 2 3 sil_phone eps 0; Arc 3 1 d eps 0]
  end.

(** The lines of the nonterminal extension for [n] left-context phones. *)
Definition nonterminal_lines (start_state loop_state next : nat)
    (nonterminals left_context_phones : list string) : list line :=
  [Arc start_state next "#nonterm_begin" "#nonterm_begin" 0]
  ++ ((fun nt => Arc loop_state next nt nt 0) <$> nonterminals)
  ++ ((fun ph => Arc next loop_state ph eps
                   (- ln (1 / INR (length left_context_phones))))
        <$> left_context_phones)
  ++ [Arc loop_state (next + 1) "#nonterm_end" "#nonterm_end" 0;
      Final (next + 1) 0].

(** The costs of the arcs of [ls] that leave state [q]. *)
Definition costs_leaving (q : nat) (ls : list line) : list R :=
  omap (fun l => match l with
                 | Arc src _ _ _ c => if decide (src = q) then Some c else None
                 | Final _ _ => None
                 end) ls.


(** The first state the lexicon loop can allocate. *)
Definition first_free (sil_disambig : option string) : nat :=
  match sil_disambig with
  | None => 3
  | Some _ => 4
  end.

(** The lines [write_fst_with_silence] writes before the nonterminal
    extension: the two arcs of the start state, the silence branch and the
    entries. *)
Definition graph_lines (lexicon : list entry) (sil_prob : R) (sil_phone : string)
    (sil_disambig : option string) : list line :=
  [Arc 0 1 eps eps (- ln (1 - sil_prob)); Arc 0 2 eps eps (- ln sil_prob)]
  ++ silence_lines sil_phone sil_disambig
  ++ lexicon_lines 1 2 (- ln sil_prob) (- ln (1 - sil_prob))
       (first_free sil_disambig) lexicon.

(** What the nonterminal extension has printed when it stops at the cost
    computation. *)
Definition nonterminal_head (start_state loop_state next : nat)
    (nonterminals : list string) : list line :=
  Arc start_state next "#nonterm_begin" "#nonterm_begin" 0
  :: ((fun nt => Arc loop_state next nt nt 0) <$> nonterminals).

(** ** Reading the tagged lexicon *)

(** The last character of a string. *)
Fixpoint last_char (s : string) : option Ascii.ascii :=
  match s with
  | EmptyString => None
  | String c EmptyString => Some c
  | String _ s' => last_char s'
  end.

(** The tag position [j] gets in a transcription of length [n]. *)
Definition tag_of (n j : nat) : string :=
  if decide (n = 1) then "_S"
  else if decide (j = 0) then "_B"
  else if decide (j = n - 1) then "_E"
  else "_I".

(** The string the code compares pronunciations by. *)
Definition pron_string (e : entry) : string := join (e_trans e).

(** The number of entries with pronunciation string [x]. *)
Definition occ (lexicon : list entry) (x : string) : nat :=
  length (filter (fun e => pron_string e = x) lexicon).

(** A tagged pronunciation string ends in the tag of a last position. *)
Definition ends_final (x : string) : Prop :=
  last_char x = Some "S"%char ∨ last_char x = Some "E"%char.

(** The joined proper prefixes of a tagged pronunciation are empty or end in
    the tag of a position that is not the last. *)
Definition ends_inner (x : string) : Prop :=
  x = "" ∨ last_char x = Some "B"%char ∨ last_char x = Some "I"%char.

(** ** Reading the third loop *)

(** What the body of the third loop decides from the pronunciation string
    alone: the new locals and the number of the symbol, if one is given. *)
Definition choose (count : gmap string nat) (prefix : gset string)
    (st : disambig_state) (x : string) : result (disambig_state * option nat) :=
  plain <- needs_no_symbol count prefix x ;;
  if plain then Ok (st, None)
  else if decide (String.length x = 0) then
    let m := max_disambig st + 1 in
    Ok ({| max_disambig := m;
           reserved_empty := {[ m ]} ∪ reserved_empty st;
           last_sym := last_sym st |}, Some m)
  else
    let curr_sym := match last_sym st !! x with
                    | None => first_sym
                    | Some s => s + 1
                    end in
    let curr_sym := skip_reserved (reserved_empty st) curr_sym in
    let m := if decide (max_disambig st < curr_sym) then curr_sym
             else max_disambig st in
    Ok ({| max_disambig := m;
           reserved_empty := reserved_empty st;
           last_sym := <[x := curr_sym]> (last_sym st) |}, Some curr_sym).

Fixpoint choose_all (count : gmap string nat) (prefix : gset string)
    (st : disambig_state) (xs : list string)
  : result (disambig_state * list (option nat)) :=
  match xs with
  | [] => Ok (st, [])
  | x :: rest =>
      r <- choose count prefix st x ;;
      r' <- choose_all count prefix r.1 rest ;;
      Ok (r'.1, r.2 :: r'.2)
  end.

(** An entry with the symbol it was given. *)
Definition with_symbol (e : entry) (o : option nat) : entry :=
  match o with
  | None => e
  | Some n => (e_word e, e_prob e, py_append (e_trans e) (disambig_name n))
  end.

(** The condition under which the loop leaves an entry as it is. *)
Definition plain (count : gmap string nat) (prefix : gset string) (x : string)
  : Prop :=
  (x ∉ prefix) ∧ (count !! x = Some 1).

(** The number of occurrences of [x] among the first [i + 1] strings. *)
Definition rank (xs : list string) (i : nat) (x : string) : nat :=
  length (filter (fun y => y = x) (take (S i) xs)).

(** The last symbol given to [x] so far, 0 when there is none. *)
Definition base (st : disambig_state) (x : string) : nat :=
  default 0 (last_sym st !! x).

#[global] Instance plain_dec (count : gmap string nat) (prefix : gset string)
    (x : string) : Decision (plain count prefix x).
Proof. unfold plain. apply _. Defined.

(** No reserved symbol is above the running maximum. *)
Definition bounded (st : disambig_state) : Prop :=
  ∀ r, r ∈ reserved_empty st → r ≤ max_disambig st.



(** ** Reading the symbol tables *)

(** The names the phone table is filled with, in the order of the
    assignments; [max_disambig] is the value after its increment. *)
Definition phone_names (silence_phones nonsilence_phones : list string)
    (max_disambig : nat) : list string :=
  eps
  :: (silence_phones ≫= fun ph =>
        [ph; ph +:+ "_B"; ph +:+ "_E"; ph +:+ "_S"; ph +:+ "_I"])
  ++ (nonsilence_phones ≫= fun ph =>
        [ph +:+ "_B"; ph +:+ "_E"; ph +:+ "_S"; ph +:+ "_I"])
  ++ (disambig_name <$> seq 0 (max_disambig + 1)).

(** The names of the word table for the sorted list [words]. *)
Definition word_names (words : list string) : list string :=
  eps :: words ++ ["#0"; "<s>"; "</s>"].

(** A table that gives the [j]-th name the id [j]. *)
Definition numbered (names : list string) : list (string * nat) :=
  zip names (seq 0 (length names)).

(** Every object of [h] is still there, unchanged, in [h']. *)
Definition keeps (h h' : gmap loc pyobj) : Prop :=
  ∀ l, is_Some (h !! l) → h' !! l = h !! l.

(** ** Reading the written graph *)

(** The final-state lines of [ls]. *)
Definition finals (ls : list line) : list (nat * R) :=
  omap (fun l => match l with
                 | Final q c => Some (q, c)
                 | Arc _ _ _ _ _ => None
                 end) ls.

(** The destinations, from state [from] on, of the arcs of [ls]. *)
Definition fresh_dests (from : nat) (ls : list line) : list nat :=
  omap (fun l => match l with
                 | Arc _ d _ _ _ => if decide (from ≤ d) then Some d else None
                 | Final _ _ => None
                 end) ls.

Definition cost_of (l : line) : R :=
  match l with
  | Arc _ _ _ _ c => c
  | Final _ c => c
  end.

(** The cost of a path: the sum of the costs of its lines. *)
Definition total_cost (ls : list line) : R :=
  foldr (fun l acc => (cost_of l + acc)%R) 0%R ls.

(** The state a sequence of arcs leads to when it is followed from state
    [q], if each arc leaves the state the one before it enters. *)
Fixpoint follow (q : nat) (ls : list line) : option nat :=
  match ls with
  | [] => Some q
  | Arc src dest _ _ _ :: rest =>
      if decide (src = q) then follow dest rest else None
  | Final _ _ :: _ => None
  end.

(** The input and the output label of a line. *)
Definition input_of (l : line) : string :=
  match l with
  | Arc _ _ phone _ _ => phone
  | Final _ _ => eps
  end.

Definition output_of (l : line) : string :=
  match l with
  | Arc _ _ _ word _ => word
  | Final _ _ => eps
  end.

(** The tagging applied [k] times to the same list. *)
Fixpoint tag_times (k : nat) (t : list string) : result (list string) :=
  match k with
  | 0 => Ok t
  | S k' => t' <- tag_trans t ;; tag_times k' t'
  end.

(** ** The configuration of the module *)

(** [sorted(l)] for a list of strings. *)
Definition sorted_list (l : list string) : list string := merge_sort str_le l.

(** The phone inventory and the names [words_to_lexicon] calls
    [prepare_lexicon] with. *)
Module Config.

Definition nonsilence_phones : list string :=
  sorted_list ["I"; "S"; "Z"; "a"; "b"; "d"; "dZ"; "dz"; "dzi"; "e"; "en"; "f";
               "g"; "i"; "j"; "k"; "l"; "m"; "n"; "ni"; "o"; "on"; "p"; "r";
               "s"; "si"; "t"; "tS"; "ts"; "tsi"; "u"; "v"; "w"; "x"; "z";
               "zi"].

Definition silence_phones : list string := sorted_list ["sil"; "spn"].

Definition optional_silence : string := "sil".

Definition oov : string := "<unk>".

End Config.

(** * [nbest_oracle.py] *)

(** A word error rate: the float [jiwer] returns, or [float('inf')], which
    the script stores for an empty reference. *)
Inductive rate : Type :=
| Finite (x : R)
| Infinite.

(** [a < b] on these floats. *)
Definition rate_lt (a b : rate) : Prop :=
  match a, b with
  | Finite x, Finite y => (x < y)%R
  | Finite _, Infinite => True
  | Infinite, _ => False
  end.

#[global] Instance rate_lt_dec (a b : rate) : Decision (rate_lt a b).
Proof. destruct a, b; cbn; apply _. Defined.

(** [wers[k]] on the items of the dict [wers], in insertion order. *)
Fixpoint wers_get (wers : list (Z * rate)) (k : Z) : result rate :=
  match wers with
  | [] => Raise KeyError
  | (k', v) :: rest => if decide (k' = k) then Ok v else wers_get rest k
  end.

(** The body of the loop over the sentences, for the rates [wers] of one
    sentence: the values of [onebest], [oracle] and [oraclepos] that the
    line printed for the sentence shows. *)
Definition oracle (wers : list (Z * rate)) : result (rate * rate * Z) :=
  onebest <- wers_get wers 1%Z ;;
  let st := foldl (fun (st : rate * Z) (item : Z * rate) =>
                     let '(pos, wer) := item in
                     if decide (rate_lt wer st.1) then (wer, pos) else st)
                  (onebest, 1%Z) wers in
  Ok (onebest, st.1, st.2).

(** * Binary64 arithmetic

    Python's floats are binary64 numbers.  The embedding above carries costs
    as real numbers, which is exact for what is written where and in which
    order.  What the claims say about the numerical value of a cost is
    settled on the expressions of the source below, evaluated with the
    kernel's binary64 operations. *)
Module Binary64.
Import PrimFloat.

(** The real number a float stands for (0 for an infinity or a NaN, which
    the expressions here do not produce). *)
Definition value (f : float) : R :=
  match FloatOps.Prim2SF f with
  | SpecFloat.S754_finite s m e =>
      ((if s then -1 else 1) * IZR (Z.pos m) * powerRZ 2 e)%R
  | _ => 0%R
  end.

(** [float(n)] for a length [n]. *)
Definition of_nat (n : nat) : float := of_uint63 (Uint63.of_Z (Z.of_nat n)).

(** The [cost] arguments of the two closing prints of an entry (lines 131
    and 137): [no_sil_cost + (pron_cost if i <= 0 else 0.0)] and
    [sil_cost + (pron_cost if i <= 0 else 0.0)] for [i = len(pron) - 1]. *)
Definition closing_costs (sil_cost no_sil_cost pron_cost : float)
    (pron : list string) : float * float :=
  let i := (Z.of_nat (length pron) - 1)%Z in
  ((no_sil_cost + (if decide (i ≤ 0)%Z then pron_cost else 0))%float,
   (sil_cost + (if decide (i ≤ 0)%Z then pron_cost else 0))%float).

(** [1.0 / len(left_context_phones)] (line 49). *)
Definition float_div_int (n : nat) : result float :=
  if decide (n = 0) then Raise ZeroDivisionError else Ok (1 / of_nat n)%float.

(** [this_cost] of line 49 with the quotient in binary64.  The logarithm is
    the exact one of the quotient: the kernel has no binary64 logarithm. *)
Definition this_cost (n : nat) : result R :=
  q <- float_div_int n ;; Ok (- ln (value q))%R.

(** The values of [-math.log(0.3)] and [-math.log(0.7)], the costs of a call
    with [sil_prob = 0.3], and the weight [0.1]. *)
Definition sil_cost_03 : float := 0x1.34378fcbda721p+0%float.

Definition no_sil_cost_03 : float := 0x1.6d3c324e13f50p-2%float.

Definition weight_01 : float := 0x1.999999999999ap-4%float.

End Binary64.

(** * Properties *)

(** ** Streams *)

Lemma write_to_nil s : write_to s [] [] = s.
Proof. destruct s. unfold write_to. simpl. by rewrite !app_nil_r. Qed.

Lemma write_to_write_to s f o f' o' :
  write_to (write_to s f o) f' o' = write_to s (f ++ f') (o ++ o').
Proof. unfold write_to. simpl. by rewrite !app_assoc. Qed.

Lemma print_file_eq l s : print_file l s = (write_to s [l] [], Ok ()).
Proof. unfold print_file, write_to. by rewrite app_nil_r. Qed.

Lemma print_eq l s : print l s = (write_to s [] [l], Ok ()).
Proof. unfold print, write_to. by rewrite app_nil_r. Qed.

(** A loop whose body prints one line to the standard output. *)
Lemma efor_each_print {A : Type} (l : list A) (mk : A → line) s :
  efor_each l (fun _ x => print (mk x)) () s = (write_to s [] (mk <$> l), Ok ()).
Proof.
  revert s. induction l as [|x l IH]; intros s; simpl.
  - by rewrite write_to_nil.
  - unfold ebind at 1. rewrite print_eq, IH, write_to_write_to. done.
Qed.

(** ** Python indexing *)

Lemma py_index_nat (n i : nat) : i < n → py_index n (Z.of_nat i) = Ok i.
Proof.
  intros H. unfold py_index. rewrite decide_True by lia. by rewrite Nat2Z.id.
Qed.

Lemma py_index_last (n : nat) : 0 < n → py_index n (-1) = Ok (n - 1).
Proof.
  intros H. unfold py_index. rewrite decide_False by lia.
  rewrite decide_True by lia. f_equal. lia.
Qed.

Lemma py_index_empty (i : Z) : py_index 0 i = Raise IndexError.
Proof. unfold py_index. rewrite !decide_False by lia. done. Qed.

Lemma py_getitem_nat {A : Type} (l : list A) (i : nat) (v : A) :
  l !! i = Some v → py_getitem l (Z.of_nat i) = Ok v.
Proof.
  intros H. unfold py_getitem.
  rewrite py_index_nat by (by eapply lookup_lt_Some). simpl. by rewrite H.
Qed.

(** ** The emitter, entry by entry *)

Section Entry.
Variables (loop_state sil_state : nat) (sil_cost no_sil_cost : R).
Variables (word : string) (weight : R) (pron : list string) (next : nat).

(** The chain loop from iteration [a] on: it prints the arcs [a .. a+n-1]
    and leaves [(cur_state, next_state)] one chain state further each. *)
Lemma write_chain_from (n a : nat) (s : streams) :
  a + n < length pron ∨ n = 0 →
  efor_each (seq a n)
    (fun '(cur_state, next_state) i =>
       ph <~ elift (py_getitem pron (Z.of_nat i)) ;;
       _ <~ print_file (Arc cur_state next_state ph
                          (if decide (i = 0) then word else eps)
                          (if decide (i = 0) then weight else 0%R)) ;;
       eret (next_state, next_state + 1))
    (if decide (a = 0) then loop_state else next + a - 1, next + a) s
  = (write_to s (chain_arc loop_state next word weight pron <$> seq a n) [],
     Ok (if decide (a + n = 0) then loop_state else next + (a + n) - 1,
         next + (a + n))).
Proof.
  revert a s. induction n as [|n IH]; intros a s Hlen.
  - simpl. rewrite write_to_nil, Nat.add_0_r. done.
  - destruct Hlen as [Hlen|]; [|done].
    destruct (lookup_lt_is_Some_2 pron a) as [ph Hph]; [lia|].
    cbn [seq efor_each fmap list_fmap].
    unfold ebind at 1. unfold ebind at 1. unfold elift.
    rewrite (py_getitem_nat _ _ _ Hph).
    unfold ebind at 1. rewrite print_file_eq. unfold eret.
    specialize (IH (S a) (write_to s [chain_arc loop_state next word weight pron a] [])).
    rewrite decide_False in IH by lia.
    replace (next + S a - 1) with (next + a) in IH by lia.
    replace (next + S a) with (next + a + 1) in IH by lia.
    assert (Harc : Arc (if decide (a = 0) then loop_state else next + a - 1)
              (next + a) ph (if decide (a = 0) then word else eps)
              (if decide (a = 0) then weight else 0%R)
            = chain_arc loop_state next word weight pron a).
    { unfold chain_arc. by rewrite Hph. }
    rewrite Harc. etrans; [apply IH; lia|]. rewrite write_to_write_to. simpl.
    rewrite decide_False by lia.
    replace (S (a + n)) with (a + S n) by lia. done.
Qed.

Lemma write_chain_eq (s : streams) :
  write_chain loop_state word weight pron next s
  = (write_to s (chain_arc loop_state next word weight pron
                   <$> seq 0 (length pron - 1)) [],
     Ok (if decide (length pron ≤ 1) then loop_state
         else next + length pron - 2,
         next + (length pron - 1))).
Proof.
  unfold write_chain, range.
  replace (Z.to_nat (Z.of_nat (length pron) - 1)) with (length pron - 1) by lia.
  pose proof (write_chain_from (length pron - 1) 0 s) as H.
  rewrite decide_True in H by done. rewrite Nat.add_0_r in H.
  rewrite H by lia. f_equal. f_equal. f_equal.
  repeat case_decide; lia.
Qed.

Lemma write_entry_eq (s : streams) :
  write_entry loop_state sil_state sil_cost no_sil_cost next (word, weight, pron) s
  = (write_to s (entry_lines loop_state sil_state sil_cost no_sil_cost next
                   (word, weight, pron)) [],
     Ok (next + (length pron - 1))).
Proof.
  unfold write_entry. unfold ebind at 1. rewrite write_chain_eq. cbn [fst snd].
  assert (Hph : ∀ s', (if decide (0 ≤ Z.of_nat (length pron) - 1)%Z
                       then elift (py_getitem pron (Z.of_nat (length pron) - 1))
                       else eret eps) s'
                      = (s', Ok (default eps (pron !! (length pron - 1))))).
  { intros s'. case_decide as Hi.
    - destruct (lookup_lt_is_Some_2 pron (length pron - 1)) as [ph Hph]; [lia|].
      replace (Z.of_nat (length pron) - 1)%Z with (Z.of_nat (length pron - 1)) by lia.
      unfold elift. rewrite (py_getitem_nat _ _ _ Hph), Hph. done.
    - rewrite lookup_ge_None_2 by lia. done. }
  unfold ebind at 1. rewrite Hph.
  unfold ebind at 1. rewrite print_file_eq.
  unfold ebind at 1. rewrite print_file_eq. unfold eret.
  rewrite !write_to_write_to. unfold entry_lines, final_arcs, e_word, e_prob, e_trans.
  cbn [fst snd app].
  assert (Hle : (Z.of_nat (length pron) - 1 ≤ 0)%Z ↔ length pron ≤ 1) by lia.
  do 3 f_equal. repeat case_decide; try done; try (exfalso; lia).
Qed.
End Entry.

Lemma write_lexicon_eq (loop_state sil_state : nat) (sil_cost no_sil_cost : R)
    (lexicon : list entry) (next : nat) (s : streams) :
  efor_each lexicon (write_entry loop_state sil_state sil_cost no_sil_cost) next s
  = (write_to s (lexicon_lines loop_state sil_state sil_cost no_sil_cost next lexicon) [],
     Ok (lexicon_next next lexicon)).
Proof.
  revert next s. induction lexicon as [|[[w p] t] rest IH]; intros next s.
  - simpl. by rewrite write_to_nil.
  - cbn [efor_each lexicon_lines]. unfold ebind at 1.
    rewrite write_entry_eq, IH, write_to_write_to. done.
Qed.

(** ** The nonterminal extension *)

Lemma math_log_pos (x : R) : (0 < x)%R → math_log x = Ok (ln x).
Proof. intros H. unfold math_log. by rewrite decide_True. Qed.

Lemma inv_INR_pos (n : nat) : n ≠ 0 → (0 < 1 / INR n)%R.
Proof.
  intros H. apply Rdiv_lt_0_compat; [lra|]. apply lt_0_INR. lia.
Qed.

Lemma write_nonterminal_arcs_eq (start_state loop_state next : nat)
    (nonterminals lcp : list string) (s : streams) :
  lcp ≠ [] →
  write_nonterminal_arcs start_state loop_state next nonterminals (Some lcp) s
  = (write_to s [] (nonterminal_lines start_state loop_state next nonterminals lcp),
     Ok (next + 1 + 1)).
Proof.
  intros Hne. assert (Hn : length lcp ≠ 0) by (by destruct lcp).
  unfold write_nonterminal_arcs.
  unfold ebind at 1. rewrite print_eq.
  unfold ebind at 1. rewrite efor_each_print.
  unfold ebind at 1. cbn [elift py_len].
  unfold ebind at 1. unfold float_div_int. rewrite decide_False by done. cbn [elift].
  unfold ebind at 1. rewrite math_log_pos by (by apply inv_INR_pos). cbn [elift].
  unfold ebind at 1. cbn [elift py_iter].
  unfold ebind at 1. rewrite efor_each_print.
  unfold ebind at 1. rewrite print_eq.
  unfold ebind at 1. rewrite print_eq. unfold eret.
  rewrite !write_to_write_to. unfold nonterminal_lines.
  cbn [app]. rewrite <- ?app_assoc. done.
Qed.

Lemma write_nonterminal_arcs_empty (start_state loop_state next : nat)
    (nonterminals : list string) (s : streams) :
  write_nonterminal_arcs start_state loop_state next nonterminals (Some []) s
  = (write_to s [] (nonterminal_head start_state loop_state next nonterminals),
     Raise ZeroDivisionError).
Proof.
  unfold write_nonterminal_arcs.
  unfold ebind at 1. rewrite print_eq.
  unfold ebind at 1. rewrite efor_each_print.
  unfold ebind at 1. cbn [elift py_len length].
  unfold ebind at 1. unfold float_div_int. rewrite decide_True by done. cbn [elift].
  rewrite !write_to_write_to. done.
Qed.

Lemma write_nonterminal_arcs_none (start_state loop_state next : nat)
    (nonterminals : list string) (s : streams) :
  write_nonterminal_arcs start_state loop_state next nonterminals None s
  = (write_to s [] (nonterminal_head start_state loop_state next nonterminals),
     Raise TypeError).
Proof.
  unfold write_nonterminal_arcs.
  unfold ebind at 1. rewrite print_eq.
  unfold ebind at 1. rewrite efor_each_print.
  unfold ebind at 1. cbn [elift py_len].
  rewrite !write_to_write_to. done.
Qed.

(** ** [write_fst_with_silence] as a whole *)

Lemma assertion_holds (sil_prob : R) :
  (0 < sil_prob < 1)%R →
  negb (bool_decide (0 < sil_prob)%R && bool_decide (sil_prob < 1)%R) = false.
Proof. intros [H0 H1]. by rewrite !bool_decide_eq_true_2. Qed.

Lemma assertion_fails (sil_prob : R) :
  ¬ (0 < sil_prob < 1)%R →
  negb (bool_decide (0 < sil_prob)%R && bool_decide (sil_prob < 1)%R) = true.
Proof.
  intros H. apply negb_true_iff, andb_false_iff.
  destruct (decide (0 < sil_prob)%R) as [H0|H0].
  - right. apply bool_decide_eq_false_2. lra.
  - left. by apply bool_decide_eq_false_2.
Qed.

(** The run up to the nonterminal extension. *)
Lemma write_fst_with_silence_eq (lexicon : list entry) (sil_prob : R)
    (sil_phone : string) (sil_disambig : option string)
    (nonterminals left_context_phones : option (list string)) (s : streams) :
  (0 < sil_prob < 1)%R →
  write_fst_with_silence lexicon sil_prob sil_phone sil_disambig
    nonterminals left_context_phones s
  = (next_state <~
       match nonterminals with
       | Some nonterminals =>
           write_nonterminal_arcs 0 1
             (lexicon_next (first_free sil_disambig) lexicon)
             nonterminals left_context_phones
       | None => eret (lexicon_next (first_free sil_disambig) lexicon)
       end ;;
     print_file (Final 1 0))
    (write_to s (graph_lines lexicon sil_prob sil_phone sil_disambig) []).
Proof.
  intros Hp. unfold write_fst_with_silence. rewrite assertion_holds by done.
  unfold ebind at 1. rewrite math_log_pos by lra. cbn [elift].
  unfold ebind at 1. rewrite math_log_pos by lra. cbn [elift].
  unfold ebind at 1. rewrite print_file_eq.
  unfold ebind at 1. rewrite print_file_eq.
  unfold ebind at 1.
  assert (Hsil : ∀ s',
    match sil_disambig with
    | Some sil_disambig0 =>
        _ <~ print_file (Arc 2 3 sil_phone eps 0) ;;
        _ <~ print_file (Arc 3 1 sil_disambig0 eps 0) ;;
        eret (3 + 1)
    | None => _ <~ print_file (Arc 2 1 sil_phone eps 0) ;; eret 3
    end s' = (write_to s' (silence_lines sil_phone sil_disambig) [],
              Ok (first_free sil_disambig))).
  { intros s'. destruct sil_disambig; simpl.
    - unfold ebind at 1. rewrite print_file_eq.
      unfold ebind at 1. rewrite print_file_eq. unfold eret.
      by rewrite write_to_write_to.
    - unfold ebind at 1. rewrite print_file_eq. done. }
  rewrite Hsil.
  unfold ebind at 1. rewrite write_lexicon_eq.
  rewrite !write_to_write_to. done.
Qed.

Lemma write_fst_with_silence_plain (lexicon : list entry) (sil_prob : R)
    (sil_phone : string) (sil_disambig : option string)
    (left_context_phones : option (list string)) (s : streams) :
  (0 < sil_prob < 1)%R →
  write_fst_with_silence lexicon sil_prob sil_phone sil_disambig
    None left_context_phones s
  = (write_to s (graph_lines lexicon sil_prob sil_phone sil_disambig
                 ++ [Final 1 0]) [], Ok ()).
Proof.
  intros Hp. rewrite write_fst_with_silence_eq by done.
  unfold ebind, eret. rewrite print_file_eq, write_to_write_to. done.
Qed.

Lemma write_fst_with_silence_nonterminals (lexicon : list entry) (sil_prob : R)
    (sil_phone : string) (sil_disambig : option string)
    (nonterminals lcp : list string) (s : streams) :
  (0 < sil_prob < 1)%R → lcp ≠ [] →
  write_fst_with_silence lexicon sil_prob sil_phone sil_disambig
    (Some nonterminals) (Some lcp) s
  = (write_to s
       (graph_lines lexicon sil_prob sil_phone sil_disambig ++ [Final 1 0])
       (nonterminal_lines 0 1 (lexicon_next (first_free sil_disambig) lexicon)
          nonterminals lcp),
     Ok ()).
Proof.
  intros Hp Hne. rewrite write_fst_with_silence_eq by done.
  unfold ebind. rewrite write_nonterminal_arcs_eq by done.
  rewrite print_file_eq, !write_to_write_to, app_nil_r. done.
Qed.

Lemma write_fst_with_silence_assert (lexicon : list entry) (sil_prob : R)
    (sil_phone : string) (sil_disambig : option string)
    (nonterminals left_context_phones : option (list string)) (s : streams) :
  ¬ (0 < sil_prob < 1)%R →
  write_fst_with_silence lexicon sil_prob sil_phone sil_disambig
    nonterminals left_context_phones s = (s, Raise AssertionError).
Proof.
  intros Hp. unfold write_fst_with_silence. by rewrite assertion_fails.
Qed.

Lemma write_fst_with_silence_grows (lexicon : list entry) (sil_prob : R)
    (sil_phone : string) (sil_disambig : option string)
    (nonterminals left_context_phones : option (list string)) (s : streams) :
  (0 < sil_prob < 1)%R →
  ∃ f o r,
    write_fst_with_silence lexicon sil_prob sil_phone sil_disambig
      nonterminals left_context_phones s
    = (write_to s (graph_lines lexicon sil_prob sil_phone sil_disambig ++ f) o, r)
    ∧ r ≠ Raise AssertionError.
Proof.
  intros Hp. destruct nonterminals as [nts|].
  - destruct left_context_phones as [[|ph lcp]|].
    + exists [], (nonterminal_head 0 1
                   (lexicon_next (first_free sil_disambig) lexicon) nts),
        (Raise ZeroDivisionError).
      rewrite write_fst_with_silence_eq by done. unfold ebind.
      rewrite write_nonterminal_arcs_empty, write_to_write_to. done.
    + eexists _, _, _. rewrite write_fst_with_silence_nonterminals by done.
      split; [reflexivity|done].
    + exists [], (nonterminal_head 0 1
                   (lexicon_next (first_free sil_disambig) lexicon) nts),
        (Raise TypeError).
      rewrite write_fst_with_silence_eq by done. unfold ebind.
      rewrite write_nonterminal_arcs_none, write_to_write_to. done.
  - eexists _, [], _. rewrite write_fst_with_silence_plain by done.
    split; [reflexivity|done].
Qed.

(** ** Claims on the emitter *)

(** C5 (amended): for an entry with a pronunciation of length [L] the
    emitter writes [entry_lines]: arc [i < L-1] of the chain goes from the
    loop state ([i = 0]) or the previous fresh state to the fresh state
    [next + i], carries [pron[i]], the word on arc 0 only and the weight on
    arc 0 only; then come two parallel arcs with the same source and labels,
    into the loop state at the sum [no_sil_cost + extra] and into the
    silence state at the sum [sil_cost + extra], with the same [extra]: the
    weight when [L ≤ 1] and 0 otherwise; [L - 1] states are used up; for
    [L = 0] the two arcs leave the loop state with epsilon input and the
    word as output.  Nothing is said on the difference of the two sums,
    which the code rounds ([closing_costs_differ_counterexample]). *)
Theorem write_entry_chain_and_final_arcs (loop_state sil_state : nat)
    (sil_cost no_sil_cost : R) (next : nat) (word : string) (weight : R)
    (pron : list string) (s : streams) :
  let L := length pron in
  let lines := entry_lines loop_state sil_state sil_cost no_sil_cost next
                 (word, weight, pron) in
  write_entry loop_state sil_state sil_cost no_sil_cost next (word, weight, pron) s
    = (write_to s lines [], Ok (next + (L - 1)))
  ∧ length lines = (L - 1) + 2
  ∧ (∀ i ph, i < L - 1 → pron !! i = Some ph →
       lines !! i = Some (Arc (if decide (i = 0) then loop_state else next + i - 1)
                              (next + i) ph
                              (if decide (i = 0) then word else eps)
                              (if decide (i = 0) then weight else 0%R)))
  ∧ (∃ cur ph wd extra,
       drop (L - 1) lines = [Arc cur loop_state ph wd (no_sil_cost + extra);
                             Arc cur sil_state ph wd (sil_cost + extra)]
       ∧ cur = (if decide (L ≤ 1) then loop_state else next + L - 2)
       ∧ ph = default eps (last pron)
       ∧ wd = (if decide (L ≤ 1) then word else eps)
       ∧ extra = (if decide (L ≤ 1) then weight else 0%R))
  ∧ (L = 0 → lines = [Arc loop_state loop_state eps word (no_sil_cost + weight);
                      Arc loop_state sil_state eps word (sil_cost + weight)]).
Proof.
  intros L lines.
  assert (Hlines : lines
            = (chain_arc loop_state next word weight pron <$> seq 0 (L - 1))
              ++ final_arcs loop_state sil_state sil_cost no_sil_cost next
                   word weight pron) by reflexivity.
  assert (Hchain : length (chain_arc loop_state next word weight pron
                             <$> seq 0 (L - 1)) = L - 1)
    by (by rewrite length_fmap, length_seq).
  clearbody lines. subst lines.
  split; [apply write_entry_eq|].
  split; [by rewrite length_app, Hchain|].
  split.
  { intros i ph Hi Hph.
    rewrite lookup_app_l by (rewrite Hchain; done).
    rewrite list_lookup_fmap, lookup_seq_lt by done. simpl.
    unfold chain_arc. by rewrite Hph. }
  split.
  { eexists _, _, _, _. split; [|split; [reflexivity|]].
    - rewrite drop_app_length' by done. reflexivity.
    - split.
      { rewrite last_lookup. by replace (pred (length pron)) with (L - 1)
          by (unfold L; lia). }
      split; [done|]. done. }
  intros HL. unfold final_arcs. fold L. rewrite HL. simpl.
  destruct pron; [done|discriminate].
Qed.

(** Evaluates the floats of the goal to their exact values. *)
Ltac binary64_values :=
  unfold Binary64.value;
  repeat match goal with
         | |- context [FloatOps.Prim2SF ?f] =>
             let v := eval vm_compute in (FloatOps.Prim2SF f) in
             replace (FloatOps.Prim2SF f) with v by (vm_compute; reflexivity)
         end;
  cbn [powerRZ]; rewrite ?pow_IZR;
  repeat match goal with
         | |- context [(?a ^ Z.of_nat (Pos.to_nat ?p))%Z] =>
             let z := eval vm_compute in (a ^ Z.of_nat (Pos.to_nat p))%Z in
             replace (a ^ Z.of_nat (Pos.to_nat p))%Z with z
               by (vm_compute; reflexivity)
         end.

(** C5, as stated, fails in binary64: for an entry of one phone with weight
    [0.1], in a call with [sil_prob = 0.3], the costs of the two closing
    arcs are the rounded sums [0.35667494393873245 + 0.1] and
    [1.2039728043259361 + 0.1], and their difference is not
    [sil_cost - no_sil_cost]. *)
Lemma closing_costs_differ_counterexample :
  let c := Binary64.closing_costs Binary64.sil_cost_03 Binary64.no_sil_cost_03
             Binary64.weight_01 ["x"] in
  (Binary64.value c.2 - Binary64.value c.1
   ≠ Binary64.value Binary64.sil_cost_03
     - Binary64.value Binary64.no_sil_cost_03)%R.
Proof.
  cbv zeta. unfold Binary64.closing_costs. cbn [length fst snd].
  rewrite !decide_True by lia.
  binary64_values. lra.
Qed.

(** C8: the assertion is the only way to fail before anything is written,
    and it fails exactly when the silence probability is not strictly
    between 0 and 1; for a probability in range the result is not an
    [AssertionError] and the file starts with the two arcs that leave the
    start state, at costs [-ln(1 - sil_prob)] and [-ln(sil_prob)]. *)
Theorem write_fst_with_silence_assertion (lexicon : list entry) (sil_prob : R)
    (sil_phone : string) (sil_disambig : option string)
    (nonterminals left_context_phones : option (list string)) (s : streams) :
  let out := write_fst_with_silence lexicon sil_prob sil_phone sil_disambig
               nonterminals left_context_phones s in
  ((∃ e, out = (s, Raise e)) ↔ ¬ (0 < sil_prob < 1)%R)
  ∧ (¬ (0 < sil_prob < 1)%R → out = (s, Raise AssertionError))
  ∧ ((0 < sil_prob < 1)%R →
       out.2 ≠ Raise AssertionError
       ∧ ∃ rest o,
           out.1 = write_to s (Arc 0 1 eps eps (- ln (1 - sil_prob))
                               :: Arc 0 2 eps eps (- ln sil_prob) :: rest) o).
Proof.
  intros out. split; [split|split].
  - intros [e He] Hp.
    destruct (write_fst_with_silence_grows lexicon sil_prob sil_phone
                sil_disambig nonterminals left_context_phones s Hp)
      as (f & o & r & Heq & _).
    unfold out in He. rewrite Heq in He.
    assert (Hlen : length (file (write_to s
               (graph_lines lexicon sil_prob sil_phone sil_disambig ++ f) o))
             = length (file s)) by congruence.
    unfold write_to, graph_lines in Hlen. simpl in Hlen.
    rewrite length_app in Hlen. simpl in Hlen. lia.
  - intros Hp. exists AssertionError. by apply write_fst_with_silence_assert.
  - intros Hp. by apply write_fst_with_silence_assert.
  - intros Hp.
    destruct (write_fst_with_silence_grows lexicon sil_prob sil_phone
                sil_disambig nonterminals left_context_phones s Hp)
      as (f & o & r & Heq & Hr).
    unfold out. rewrite Heq. split; [done|].
    eexists _, o. simpl. unfold graph_lines. cbn [app]. reflexivity.
Qed.

Lemma write_fst_with_silence_assertion_witness :
  (0 < 1 / 2 < 1)%R
  ∧ (write_fst_with_silence [] (1 / 2) "sil" None None None no_output).2
    ≠ Raise AssertionError.
Proof.
  assert (H : (0 < 1 / 2 < 1)%R) by lra.
  split; [exact H|].
  exact (proj1 (proj2 (proj2 (write_fst_with_silence_assertion
                                [] (1 / 2) "sil" None None None no_output)) H)).
Defined.

(** ** The stochastic invariant of the shared state *)

Lemma costs_leaving_app (q : nat) (l1 l2 : list line) :
  costs_leaving q (l1 ++ l2) = costs_leaving q l1 ++ costs_leaving q l2.
Proof. unfold costs_leaving. apply omap_app. Qed.








(** C7: a run with nonterminals on the empty lexicon.  The lines of the
    nonterminal extension are printed to the standard output; the stream
    given as [file] receives the arcs of the start state, the silence arc
    and the final state only. *)
Theorem nonterminal_lines_go_to_stdout :
  write_fst_with_silence [] (1 / 2) "sil" None
    (Some ["#nonterm:contact_list"]) (Some ["a"]) no_output
  = ({| file := [Arc 0 1 eps eps (- ln (1 - 1 / 2));
                 Arc 0 2 eps eps (- ln (1 / 2));
                 Arc 2 1 "sil" eps 0;
                 Final 1 0];
        stdout := [Arc 0 3 "#nonterm_begin" "#nonterm_begin" 0;
                   Arc 1 3 "#nonterm:contact_list" "#nonterm:contact_list" 0;
                   Arc 3 1 "a" eps (- ln (1 / INR 1));
                   Arc 1 4 "#nonterm_end" "#nonterm_end" 0;
                   Final 4 0] |},
     Ok ()).
Proof.
  rewrite write_fst_with_silence_nonterminals by (lra || done). reflexivity.
Qed.

(** ** Strings *)

Lemma append_cons (c : Ascii.ascii) (s t : string) :
  String c s +:+ t = String c (s +:+ t).
Proof. reflexivity. Qed.

Lemma append_nil_l (t : string) : "" +:+ t = t.
Proof. reflexivity. Qed.

Lemma append_assoc (s t u : string) : (s +:+ t) +:+ u = s +:+ (t +:+ u).
Proof.
  induction s as [|c s IH]; [done|]. by rewrite !append_cons, IH.
Qed.


Lemma length_zero (s : string) : String.length s = 0 ↔ s = "".
Proof. destruct s; simpl; split; (done || discriminate). Qed.

Lemma last_char_append (s t : string) :
  t ≠ "" → last_char (s +:+ t) = last_char t.
Proof.
  intros Ht. induction s as [|c s IH]; [done|].
  rewrite append_cons. simpl. rewrite IH.
  destruct (s +:+ t) eqn:Hst; [|done].
  destruct s; [by rewrite append_nil_l in Hst|].
  rewrite append_cons in Hst. discriminate.
Qed.

(** ** [join] *)

Lemma join_cons (t : string) (l : list string) :
  l ≠ [] → join (t :: l) = t +:+ " " +:+ join l.
Proof. destruct l; [done|]. reflexivity. Qed.

Lemma join_app (l1 l2 : list string) :
  l1 ≠ [] → l2 ≠ [] → join (l1 ++ l2) = join l1 +:+ " " +:+ join l2.
Proof.
  intros H1 H2. induction l1 as [|a l1 IH]; [done|].
  destruct l1 as [|b l1].
  - simpl. by rewrite join_cons.
  - change ((a :: b :: l1) ++ l2) with (a :: ((b :: l1) ++ l2)).
    rewrite join_cons by done. rewrite IH by done.
    rewrite (join_cons a (b :: l1)) by done.
    by rewrite !append_assoc.
Qed.

Lemma join_snoc (l : list string) (t : string) :
  l ≠ [] → join (l ++ [t]) = join l +:+ " " +:+ t.
Proof. intros H. by rewrite join_app. Qed.


(** The last character of a joined list is that of its last token. *)
Lemma last_char_join (l : list string) (t : string) :
  t ≠ "" → last_char (join (l ++ [t])) = last_char t.
Proof.
  intros Ht. destruct l as [|a l]; [done|].
  rewrite join_snoc by done. rewrite <- append_assoc.
  by apply last_char_append.
Qed.

(** ** Positional tagging *)

Lemma iadd_item_nat (l : list string) (i : nat) (s : string) :
  i < length l →
  iadd_item l (Z.of_nat i) s = Ok (alter (fun v => v +:+ s) i l).
Proof.
  intros Hi. destruct (lookup_lt_is_Some_2 l i Hi) as [v Hv].
  unfold iadd_item. rewrite (py_getitem_nat _ _ _ Hv). simpl.
  unfold py_setitem. rewrite py_index_nat by done. simpl. f_equal.
  apply list_eq. intros j. rewrite list_lookup_alter.
  destruct (decide (i = j)) as [->|Hne].
  - rewrite list_lookup_insert_eq by done. by rewrite Hv.
  - by rewrite list_lookup_insert_ne.
Qed.

Lemma iadd_item_last (l : list string) (s : string) :
  0 < length l →
  iadd_item l (-1) s = Ok (alter (fun v => v +:+ s) (length l - 1) l).
Proof.
  intros Hl. rewrite <- (iadd_item_nat l (length l - 1) s) by lia.
  unfold iadd_item, py_getitem, py_setitem.
  rewrite py_index_last, py_index_nat by lia. done.
Qed.

Lemma tag_loop_eq (n a : nat) (l : list string) :
  a + n ≤ length l →
  for_each (seq a n) (fun t i => iadd_item t (Z.of_nat i) "_I") l
  = Ok (foldl (fun t i => alter (fun v => v +:+ "_I") i t) l (seq a n)).
Proof.
  revert a l. induction n as [|n IH]; intros a l Hlen; [done|].
  cbn [seq for_each foldl]. rewrite iadd_item_nat by lia. simpl.
  apply IH. rewrite length_alter. lia.
Qed.

Lemma foldl_alter_lookup {A : Type} (f : A → A) (n a : nat) (l : list A) (j : nat) :
  foldl (fun t i => alter f i t) l (seq a n) !! j
  = if decide (a ≤ j < a + n) then f <$> l !! j else l !! j.
Proof.
  revert a l. induction n as [|n IH]; intros a l.
  - simpl. rewrite decide_False by lia. done.
  - cbn [seq foldl]. rewrite IH. rewrite list_lookup_alter.
    destruct (decide (a = j)) as [->|Hne].
    + rewrite decide_False by lia. rewrite decide_True by lia. done.
    + destruct (decide (S a ≤ j < S a + n)).
      * rewrite decide_True by lia. done.
      * rewrite decide_False by lia. done.
Qed.

Lemma foldl_alter_length {A : Type} (f : A → A) (idx : list nat) (l : list A) :
  length (foldl (fun t i => alter f i t) l idx) = length l.
Proof.
  revert l. induction idx as [|i idx IH]; intros l; [done|].
  simpl. rewrite IH. apply length_alter.
Qed.

(** Tagging a non-empty transcription succeeds and appends to the token at
    position [j] the tag of that position. *)
Lemma tag_trans_ok (l : list string) :
  l ≠ [] →
  ∃ l', tag_trans l = Ok l'
        ∧ length l' = length l
        ∧ ∀ j t, l !! j = Some t → l' !! j = Some (t +:+ tag_of (length l) j).
Proof.
  intros Hne. assert (Hlen : 0 < length l) by (destruct l; [done|simpl; lia]).
  unfold tag_trans. case_decide as H1.
  - rewrite (iadd_item_nat l 0) by lia. eexists. split; [done|].
    split; [apply length_alter|].
    intros j t Hj. assert (j = 0) as -> by (apply lookup_lt_Some in Hj; lia).
    rewrite list_lookup_alter_eq, Hj. unfold tag_of.
    rewrite decide_True by done. done.
  - rewrite (iadd_item_nat l 0) by lia. cbn [rbind].
    set (l1 := alter (fun v => v +:+ "_B") 0 l).
    assert (Hl1 : length l1 = length l) by apply length_alter.
    assert (Hloop : (if decide (2 < length l1)
                     then for_range 1 (length l1 - 1)
                            (fun t i => iadd_item t (Z.of_nat i) "_I") l1
                     else Ok l1)
                    = Ok (foldl (fun t i => alter (fun v => v +:+ "_I") i t) l1
                            (seq 1 (length l - 2)))).
    { case_decide as H2.
      - unfold for_range. rewrite Hl1.
        replace (length l - 1 - 1) with (length l - 2) by lia.
        apply tag_loop_eq. lia.
      - replace (length l - 2) with 0 by lia. done. }
    rewrite Hloop. cbn [rbind].
    set (l2 := foldl _ l1 _).
    assert (Hl2 : length l2 = length l)
      by (unfold l2; rewrite foldl_alter_length; done).
    rewrite iadd_item_last by lia. eexists. split; [done|].
    split; [by rewrite length_alter|].
    intros j t Hj. pose proof (lookup_lt_Some _ _ _ Hj) as Hjlt.
    rewrite list_lookup_alter, Hl2. unfold l2.
    rewrite !foldl_alter_lookup. unfold l1. rewrite !list_lookup_alter.
    unfold tag_of. rewrite (decide_False (P := length l = 1)) by done.
    destruct (decide (j = 0)) as [->|Hj0].
    + rewrite (decide_False (P := length l - 1 = 0)) by lia.
      rewrite (decide_False (P := 1 ≤ 0 < _)) by lia.
      rewrite decide_True by done. by rewrite Hj.
    + destruct (decide (j = length l - 1)) as [->|Hjl].
      * rewrite (decide_True (P := length l - 1 = length l - 1)) by done.
        rewrite (decide_False (P := 1 ≤ length l - 1 < _)) by lia.
        rewrite (decide_False (P := 0 = length l - 1)) by lia.
        by rewrite Hj.
      * rewrite (decide_False (P := length l - 1 = j)) by lia.
        rewrite (decide_True (P := 1 ≤ j < _)) by lia.
        rewrite (decide_False (P := 0 = j)) by lia.
        by rewrite Hj.
Qed.

Lemma tag_trans_inv (l l' : list string) :
  tag_trans l = Ok l' →
  l ≠ [] ∧ length l' = length l
  ∧ ∀ j t, l !! j = Some t → l' !! j = Some (t +:+ tag_of (length l) j).
Proof.
  intros H. destruct l as [|a l]; [discriminate|].
  split; [done|].
  destruct (tag_trans_ok (a :: l)) as (l'' & Hok & Hlen & Hlook); [done|].
  rewrite Hok in H. by injection H as <-.
Qed.

Lemma last_char_tag (t : string) (n j : nat) :
  last_char (t +:+ tag_of n j)
  = Some (if decide (n = 1) then "S"%char
          else if decide (j = 0) then "B"%char
          else if decide (j = n - 1) then "E"%char else "I"%char).
Proof.
  unfold tag_of. repeat case_decide; by rewrite last_char_append.
Qed.

Lemma ends_final_not_inner (x : string) : ends_final x → ¬ ends_inner x.
Proof.
  intros [H|H] [->|[H'|H']]; try discriminate; congruence.
Qed.

Lemma tagged_ends_final (l l' : list string) :
  tag_trans l = Ok l' → ends_final (join l') ∧ join l' ≠ "".
Proof.
  intros H. apply tag_trans_inv in H as (Hne & Hlen & Hlook).
  assert (Hn : 0 < length l) by (destruct l; [done|simpl; lia]).
  destruct (lookup_lt_is_Some_2 l (length l - 1)) as [t Ht]; [lia|].
  pose proof (Hlook _ _ Ht) as Ht'.
  assert (Hsplit : l' = take (length l - 1) l' ++ [t +:+ tag_of (length l) (length l - 1)]).
  { rewrite <- (take_drop (length l - 1) l') at 1. f_equal.
    apply list_eq. intros j. rewrite lookup_drop. destruct j as [|j].
    - by rewrite Nat.add_0_r, Ht'.
    - rewrite lookup_ge_None_2 by lia. done. }
  assert (Hlast : last_char (join l')
                  = Some (if decide (length l = 1) then "S"%char else "E"%char)).
  { rewrite Hsplit, last_char_join.
    - rewrite last_char_tag. repeat case_decide; (done || lia).
    - intros Hemp. apply (f_equal last_char) in Hemp.
      rewrite last_char_tag in Hemp. discriminate. }
  split.
  - unfold ends_final. rewrite Hlast. case_decide; auto.
  - intros Hemp. rewrite Hemp in Hlast. discriminate.
Qed.

Lemma tagged_prefix_ends_inner (l l' : list string) (k : nat) :
  tag_trans l = Ok l' → k < length l' → ends_inner (join (take k l')).
Proof.
  intros H Hk. apply tag_trans_inv in H as (Hne & Hlen & Hlook).
  destruct k as [|k]; [by left|]. right.
  destruct (lookup_lt_is_Some_2 l k) as [t Ht]; [lia|].
  pose proof (Hlook _ _ Ht) as Ht'.
  rewrite (take_S_r _ _ _ Ht'), last_char_join.
  - rewrite last_char_tag. repeat case_decide; auto; lia.
  - intros Hemp. apply (f_equal last_char) in Hemp.
    rewrite last_char_tag in Hemp. discriminate.
Qed.

Lemma tag_lexicon_inv (lexicon tagged : list entry) :
  tag_lexicon lexicon = Ok tagged →
  Forall2 (fun e e' => e_word e' = e_word e ∧ e_prob e' = e_prob e
                       ∧ tag_trans (e_trans e) = Ok (e_trans e'))
          lexicon tagged.
Proof.
  revert tagged. induction lexicon as [|[[w p] t] rest IH]; intros tagged H.
  - injection H as <-. constructor.
  - cbn [tag_lexicon tag_entry] in H.
    destruct (tag_trans t) as [t'|] eqn:Ht; [|discriminate]. cbn [rbind] in H.
    destruct (tag_lexicon rest) as [rest'|]; [|discriminate]. cbn [rbind] in H.
    injection H as <-. constructor; [done|]. by apply IH.
Qed.

(** ** The first two passes *)

Lemma occ_nil (x : string) : occ [] x = 0.
Proof. done. Qed.

Lemma occ_cons (e : entry) (lexicon : list entry) (x : string) :
  occ (e :: lexicon) x
  = (if decide (pron_string e = x) then 1 else 0) + occ lexicon x.
Proof.
  unfold occ. rewrite filter_cons. case_decide; done.
Qed.

Lemma occ_pos (e : entry) (lexicon : list entry) :
  e ∈ lexicon → 0 < occ lexicon (pron_string e).
Proof.
  induction 1 as [e l|e e' l _ IH]; rewrite occ_cons.
  - rewrite decide_True by done. lia.
  - lia.
Qed.

Lemma count_pass_from (lexicon : list entry) (count : gmap string nat) (x : string) :
  foldl (fun count e => incr_count count (join (e_trans e))) count lexicon !! x
  = match count !! x with
    | Some c => Some (c + occ lexicon x)
    | None => if decide (occ lexicon x = 0) then None else Some (occ lexicon x)
    end.
Proof.
  revert count. induction lexicon as [|e rest IH]; intros count.
  - cbn [foldl]. rewrite occ_nil. destruct (count !! x); [by rewrite Nat.add_0_r|done].
  - cbn [foldl]. rewrite IH, occ_cons. fold (pron_string e). unfold incr_count.
    destruct (decide (pron_string e = x)) as [<-|Hne].
    + destruct (count !! pron_string e) as [c|] eqn:Hc.
      * rewrite lookup_insert_eq. f_equal. lia.
      * rewrite lookup_insert_eq. rewrite decide_False by lia. f_equal.
    + destruct (count !! pron_string e) as [c|] eqn:Hc;
        rewrite lookup_insert_ne by done; done.
Qed.

Lemma count_pass_lookup (lexicon : list entry) (x : string) :
  count_pass lexicon !! x
  = if decide (occ lexicon x = 0) then None else Some (occ lexicon x).
Proof. unfold count_pass. by rewrite count_pass_from, lookup_empty. Qed.

Lemma pop_prefixes_elem (fuel : nat) (t : list string) (prefix : gset string)
    (x : string) :
  length t ≤ fuel →
  x ∈ pop_prefixes fuel t prefix
  ↔ x ∈ prefix ∨ ∃ k, k < length t ∧ x = join (take k t).
Proof.
  revert t prefix. induction fuel as [|fuel IH]; intros t prefix Hfuel.
  - simpl. split; [auto|]. intros [H|(k & Hk & _)]; [done|lia].
  - cbn [pop_prefixes]. case_decide as Hlen.
    + assert (Hpop : length (py_pop t) = length t - 1).
      { unfold py_pop. rewrite length_take. lia. }
      rewrite IH by lia. rewrite elem_of_union, elem_of_singleton, Hpop.
      unfold py_pop. split.
      * intros [[->|H]|(k & Hk & ->)]; [right|by left|right].
        -- exists (length t - 1). split; [lia|done].
        -- exists k. split; [lia|]. rewrite take_take. by rewrite Nat.min_l by lia.
      * intros [H|(k & Hk & ->)]; [by left; right|].
        destruct (decide (k = length t - 1)) as [->|Hne]; [by left; left|].
        right. exists k. split; [lia|]. rewrite take_take. by rewrite Nat.min_l by lia.
    + split; [auto|]. intros [H|(k & Hk & _)]; [done|lia].
Qed.

Lemma prefix_pass_from (lexicon : list entry) (prefix : gset string) (x : string) :
  x ∈ foldl (fun prefix e => pop_prefixes (length (e_trans e)) (e_trans e) prefix)
        prefix lexicon
  ↔ x ∈ prefix
    ∨ ∃ e k, e ∈ lexicon ∧ k < length (e_trans e) ∧ x = join (take k (e_trans e)).
Proof.
  revert prefix. induction lexicon as [|e rest IH]; intros prefix.
  - simpl. split; [auto|]. intros [H|(e & k & He & _)]; [done|].
    by apply elem_of_nil in He.
  - cbn [foldl]. rewrite IH, pop_prefixes_elem by done. split.
    + intros [[H|(k & Hk & ->)]|(e' & k & He' & Hk & ->)].
      * by left.
      * right. exists e, k. split; [left|done].
      * right. exists e', k. split; [by right|done].
    + intros [H|(e' & k & He' & Hk & ->)]; [by left; left|].
      apply elem_of_cons in He' as [->|He'].
      * left. right. by exists k.
      * right. by exists e', k.
Qed.

Lemma prefix_pass_elem (lexicon : list entry) (x : string) :
  x ∈ prefix_pass lexicon
  ↔ ∃ e k, e ∈ lexicon ∧ k < length (e_trans e) ∧ x = join (take k (e_trans e)).
Proof.
  unfold prefix_pass. rewrite prefix_pass_from. split; [|auto].
  intros [H|H]; [|done]. by apply not_elem_of_empty in H.
Qed.

(** ** The third loop *)

Lemma disambig_entry_choose (count : gmap string nat) (prefix : gset string)
    (st : disambig_state) (e : entry) :
  disambig_entry count prefix st e
  = (r <- choose count prefix st (pron_string e) ;; Ok (r.1, with_symbol e r.2)).
Proof.
  destruct e as [[w p] t]. unfold disambig_entry, choose, pron_string, e_trans.
  cbn [snd]. destruct (needs_no_symbol count prefix (join t)) as [[|]|]; cbn [rbind];
    [done| |done].
  case_decide; done.
Qed.

Lemma disambig_loop_choose (count : gmap string nat) (prefix : gset string)
    (lexicon : list entry) (st : disambig_state) :
  disambig_loop count prefix st lexicon
  = (r <- choose_all count prefix st (pron_string <$> lexicon) ;;
     Ok (r.1, zip_with with_symbol lexicon r.2)).
Proof.
  revert st. induction lexicon as [|e rest IH]; intros st; [done|].
  cbn [disambig_loop choose_all fmap list_fmap].
  rewrite disambig_entry_choose.
  destruct (choose count prefix st (pron_string e)) as [[st1 o]|]; [|done].
  cbn [rbind fst snd]. rewrite IH.
  destruct (choose_all count prefix st1 (pron_string <$> rest)) as [[st2 os]|];
    done.
Qed.

Lemma skip_reserved_fuel_exits (fuel : nat) (reserved seen : gset nat) (c : nat) :
  size seen < fuel →
  (∀ r, r ∈ reserved → c ≤ r → r ∈ seen) →
  skip_reserved_fuel fuel reserved c ∉ reserved.
Proof.
  revert seen c. induction fuel as [|fuel IH]; intros seen c Hsize Hseen; [lia|].
  cbn [skip_reserved_fuel]. case_decide as Hc; [|done].
  apply (IH (seen ∖ {[ c ]})).
  - assert (Hin : c ∈ seen) by (apply Hseen; [done|lia]).
    assert (Hsub : ({[ c ]} : gset nat) ⊆ seen) by (by apply singleton_subseteq_l).
    rewrite (size_difference seen {[ c ]} Hsub), size_singleton.
    assert (0 < size seen); [|lia].
    apply Nat.neq_0_lt_0. intros H0. apply size_empty_inv in H0.
    by apply H0 in Hin.
  - intros r Hr Hle. apply elem_of_difference. split; [apply Hseen; [done|lia]|].
    rewrite elem_of_singleton. lia.
Qed.

(** The [while] loop leaves by its test: the symbol it stops at is not
    reserved. *)
Lemma skip_reserved_exits (reserved : gset nat) (c : nat) :
  skip_reserved reserved c ∉ reserved.
Proof.
  unfold skip_reserved. apply (skip_reserved_fuel_exits _ _ reserved); [lia|done].
Qed.

Lemma skip_reserved_empty (c : nat) : skip_reserved ∅ c = c.
Proof. unfold skip_reserved. simpl. by rewrite decide_False by set_solver. Qed.

Lemma needs_no_symbol_plain (count : gmap string nat) (prefix : gset string)
    (x : string) :
  is_Some (count !! x) →
  needs_no_symbol count prefix x = Ok (bool_decide (plain count prefix x)).
Proof.
  intros [c Hc]. unfold needs_no_symbol. rewrite Hc.
  case_decide as Hp.
  - rewrite bool_decide_eq_false_2; [done|]. by intros [? _].
  - f_equal. apply bool_decide_ext. unfold plain. rewrite Hc.
    split; [intros ->; done|]. intros [_ H]. by injection H.
Qed.

Lemma choose_plain (count : gmap string nat) (prefix : gset string)
    (st : disambig_state) (x : string) :
  plain count prefix x → choose count prefix st x = Ok (st, None).
Proof.
  intros Hp. unfold choose. rewrite needs_no_symbol_plain by (destruct Hp; eauto).
  by rewrite bool_decide_eq_true_2.
Qed.

Lemma choose_empty (count : gmap string nat) (prefix : gset string)
    (st : disambig_state) :
  is_Some (count !! "") → ¬ plain count prefix "" →
  choose count prefix st ""
  = Ok ({| max_disambig := max_disambig st + 1;
           reserved_empty := {[ max_disambig st + 1 ]} ∪ reserved_empty st;
           last_sym := last_sym st |}, Some (max_disambig st + 1)).
Proof.
  intros Hc Hp. unfold choose. rewrite needs_no_symbol_plain by done.
  by rewrite bool_decide_eq_false_2.
Qed.

Lemma choose_nonempty (count : gmap string nat) (prefix : gset string)
    (st : disambig_state) (x : string) :
  is_Some (count !! x) → ¬ plain count prefix x → x ≠ "" →
  let c := skip_reserved (reserved_empty st)
             (match last_sym st !! x with
              | None => first_sym
              | Some s => s + 1
              end) in
  choose count prefix st x
  = Ok ({| max_disambig := if decide (max_disambig st < c) then c
                           else max_disambig st;
           reserved_empty := reserved_empty st;
           last_sym := <[x := c]> (last_sym st) |}, Some c).
Proof.
  intros Hc Hp Hx c. unfold choose. rewrite needs_no_symbol_plain by done.
  rewrite bool_decide_eq_false_2 by done. cbn [rbind].
  rewrite decide_False; [done|]. by rewrite length_zero.
Qed.

Lemma choose_inv (count : gmap string nat) (prefix : gset string)
    (st st1 : disambig_state) (x : string) (o : option nat) :
  choose count prefix st x = Ok (st1, o) →
  (plain count prefix x ∧ o = None ∧ st1 = st)
  ∨ (¬ plain count prefix x ∧ x = "" ∧ o = Some (max_disambig st + 1)
     ∧ max_disambig st1 = max_disambig st + 1
     ∧ reserved_empty st1 = {[ max_disambig st + 1 ]} ∪ reserved_empty st
     ∧ last_sym st1 = last_sym st)
  ∨ (¬ plain count prefix x ∧ x ≠ "" ∧ ∃ c,
       c = skip_reserved (reserved_empty st)
             (match last_sym st !! x with
              | None => first_sym
              | Some s => s + 1
              end)
       ∧ o = Some c
       ∧ max_disambig st1 = (if decide (max_disambig st < c) then c
                             else max_disambig st)
       ∧ reserved_empty st1 = reserved_empty st
       ∧ last_sym st1 = <[x := c]> (last_sym st)).
Proof.
  intros H. destruct (count !! x) as [n|] eqn:Hc.
  - assert (Hs : is_Some (count !! x)) by eauto.
    destruct (decide (plain count prefix x)) as [Hp|Hp].
    + rewrite choose_plain in H by done. injection H as <- <-. by left.
    + destruct (decide (x = "")) as [->|Hx].
      * rewrite choose_empty in H by done. injection H as <- <-.
        right. left. done.
      * rewrite choose_nonempty in H by done. injection H as <- <-.
        right. right. split; [done|]. split; [done|]. eexists. done.
  - unfold choose, needs_no_symbol in H. rewrite Hc in H.
    case_decide as Hp; [|discriminate]. cbn [rbind] in H.
    assert (Hnp : ¬ plain count prefix x) by (by intros [? _]).
    case_decide as Hx.
    + apply length_zero in Hx as ->. injection H as <- <-. right. left. done.
    + rewrite length_zero in Hx. injection H as <- <-.
      right. right. split; [done|]. split; [done|]. eexists. done.
Qed.

Lemma choose_total (count : gmap string nat) (prefix : gset string)
    (st : disambig_state) (x : string) :
  is_Some (count !! x) → ∃ st1 o, choose count prefix st x = Ok (st1, o).
Proof.
  intros Hc. destruct (decide (plain count prefix x)) as [Hp|Hp].
  - rewrite choose_plain by done. eauto.
  - destruct (decide (x = "")) as [->|Hx].
    + rewrite choose_empty by done. eauto.
    + rewrite choose_nonempty by done. eauto.
Qed.

(** The loop returns, with one decision per string; the decision is "no
    symbol" exactly for the plain strings. *)
Lemma choose_all_shape (count : gmap string nat) (prefix : gset string)
    (xs : list string) (st : disambig_state) :
  (∀ x, x ∈ xs → is_Some (count !! x)) →
  ∃ st' syms,
    choose_all count prefix st xs = Ok (st', syms)
    ∧ length syms = length xs
    ∧ ∀ i x, xs !! i = Some x →
        ∃ o, syms !! i = Some o ∧ (o = None ↔ plain count prefix x).
Proof.
  revert st. induction xs as [|x0 xs IH]; intros st Hc.
  - exists st, []. split; [done|]. split; [done|]. intros i x Hi. done.
  - destruct (choose_total count prefix st x0) as (st1 & o & Hch);
      [apply Hc; left|].
    destruct (IH st1) as (st' & syms & Hall & Hlen & Hsyms);
      [intros x Hx; apply Hc; by right|].
    exists st', (o :: syms). cbn [choose_all]. rewrite Hch. cbn [rbind fst snd].
    rewrite Hall. cbn [rbind fst snd]. split; [done|]. split; [simpl; lia|].
    intros [|i] x Hi.
    + injection Hi as <-. exists o. split; [done|].
      apply choose_inv in Hch as [(Hp & -> & _)|[(Hp & _ & -> & _)|(Hp & _ & c & _ & -> & _)]];
        split; done.
    + by apply Hsyms.
Qed.

Lemma rank_0 (x : string) (xs : list string) : rank (x :: xs) 0 x = 1.
Proof. unfold rank. simpl. rewrite filter_cons, decide_True by done. done. Qed.

Lemma rank_S (x0 x : string) (xs : list string) (i : nat) :
  rank (x0 :: xs) (S i) x = (if decide (x0 = x) then 1 else 0) + rank xs i x.
Proof.
  unfold rank. change (take (S (S i)) (x0 :: xs)) with (x0 :: take (S i) xs).
  rewrite filter_cons. case_decide; done.
Qed.

(** Without empty strings nothing is ever reserved, and the [i]-th string,
    when it is not plain, gets the symbol that follows the last one of its
    string: its rank above the base. *)
Lemma choose_all_rank (count : gmap string nat) (prefix : gset string)
    (xs : list string) (st : disambig_state) :
  (∀ x, x ∈ xs → is_Some (count !! x) ∧ x ≠ "") →
  reserved_empty st = ∅ →
  ∃ st' syms,
    choose_all count prefix st xs = Ok (st', syms)
    ∧ length syms = length xs
    ∧ reserved_empty st' = ∅
    ∧ ∀ i x, xs !! i = Some x →
        syms !! i = Some (if decide (plain count prefix x) then None
                          else Some (base st x + rank xs i x)).
Proof.
  revert st. induction xs as [|x0 xs IH]; intros st Hc Hres.
  - exists st, []. split; [done|]. split; [done|]. split; [done|]. intros i x Hi. done.
  - destruct (Hc x0) as [Hc0 Hx0]; [left|].
    assert (Hc' : ∀ x, x ∈ xs → is_Some (count !! x) ∧ x ≠ "")
      by (intros x Hx; apply Hc; by right).
    destruct (decide (plain count prefix x0)) as [Hp|Hp].
    + destruct (IH st Hc' Hres) as (st' & syms & Hall & Hlen & Hres' & Hsyms).
      exists st', (None :: syms). cbn [choose_all].
      rewrite choose_plain by done. cbn [rbind fst snd]. rewrite Hall.
      cbn [rbind fst snd]. split; [done|]. split; [simpl; lia|]. split; [done|].
      intros [|i] x Hi.
      * injection Hi as <-. by rewrite decide_True.
      * etrans; [exact (Hsyms i x Hi)|]. f_equal.
        case_decide as Hpx; [done|]. rewrite rank_S.
        rewrite decide_False; [done|]. by intros ->.
    + pose proof (choose_nonempty count prefix st x0 Hc0 Hp Hx0) as Hch.
      cbv zeta in Hch. rewrite Hres, skip_reserved_empty in Hch.
      set (c := match last_sym st !! x0 with
                | None => first_sym
                | Some s => s + 1
                end) in Hch.
      assert (Hcb : c = base st x0 + 1).
      { unfold c, base. destruct (last_sym st !! x0); done. }
      set (st1 := {| max_disambig := if decide (max_disambig st < c) then c
                                     else max_disambig st;
                     reserved_empty := ∅;
                     last_sym := <[x0 := c]> (last_sym st) |}) in Hch.
      destruct (IH st1 Hc' eq_refl) as (st' & syms & Hall & Hlen & Hres' & Hsyms).
      exists st', (Some c :: syms). cbn [choose_all].
      rewrite Hch. cbn [rbind fst snd]. rewrite Hall.
      cbn [rbind fst snd]. split; [done|]. split; [simpl; lia|]. split; [done|].
      intros [|i] x Hi.
      * injection Hi as <-. rewrite decide_False by done.
        rewrite rank_0, Hcb. done.
      * etrans; [exact (Hsyms i x Hi)|]. f_equal.
        case_decide as Hpx; [done|]. f_equal. rewrite rank_S.
        unfold base at 1. unfold st1. cbn [last_sym].
        destruct (decide (x0 = x)) as [->|Hne].
        -- rewrite lookup_insert_eq. simpl. lia.
        -- rewrite lookup_insert_ne by done. fold (base st x). lia.
Qed.

Lemma skip_reserved_fuel_ge (fuel : nat) (reserved : gset nat) (c : nat) :
  c ≤ skip_reserved_fuel fuel reserved c.
Proof.
  revert c. induction fuel as [|fuel IH]; intros c; [done|].
  cbn [skip_reserved_fuel]. case_decide; [|done].
  specialize (IH (c + 1)). lia.
Qed.

(** One step keeps the reserved symbols below the maximum; the symbol it
    gives is positive, new to the reserved set and at most the new maximum;
    the symbol of an empty string is above the old maximum and reserved from
    then on. *)
Lemma choose_fresh (count : gmap string nat) (prefix : gset string)
    (st st1 : disambig_state) (x : string) (o : option nat) :
  bounded st → choose count prefix st x = Ok (st1, o) →
  bounded st1
  ∧ max_disambig st ≤ max_disambig st1
  ∧ reserved_empty st ⊆ reserved_empty st1
  ∧ (∀ n, o = Some n →
       1 ≤ n ∧ n ≤ max_disambig st1 ∧ (n ∉ reserved_empty st)
       ∧ (x = "" → max_disambig st < n ∧ n ∈ reserved_empty st1)).
Proof.
  intros Hb H.
  apply choose_inv in H
    as [(_ & -> & ->)|[(_ & _ & -> & Hm & Hr & _)|(_ & Hx & c & Hc & -> & Hm & Hr & _)]].
  - split; [done|]. split; [done|]. split; [done|]. intros n Hn. discriminate.
  - split.
    { intros r. rewrite Hr, Hm, elem_of_union, elem_of_singleton.
      intros [->|Hin]; [done|]. apply Hb in Hin. lia. }
    split; [lia|]. split; [rewrite Hr; apply union_subseteq_r|].
    intros n Hn. injection Hn as <-. split; [lia|]. split; [lia|]. split.
    + intros Hin. apply Hb in Hin. lia.
    + intros _. split; [lia|]. rewrite Hr. by apply elem_of_union_l, elem_of_singleton.
  - split.
    { intros r. rewrite Hr, Hm. intros Hin. apply Hb in Hin. case_decide; lia. }
    split; [rewrite Hm; case_decide; lia|]. split; [by rewrite Hr|].
    intros n Hn. injection Hn as <-. split.
    + rewrite Hc. unfold skip_reserved.
      pose proof (skip_reserved_fuel_ge (S (size (reserved_empty st)))
                    (reserved_empty st)
                    (match last_sym st !! x with
                     | None => first_sym
                     | Some s => s + 1
                     end)) as Hge.
      unfold first_sym in *. destruct (last_sym st !! x); lia.
    + split; [rewrite Hm; case_decide; lia|]. split.
      * rewrite Hc. apply skip_reserved_exits.
      * intros ->. done.
Qed.

(** Over the whole loop: the symbol of an empty string is given to no other
    position. *)
Lemma choose_all_fresh (count : gmap string nat) (prefix : gset string)
    (xs : list string) (st st' : disambig_state) (syms : list (option nat)) :
  bounded st → choose_all count prefix st xs = Ok (st', syms) →
  bounded st'
  ∧ max_disambig st ≤ max_disambig st'
  ∧ reserved_empty st ⊆ reserved_empty st'
  ∧ (∀ j n, syms !! j = Some (Some n) →
       1 ≤ n ∧ n ≤ max_disambig st' ∧ (n ∉ reserved_empty st))
  ∧ (∀ j n, xs !! j = Some "" → syms !! j = Some (Some n) →
       max_disambig st < n ∧ n ∈ reserved_empty st')
  ∧ (∀ i j n, i ≠ j → xs !! i = Some "" → syms !! i = Some (Some n) →
       syms !! j ≠ Some (Some n)).
Proof.
  revert st st' syms. induction xs as [|x0 xs IH]; intros st st' syms Hb H.
  - injection H as <- <-. split; [done|]. split; [done|]. split; [done|].
    split; [intros j n Hj; done|]. split; [intros j n Hj; done|].
    intros i j n _ Hi. done.
  - cbn [choose_all] in H.
    destruct (choose count prefix st x0) as [[st1 o]|] eqn:Hch; [|discriminate].
    cbn [rbind fst snd] in H.
    destruct (choose_all count prefix st1 xs) as [[st2 syms']|] eqn:Hall;
      [|discriminate].
    cbn [rbind fst snd] in H. injection H as <- <-.
    destruct (choose_fresh _ _ _ _ _ _ Hb Hch) as (Hb1 & Hm1 & Hr1 & Ho).
    destruct (IH _ _ _ Hb1 Hall) as (Hb2 & Hm2 & Hr2 & Hs & He & Hu).
    split; [done|]. split; [lia|]. split; [by etrans|].
    assert (Hall_s : ∀ j n, (o :: syms') !! j = Some (Some n) →
              1 ≤ n ∧ n ≤ max_disambig st2 ∧ (n ∉ reserved_empty st)).
    { intros [|j] n Hj.
      - injection Hj as ->. destruct (Ho n eq_refl) as (? & ? & ? & _).
        split; [done|]. split; [lia|done].
      - destruct (Hs j n Hj) as (? & ? & Hnr). split; [done|]. split; [done|].
        intros Hin. by apply Hnr, Hr1. }
    assert (Hall_e : ∀ j n, (x0 :: xs) !! j = Some "" →
              (o :: syms') !! j = Some (Some n) →
              max_disambig st < n ∧ n ∈ reserved_empty st2).
    { intros [|j] n Hx Hj.
      - injection Hx as ->. injection Hj as ->.
        destruct (Ho n eq_refl) as (_ & _ & _ & Hemp).
        destruct (Hemp eq_refl). split; [done|]. by apply Hr2.
      - destruct (He j n Hx Hj). split; [lia|done]. }
    split; [done|]. split; [done|].
    intros [|i] [|j] n Hne Hx Hi Hj; [done| | |].
    + injection Hx as ->. injection Hi as ->.
      destruct (Ho n eq_refl) as (_ & _ & _ & Hemp). destruct (Hemp eq_refl).
      destruct (Hs j n Hj) as (_ & _ & Hnr). done.
    + injection Hj as ->. destruct (Ho n eq_refl) as (_ & Hle & _).
      destruct (He i n Hx Hi). lia.
    + apply (Hu i j n); [lia|done|done|done].
Qed.

(** ** [add_disambig] as a whole *)

Lemma add_disambig_choose (lexicon : list entry) :
  add_disambig lexicon
  = (r <- choose_all (count_pass lexicon) (prefix_pass lexicon) disambig_init
            (pron_string <$> lexicon) ;;
     Ok (zip_with with_symbol lexicon r.2, max_disambig r.1 + 1)).
Proof.
  unfold add_disambig. rewrite disambig_loop_choose.
  destruct (choose_all _ _ _ _) as [[st syms]|]; done.
Qed.

Lemma count_pass_is_Some (lexicon : list entry) (x : string) :
  x ∈ pron_string <$> lexicon → is_Some (count_pass lexicon !! x).
Proof.
  intros Hx. apply list_elem_of_fmap in Hx as (e & -> & He).
  rewrite count_pass_lookup. pose proof (occ_pos e lexicon He).
  rewrite decide_False by lia. eauto.
Qed.

Lemma occ_fmap (lexicon : list entry) (x : string) :
  length (filter (fun y => y = x) (pron_string <$> lexicon)) = occ lexicon x.
Proof.
  induction lexicon as [|e rest IH]; [done|].
  rewrite occ_cons, fmap_cons, filter_cons. case_decide; simpl; lia.
Qed.

Lemma rank_fmap (lexicon : list entry) (i : nat) (x : string) :
  rank (pron_string <$> lexicon) i x = occ (take (S i) lexicon) x.
Proof. unfold rank. by rewrite <- fmap_take, occ_fmap. Qed.

Lemma with_symbol_lookup (lexicon : list entry) (syms : list (option nat))
    (i : nat) (e : entry) (o : option nat) :
  lexicon !! i = Some e → syms !! i = Some o →
  zip_with with_symbol lexicon syms !! i = Some (with_symbol e o).
Proof. intros He Ho. rewrite lookup_zip_with, He. simpl. by rewrite Ho. Qed.


Lemma occ_two (lexicon : list entry) (i j : nat) (e1 e2 : entry) (x : string) :
  i < j → lexicon !! i = Some e1 → lexicon !! j = Some e2 →
  pron_string e1 = x → pron_string e2 = x → 2 ≤ occ lexicon x.
Proof.
  revert i j. induction lexicon as [|e rest IH]; intros i j Hij Hi Hj H1 H2;
    [done|].
  destruct j as [|j]; [lia|]. rewrite occ_cons. destruct i as [|i].
  - injection Hi as ->. rewrite decide_True by done.
    assert (He2 : e2 ∈ rest) by (apply list_elem_of_lookup; eauto).
    pose proof (occ_pos e2 rest He2) as Hpos. rewrite H2 in Hpos. lia.
  - assert (2 ≤ occ rest x); [|lia]. apply (IH i j); (done || lia).
Qed.


(** After tagging no pronunciation string is empty or a joined proper
    prefix. *)
Lemma tagged_strings (lexicon tagged : list entry) (e : entry) :
  tag_lexicon lexicon = Ok tagged → e ∈ tagged →
  pron_string e ≠ "" ∧ pron_string e ∉ prefix_pass tagged.
Proof.
  intros Htag He. apply tag_lexicon_inv in Htag.
  assert (Hsrc : ∀ e', e' ∈ tagged → ∃ t, tag_trans t = Ok (e_trans e')).
  { intros e' He'. apply list_elem_of_lookup in He' as [j Hj].
    destruct (Forall2_lookup_r _ _ _ _ _ Htag Hj) as (e0 & _ & _ & _ & H).
    eauto. }
  destruct (Hsrc e He) as [t Ht].
  destruct (tagged_ends_final _ _ Ht) as [Hfin Hne].
  split; [done|]. rewrite prefix_pass_elem.
  intros (e2 & k & He2 & Hk & Heq). destruct (Hsrc e2 He2) as [t2 Ht2].
  apply (ends_final_not_inner (pron_string e)); [done|].
  rewrite Heq. by apply (tagged_prefix_ends_inner t2).
Qed.

(** The run of [add_disambig] on a tagged lexicon: it returns, nothing is
    reserved, and an entry gets a symbol exactly when its string occurs more
    than once, namely the number of entries with this string up to and
    including it. *)
Lemma add_disambig_tagged (lexicon tagged : list entry) :
  tag_lexicon lexicon = Ok tagged →
  ∃ aug m,
    add_disambig tagged = Ok (aug, m)
    ∧ length aug = length tagged
    ∧ ∀ i e, tagged !! i = Some e →
        aug !! i
        = Some (with_symbol e
                  (if decide (plain (count_pass tagged) (prefix_pass tagged)
                                (pron_string e))
                   then None
                   else Some (occ (take (S i) tagged) (pron_string e)))).
Proof.
  intros Htag.
  destruct (choose_all_rank (count_pass tagged) (prefix_pass tagged)
              (pron_string <$> tagged) disambig_init)
    as (st' & syms & Hall & Hlen & _ & Hsyms).
  { intros x Hx. split; [by apply count_pass_is_Some|].
    apply list_elem_of_fmap in Hx as (e & -> & He).
    by destruct (tagged_strings _ _ _ Htag He). }
  { done. }
  exists (zip_with with_symbol tagged syms), (max_disambig st' + 1).
  rewrite add_disambig_choose, Hall. cbn [rbind fst snd]. split; [done|].
  rewrite length_fmap in Hlen.
  split; [rewrite length_zip_with; lia|].
  intros i e Hi. apply with_symbol_lookup; [done|].
  rewrite (Hsyms i (pron_string e)) by (by rewrite list_lookup_fmap, Hi).
  f_equal. case_decide; [done|]. f_equal.
  unfold base, disambig_init. cbn [last_sym]. rewrite lookup_empty. simpl.
  apply rank_fmap.
Qed.






Lemma disambig_name_inj (a b : nat) : disambig_name a = disambig_name b → a = b.
Proof.
  unfold disambig_name. intros H. apply String.app_inj in H.
  by apply (inj pretty) in H.
Qed.

Lemma bounded_init : bounded disambig_init.
Proof. intros r Hr. by apply not_elem_of_empty in Hr. Qed.

(** An empty transcription is left alone only in a lexicon of one entry. *)
Lemma plain_empty (lexicon : list entry) (i : nat) (e : entry) :
  lexicon !! i = Some e → e_trans e = [] →
  plain (count_pass lexicon) (prefix_pass lexicon) "" ↔ length lexicon = 1.
Proof.
  intros Hi Ht. assert (Hx : pron_string e = "") by (unfold pron_string; by rewrite Ht).
  split.
  - intros [Hnp Hc].
    destruct (decide (length lexicon = 1)) as [|Hlen]; [done|]. exfalso.
    pose proof (lookup_lt_Some _ _ _ Hi) as Hilt.
    set (j := if decide (i = 0) then 1 else 0).
    assert (Hj : j ≠ i ∧ j < length lexicon) by (unfold j; case_decide; lia).
    destruct (lookup_lt_is_Some_2 lexicon j) as [e2 He2]; [lia|].
    destruct (decide (e_trans e2 = [])) as [Ht2|Ht2].
    + assert (2 ≤ occ lexicon "").
      { assert (Hx2 : pron_string e2 = "") by (unfold pron_string; by rewrite Ht2).
        destruct (decide (i < j)).
        - by apply (occ_two lexicon i j e e2).
        - apply (occ_two lexicon j i e2 e); (done || lia). }
      rewrite count_pass_lookup in Hc. case_decide; [done|].
      injection Hc as Hc. lia.
    + apply Hnp. apply prefix_pass_elem. exists e2, 0.
      split; [apply list_elem_of_lookup; eauto|].
      split; [destruct (e_trans e2); [done|simpl; lia]|by rewrite take_0].
  - intros Hlen. destruct lexicon as [|e0 [|? ?]]; [done| |done].
    destruct i; [|done]. injection Hi as ->. split.
    + rewrite prefix_pass_elem. intros (e' & k & He' & Hk & _).
      apply list_elem_of_singleton in He' as ->. rewrite Ht in Hk. simpl in Hk. lia.
    + rewrite count_pass_lookup, occ_cons, occ_nil.
      rewrite (decide_True (P := pron_string e = "")) by done.
      by rewrite decide_False by lia.
Qed.

(** ** [prepare_lexicon] as a whole *)

Lemma half_in_range : (0 < 1 / 2 < 1)%R.
Proof. lra. Qed.

(** [write_tables] with its call of the emitter replaced by what the emitter
    writes. *)
Lemma write_tables_eq (aug : list entry) (m : nat)
    (silence_phones nonsilence_phones : list string) (optional_silence : string) :
  write_tables aug m silence_phones nonsilence_phones optional_silence
  = (ds <- disambig_ints (build_phone_map silence_phones nonsilence_phones m).1 m ;;
     Ok {| isyms := (build_phone_map silence_phones nonsilence_phones m).1;
           osyms := build_words_map aug;
           fst_text := graph_lines aug (1 / 2) optional_silence None ++ [Final 1 0];
           phones_txt := (build_phone_map silence_phones nonsilence_phones m).1;
           disambig_int := ds;
           words_txt := build_words_map aug;
           word_boundary_int := word_boundary_lines silence_phones nonsilence_phones;
           printed := [] |}).
Proof.
  unfold write_tables.
  destruct (disambig_ints _ _) as [ds|]; [|done]. cbn [rbind].
  rewrite (write_fst_with_silence_plain aug (1 / 2) optional_silence None None
             no_output half_in_range).
  cbn [rbind fst snd file stdout write_to no_output app]. done.
Qed.

(** [prepare_lexicon] with its call of the emitter replaced by what the
    emitter writes. *)
Lemma prepare_lexicon_eq (lexicon : list entry)
    (silence_phones nonsilence_phones : list string)
    (optional_silence oov : string) :
  prepare_lexicon lexicon silence_phones nonsilence_phones optional_silence oov
  = (_ <- check_phones lexicon silence_phones nonsilence_phones ;;
     tagged <- tag_lexicon lexicon ;;
     r <- add_disambig tagged ;;
     ds <- disambig_ints (build_phone_map silence_phones nonsilence_phones r.2).1 r.2 ;;
     Ok {| isyms := (build_phone_map silence_phones nonsilence_phones r.2).1;
           osyms := build_words_map r.1;
           fst_text := graph_lines r.1 (1 / 2) optional_silence None ++ [Final 1 0];
           phones_txt := (build_phone_map silence_phones nonsilence_phones r.2).1;
           disambig_int := ds;
           words_txt := build_words_map r.1;
           word_boundary_int := word_boundary_lines silence_phones nonsilence_phones;
           printed := [] |}).
Proof.
  unfold prepare_lexicon.
  destruct (check_phones _ _ _); [|done]. cbn [rbind].
  destruct (tag_lexicon lexicon) as [tagged|]; [|done]. cbn [rbind].
  destruct (add_disambig tagged) as [[aug m]|]; [|done]. cbn [rbind fst snd].
  apply write_tables_eq.
Qed.

(** ** The symbol registry *)

Lemma dict_set_fresh {V : Type} (d : list (string * V)) (k : string) (v : V) :
  k ∉ d.*1 → dict_set d k v = d ++ [(k, v)].
Proof.
  induction d as [|[k' v'] d IH]; intros Hk; [done|].
  cbn [dict_set]. rewrite fmap_cons, not_elem_of_cons in Hk. destruct Hk as [Hne Hk].
  rewrite decide_False by done. by rewrite IH.
Qed.

(** Assigning names that are new and pairwise distinct appends them with
    consecutive ids. *)
Lemma foldl_assign_fresh (names : list string) (d : list (string * nat)) (c : nat) :
  NoDup (d.*1 ++ names) →
  foldl assign (d, c) names
  = (d ++ zip names (seq c (length names)), c + length names).
Proof.
  revert d c. induction names as [|k names IH]; intros d c Hnd.
  - simpl. by rewrite app_nil_r, Nat.add_0_r.
  - cbn [foldl]. unfold assign at 2. cbn [fst snd].
    assert (Hk : k ∉ d.*1).
    { apply NoDup_app in Hnd as (_ & Hdis & _). intros Hin.
      apply (Hdis k Hin). left. }
    rewrite dict_set_fresh by done. rewrite IH.
    + cbn [length seq zip zip_with]. rewrite <- app_assoc.
      replace (c + 1) with (S c) by lia. f_equal. lia.
    + rewrite fmap_app. cbn [fmap list_fmap fst]. by rewrite <- app_assoc.
Qed.

Lemma foldl_assign_bind {A : Type} (f : A → list string) (l : list A)
    (st : list (string * nat) * nat) :
  foldl (fun st a => foldl assign st (f a)) st l = foldl assign st (l ≫= f).
Proof.
  revert st. induction l as [|a l IH]; intros st; [done|].
  cbn [foldl]. rewrite IH. change ((a :: l) ≫= f) with (f a ++ (l ≫= f)).
  by rewrite foldl_app.
Qed.

Lemma build_phone_map_foldl (silence_phones nonsilence_phones : list string)
    (max_disambig : nat) :
  build_phone_map silence_phones nonsilence_phones max_disambig
  = foldl assign ([], 0) (phone_names silence_phones nonsilence_phones max_disambig).
Proof.
  unfold build_phone_map, phone_names, range.
  replace (Z.to_nat (Z.of_nat max_disambig + 1)) with (max_disambig + 1) by lia.
  cbn [foldl]. rewrite !foldl_app, foldl_fmap.
  rewrite <- !(foldl_assign_bind _ _ (assign ([], 0) eps)).
  rewrite <- (foldl_assign_bind _ nonsilence_phones). done.
Qed.

Lemma build_words_map_foldl (lexicon : list entry) :
  build_words_map lexicon
  = (foldl assign ([], 0)
       (word_names (sorted (foldl (fun wordlist e => {[ e_word e ]} ∪ wordlist)
                              ∅ lexicon)))).1.
Proof.
  unfold build_words_map, word_names. cbn [foldl]. rewrite foldl_app. done.
Qed.

Lemma numbered_fresh (names : list string) :
  NoDup names → (foldl assign ([], 0) names).1 = numbered names.
Proof. intros Hnd. by rewrite foldl_assign_fresh. Qed.

(** ** The order of [sorted] *)

Lemma str_le_iff (a b : string) :
  str_le a b ↔ a = b ∨ OrdersEx.String_as_OT.lt a b.
Proof.
  unfold str_le, String.leb, OrdersEx.String_as_OT.lt.
  change (String.compare a b) with (OrdersEx.String_as_OT.compare a b).
  destruct (OrdersEx.String_as_OT.compare_spec a b) as [Heq|Hlt|Hgt].
  - split; [by left|done].
  - split; [by right|done].
  - split; [done|]. intros [->|Hlt].
    + by apply (irreflexivity OrdersEx.String_as_OT.lt) in Hgt.
    + exfalso. apply (irreflexivity OrdersEx.String_as_OT.lt b). by etrans.
Qed.

#[global] Instance str_le_trans : Transitive str_le.
Proof.
  intros a b c. rewrite !str_le_iff. intros [->|Hab] [->|Hbc]; auto.
  right. by etrans.
Qed.

#[global] Instance str_le_total : Total str_le.
Proof. intros a b. apply String.leb_total. Qed.

Lemma wordlist_elem (lexicon : list entry) (wordlist : gset string) (w : string) :
  w ∈ foldl (fun wordlist e => {[ e_word e ]} ∪ wordlist) wordlist lexicon
  ↔ w ∈ wordlist ∨ ∃ e, e ∈ lexicon ∧ e_word e = w.
Proof.
  revert wordlist. induction lexicon as [|e rest IH]; intros wordlist.
  - simpl. split; [auto|]. intros [H|(e & He & _)]; [done|].
    by apply elem_of_nil in He.
  - cbn [foldl]. rewrite IH, elem_of_union, elem_of_singleton. split.
    + intros [[->|H]|(e' & He' & <-)].
      * right. exists e. split; [left|done].
      * by left.
      * right. exists e'. split; [by right|done].
    + intros [H|(e' & He' & <-)]; [by left; right|].
      apply elem_of_cons in He' as [->|He']; [by left; left|].
      right. by exists e'.
Qed.

(** [sorted] returns the words of the set, each once, in order. *)
Lemma sorted_spec (wordlist : gset string) :
  StronglySorted str_le (sorted wordlist)
  ∧ NoDup (sorted wordlist)
  ∧ ∀ w, w ∈ sorted wordlist ↔ w ∈ wordlist.
Proof.
  unfold sorted. split; [apply StronglySorted_merge_sort; apply _|].
  split.
  - rewrite merge_sort_Permutation. apply NoDup_elements.
  - intros w. rewrite merge_sort_Permutation. apply elem_of_elements.
Qed.

Lemma choose_all_length (count : gmap string nat) (prefix : gset string)
    (xs : list string) (st st' : disambig_state) (syms : list (option nat)) :
  choose_all count prefix st xs = Ok (st', syms) → length syms = length xs.
Proof.
  revert st st' syms. induction xs as [|x xs IH]; intros st st' syms H.
  - by injection H as <- <-.
  - cbn [choose_all] in H.
    destruct (choose count prefix st x) as [[st1 o]|]; [|discriminate].
    cbn [rbind fst snd] in H.
    destruct (choose_all count prefix st1 xs) as [[st2 syms']|] eqn:Hall;
      [|discriminate].
    cbn [rbind fst snd] in H. injection H as <- <-. simpl. f_equal.
    by eapply IH.
Qed.

Lemma e_word_with_symbol (e : entry) (o : option nat) :
  e_word (with_symbol e o) = e_word e.
Proof. by destruct o. Qed.

(** Neither tagging nor the disambiguation pass touches the words. *)
Lemma tag_lexicon_words (lexicon tagged : list entry) :
  tag_lexicon lexicon = Ok tagged → e_word <$> tagged = e_word <$> lexicon.
Proof.
  intros H. apply tag_lexicon_inv in H.
  induction H as [|e e' l l' (Hw & _) _ IH]; [done|].
  rewrite !fmap_cons. by f_equal.
Qed.

Lemma add_disambig_words (tagged aug : list entry) (m : nat) :
  add_disambig tagged = Ok (aug, m) → e_word <$> aug = e_word <$> tagged.
Proof.
  rewrite add_disambig_choose.
  destruct (choose_all _ _ _ _) as [[st' syms]|] eqn:Hall; [|discriminate].
  cbn [rbind fst snd]. intros H. injection H as <- <-.
  apply choose_all_length in Hall. rewrite length_fmap in Hall.
  clear -Hall. revert syms Hall.
  induction tagged as [|e rest IH]; intros [|o syms] Hlen; try done.
  cbn [zip_with]. rewrite !fmap_cons, e_word_with_symbol. f_equal.
  apply IH. simpl in Hlen. lia.
Qed.

Lemma prepare_lexicon_inv (lexicon : list entry)
    (silence_phones nonsilence_phones : list string)
    (optional_silence oov : string) (r : prepared) :
  prepare_lexicon lexicon silence_phones nonsilence_phones optional_silence oov
    = Ok r →
  ∃ tagged aug m,
    tag_lexicon lexicon = Ok tagged
    ∧ add_disambig tagged = Ok (aug, m)
    ∧ isyms r = (build_phone_map silence_phones nonsilence_phones m).1
    ∧ phones_txt r = isyms r
    ∧ osyms r = build_words_map aug
    ∧ words_txt r = osyms r
    ∧ fst_text r = graph_lines aug (1 / 2) optional_silence None ++ [Final 1 0].
Proof.
  rewrite prepare_lexicon_eq.
  destruct (check_phones _ _ _); [|discriminate]. cbn [rbind].
  destruct (tag_lexicon lexicon) as [tagged|] eqn:Htag; [|discriminate].
  cbn [rbind].
  destruct (add_disambig tagged) as [[aug m]|] eqn:Hdis; [|discriminate].
  cbn [rbind fst snd].
  destruct (disambig_ints _ _) as [ds|]; [|discriminate]. cbn [rbind].
  intros H. injection H as <-. exists tagged, aug, m. done.
Qed.

(** The run on the lexicon of two words with the pronunciation [x]. *)
Lemma prepare_lexicon_two_words :
  prepare_lexicon [("a", 0%R, ["x"]); ("b", 0%R, ["x"])] ["sil"] ["x"]
    "sil" "<unk>"
  = Ok {| isyms := [("<eps>", 0); ("sil", 1); ("sil_B", 2); ("sil_E", 3);
                    ("sil_S", 4); ("sil_I", 5); ("x_B", 6); ("x_E", 7);
                    ("x_S", 8); ("x_I", 9); ("#0", 10); ("#1", 11);
                    ("#2", 12); ("#3", 13)];
          osyms := [("<eps>", 0); ("a", 1); ("b", 2); ("#0", 3); ("<s>", 4);
                    ("</s>", 5)];
          fst_text := [Arc 0 1 "<eps>" "<eps>" (- ln (1 - 1 / 2));
                       Arc 0 2 "<eps>" "<eps>" (- ln (1 / 2));
                       Arc 2 1 "sil" "<eps>" 0;
                       Arc 1 3 "x_S" "a" 0;
                       Arc 3 1 "#1" "<eps>" (- ln (1 - 1 / 2) + 0);
                       Arc 3 2 "#1" "<eps>" (- ln (1 / 2) + 0);
                       Arc 1 4 "x_S" "b" 0;
                       Arc 4 1 "#2" "<eps>" (- ln (1 - 1 / 2) + 0);
                       Arc 4 2 "#2" "<eps>" (- ln (1 / 2) + 0);
                       Final 1 0];
          phones_txt := [("<eps>", 0); ("sil", 1); ("sil_B", 2); ("sil_E", 3);
                         ("sil_S", 4); ("sil_I", 5); ("x_B", 6); ("x_E", 7);
                         ("x_S", 8); ("x_I", 9); ("#0", 10); ("#1", 11);
                         ("#2", 12); ("#3", 13)];
          disambig_int := [10; 11; 12; 13];
          words_txt := [("<eps>", 0); ("a", 1); ("b", 2); ("#0", 3);
                        ("<s>", 4); ("</s>", 5)];
          word_boundary_int := [(1, "nonword"); (2, "begin"); (3, "end");
                                (4, "singleton"); (5, "internal");
                                (6, "begin"); (7, "end"); (8, "singleton");
                                (9, "internal")];
          printed := [] |}.
Proof. rewrite prepare_lexicon_eq. reflexivity. Qed.

(** C6 (amended): when [prepare_lexicon] returns, and the names given to the
    phone table are pairwise distinct, the table numbers them from 0 in the
    order: epsilon; per silence phone its plain, [_B], [_E], [_S], [_I]
    forms; per non-silence phone its [_B], [_E], [_S], [_I] forms; [#0] to
    [#m], [m] being [max_disambig] after its increment.  When the names of
    the word table are pairwise distinct it numbers from 0: epsilon, the
    distinct words of the lexicon in sorted order, [#0], [<s>], [</s>]. *)
Theorem registry_ids_are_contiguous (lexicon : list entry)
    (silence_phones nonsilence_phones : list string)
    (optional_silence oov : string) (r : prepared) :
  prepare_lexicon lexicon silence_phones nonsilence_phones optional_silence oov
    = Ok r →
  let words := sorted (list_to_set (e_word <$> lexicon)) in
  StronglySorted str_le words
  ∧ NoDup words
  ∧ (∀ w, w ∈ words ↔ ∃ e, e ∈ lexicon ∧ e_word e = w)
  ∧ (NoDup (word_names words) → osyms r = numbered (word_names words))
  ∧ ∃ tagged aug m,
      tag_lexicon lexicon = Ok tagged
      ∧ add_disambig tagged = Ok (aug, m)
      ∧ (NoDup (phone_names silence_phones nonsilence_phones m) →
         isyms r = numbered (phone_names silence_phones nonsilence_phones m)).
Proof.
  intros H words.
  apply prepare_lexicon_inv in H
    as (tagged & aug & m & Htag & Hdis & Hi & _ & Ho & _).
  destruct (sorted_spec (list_to_set (e_word <$> lexicon)))
    as (Hsorted & Hnd & Helem).
  split; [done|]. split; [done|]. split.
  { intros w. unfold words. rewrite Helem, elem_of_list_to_set, list_elem_of_fmap.
    split; intros (e & Hw & He); eauto. }
  split.
  - intros Hnames. rewrite Ho, build_words_map_foldl.
    assert (Hset : foldl (fun wordlist e => {[ e_word e ]} ∪ wordlist) ∅ aug
                   = (list_to_set (e_word <$> lexicon) : gset string)).
    { apply set_eq. intros w.
      rewrite wordlist_elem, elem_of_list_to_set.
      rewrite <- (tag_lexicon_words _ _ Htag), <- (add_disambig_words _ _ _ Hdis).
      rewrite list_elem_of_fmap. split.
      - intros [Hin|(e & He & <-)]; [by apply not_elem_of_empty in Hin|eauto].
      - intros (e & -> & He). eauto. }
    rewrite Hset. by apply numbered_fresh.
  - exists tagged, aug, m. split; [done|]. split; [done|].
    intros Hnames. rewrite Hi, build_phone_map_foldl. by apply numbered_fresh.
Qed.

Lemma registry_ids_are_contiguous_witness :
  numbered (word_names (sorted (list_to_set (e_word <$>
      [("a", 0%R, ["x"]); ("b", 0%R, ["x"])]))))
  = [("<eps>", 0); ("a", 1); ("b", 2); ("#0", 3); ("<s>", 4); ("</s>", 5)]
  ∧ numbered (phone_names ["sil"] ["x"] 3)
    = [("<eps>", 0); ("sil", 1); ("sil_B", 2); ("sil_E", 3); ("sil_S", 4);
       ("sil_I", 5); ("x_B", 6); ("x_E", 7); ("x_S", 8); ("x_I", 9);
       ("#0", 10); ("#1", 11); ("#2", 12); ("#3", 13)].
Proof.
  destruct (registry_ids_are_contiguous _ _ _ _ _ _ prepare_lexicon_two_words)
    as (_ & _ & _ & Hwords & tagged & aug & m & Htag & Hdis & Hphones).
  vm_compute in Htag. injection Htag as <-.
  vm_compute in Hdis. injection Hdis as <- <-.
  split.
  - rewrite <- Hwords; [reflexivity|].
    apply (bool_decide_unpack _). vm_compute. reflexivity.
  - rewrite <- Hphones; [reflexivity|].
    apply (bool_decide_unpack _). vm_compute. reflexivity.
Defined.

(** C6, as stated, fails when two names coincide: with the silence phones
    [a] and [a_B] the plain form of the second overwrites the [_B] form of
    the first, which ends up with id 6, and no symbol has id 2. *)
Lemma registry_collision_counterexample :
  ∃ r,
    prepare_lexicon [] ["a"; "a_B"] [] "a" "<unk>" = Ok r
    ∧ isyms r = [("<eps>", 0); ("a", 1); ("a_B", 6); ("a_E", 3); ("a_S", 4);
                 ("a_I", 5); ("a_B_B", 7); ("a_B_E", 8); ("a_B_S", 9);
                 ("a_B_I", 10); ("#0", 11); ("#1", 12)]
    ∧ 2 ∉ (isyms r).*2.
Proof.
  eexists. split; [rewrite prepare_lexicon_eq; reflexivity|].
  split; [reflexivity|]. cbn [isyms]. apply (bool_decide_unpack _). reflexivity.
Qed.

(** C1: [prepare_lexicon] on two words with the pronunciation [x].  The
    incremented maximum, which the code stores as [sil_disambig], is 3, and
    [#3] is in the phone table (id 13) and in [disambig.int]; but the
    emitter is called with [None] for the silence symbol, so the text has
    the single arc from the silence state 2 to the loop state 1 with the
    silence phone: state 3 is the first chain state of the first word, not an
    intermediate silence state, and no arc carries [#3]. *)
Theorem silence_symbol_is_computed_but_not_emitted :
  ∃ r,
    prepare_lexicon [("a", 0%R, ["x"]); ("b", 0%R, ["x"])] ["sil"] ["x"]
      "sil" "<unk>" = Ok r
    ∧ add_disambig [("a", 0%R, ["x_S"]); ("b", 0%R, ["x_S"])]
      = Ok ([("a", 0%R, ["x_S"; "#1"]); ("b", 0%R, ["x_S"; "#2"])], 3)
    ∧ ("#3", 13) ∈ isyms r
    ∧ disambig_int r = [10; 11; 12; 13]
    ∧ fst_text r = [Arc 0 1 "<eps>" "<eps>" (- ln (1 - 1 / 2));
                    Arc 0 2 "<eps>" "<eps>" (- ln (1 / 2));
                    Arc 2 1 "sil" "<eps>" 0;
                    Arc 1 3 "x_S" "a" 0;
                    Arc 3 1 "#1" "<eps>" (- ln (1 - 1 / 2) + 0);
                    Arc 3 2 "#1" "<eps>" (- ln (1 / 2) + 0);
                    Arc 1 4 "x_S" "b" 0;
                    Arc 4 1 "#2" "<eps>" (- ln (1 - 1 / 2) + 0);
                    Arc 4 2 "#2" "<eps>" (- ln (1 / 2) + 0);
                    Final 1 0]
    ∧ ∀ src dest word cost, Arc src dest "#3" word cost ∉ fst_text r.
Proof.
  eexists. split; [exact prepare_lexicon_two_words|].
  split; [reflexivity|]. cbn [isyms disambig_int fst_text].
  split; [apply (bool_decide_unpack _); reflexivity|].
  split; [reflexivity|]. split; [reflexivity|].
  intros src dest word cost Hin.
  repeat (apply elem_of_cons in Hin as [Hin|Hin]; [discriminate Hin|]).
  by apply elem_of_nil in Hin.
Qed.

(** ** The object store *)

Lemma keeps_refl (h : gmap loc pyobj) : keeps h h.
Proof. by intros l _. Qed.

Lemma keeps_trans (h1 h2 h3 : gmap loc pyobj) :
  keeps h1 h2 → keeps h2 h3 → keeps h1 h3.
Proof.
  intros H12 H23 l Hl. rewrite H23, H12; [done|done|]. by rewrite H12.
Qed.

Lemma alloc_new (h : gmap loc pyobj) (o : pyobj) : h !! (alloc h o).2 = None.
Proof. unfold alloc. simpl. apply not_elem_of_dom, is_fresh. Qed.

Lemma alloc_keeps (h : gmap loc pyobj) (o : pyobj) : keeps h (alloc h o).1.
Proof.
  intros l Hl. unfold alloc. simpl. apply lookup_insert_ne.
  intros <-. pose proof (alloc_new h o) as Hnew. unfold alloc in Hnew.
  simpl in Hnew. rewrite Hnew in Hl. by destruct Hl.
Qed.

(** Writing to a location outside [h] keeps [h]. *)
Lemma insert_keeps (h0 h : gmap loc pyobj) (l : loc) (o : pyobj) :
  keeps h0 h → h0 !! l = None → keeps h0 (<[l := o]> h).
Proof.
  intros Hk Hl l' Hl'. rewrite lookup_insert_ne; [by apply Hk|].
  intros ->. rewrite Hl in Hl'. by destruct Hl'.
Qed.

(** The deep copy keeps the caller's store, and the lists of the copied
    entries are all new. *)
Lemma deepcopy_entries_new (h0 : gmap loc pyobj) (es : list (string * R * loc))
    (h : gmap loc pyobj) (memo : gmap loc loc) :
  keeps h0 h →
  (∀ k v, memo !! k = Some v → h0 !! v = None) →
  keeps h0 (deepcopy_entries h memo es).1
  ∧ ∀ es', (deepcopy_entries h memo es).2 = Ok es' →
           ∀ e, e ∈ es' → h0 !! e.2 = None.
Proof.
  revert h memo. induction es as [|[[w p] tl] rest IH]; intros h memo Hk Hmemo.
  - simpl. split; [done|]. intros es' H. injection H as <-. intros e He.
    by apply elem_of_nil in He.
  - cbn [deepcopy_entries]. destruct (memo !! tl) as [tl'|] eqn:Hm.
    + destruct (IH h memo Hk Hmemo) as [Hk' Hnew]. cbn [fst snd].
      split; [done|]. intros es' H.
      destruct (deepcopy_entries h memo rest).2 as [rest'|]; [|discriminate].
      cbn [rbind] in H. injection H as <-. intros e He.
      apply elem_of_cons in He as [->|He]; [by eapply Hmemo|by eapply Hnew].
    + destruct (read_list h tl) as [t|] eqn:Ht; [|by split].
      cbn [fst snd].
      assert (Hfresh : h0 !! (alloc h (PList t)).2 = None).
      { destruct (h0 !! (alloc h (PList t)).2) as [o|] eqn:Ho; [|done].
        rewrite <- Hk in Ho by eauto. by rewrite alloc_new in Ho. }
      destruct (IH (alloc h (PList t)).1 (<[tl := (alloc h (PList t)).2]> memo))
        as [Hk' Hnew].
      { eapply keeps_trans; [done|apply alloc_keeps]. }
      { intros k v Hkv. apply lookup_insert_Some in Hkv as [[_ <-]|[_ Hkv]];
          [done|by eapply Hmemo]. }
      split; [done|]. intros es' H.
      destruct (deepcopy_entries _ _ rest).2 as [rest'|]; [|discriminate].
      cbn [rbind] in H. injection H as <-. intros e He.
      apply elem_of_cons in He as [->|He]; [done|by eapply Hnew].
Qed.

Lemma deepcopy_new (h : gmap loc pyobj) (l : loc) :
  keeps h (deepcopy h l).1
  ∧ ∀ l' es', (deepcopy h l).2 = Ok l' →
              read_entries (deepcopy h l).1 l' = Ok es' →
              ∀ e, e ∈ es' → h !! e.2 = None.
Proof.
  unfold deepcopy. destruct (read_entries h l) as [es|] eqn:Hes.
  - destruct (deepcopy_entries_new h es h ∅ (keeps_refl h)) as [Hk Hnew].
    { intros k v Hkv. by rewrite lookup_empty in Hkv. }
    destruct (deepcopy_entries h ∅ es).2 as [es1|] eqn:Hr; [|by split].
    cbn [fst snd]. split.
    + eapply keeps_trans; [done|apply alloc_keeps].
    + intros l' es' Hl' Hread. injection Hl' as <-.
      unfold read_entries, alloc in Hread. cbn [fst snd] in Hread.
      rewrite lookup_insert_eq in Hread. injection Hread as <-.
      by apply Hnew.
  - split; [apply keeps_refl|]. intros l' es' Hl'. discriminate.
Qed.

(** The two loops that update lists write to the lists of their entries
    only. *)
Lemma tag_heap_keeps (h0 : gmap loc pyobj) (es : list (string * R * loc))
    (h : gmap loc pyobj) :
  keeps h0 h → (∀ e, e ∈ es → h0 !! e.2 = None) →
  keeps h0 (tag_heap h es).1.
Proof.
  revert h. induction es as [|[[w p] tl] rest IH]; intros h Hk Hnew; [done|].
  cbn [tag_heap]. destruct (read_list h tl) as [t|]; [|done].
  destruct (tag_trans t) as [t'|]; [|done].
  apply IH.
  - apply insert_keeps; [done|]. apply (Hnew (w, p, tl)). left.
  - intros e He. apply Hnew. by right.
Qed.

Lemma disambig_heap_keeps (count : gmap string nat) (prefix : gset string)
    (h0 : gmap loc pyobj) (es : list (string * R * loc))
    (st : disambig_state) (h : gmap loc pyobj) :
  keeps h0 h → (∀ e, e ∈ es → h0 !! e.2 = None) →
  keeps h0 (disambig_heap count prefix st h es).1.
Proof.
  revert st h. induction es as [|[[w p] tl] rest IH]; intros st h Hk Hnew; [done|].
  cbn [disambig_heap]. destruct (read_list h tl) as [t|]; [|done].
  destruct (disambig_entry count prefix st (w, p, t)) as [r|]; [|done].
  apply IH.
  - apply insert_keeps; [done|]. apply (Hnew (w, p, tl)). left.
  - intros e He. apply Hnew. by right.
Qed.

(** Whatever it returns or raises, [prepare_lexicon] leaves the objects of
    the caller as they were. *)
Lemma prepare_lexicon_heap_keeps (h : gmap loc pyobj) (lexicon : loc)
    (silence_phones nonsilence_phones : list string)
    (optional_silence oov : string) :
  keeps h (prepare_lexicon_heap h lexicon silence_phones nonsilence_phones
             optional_silence oov).1.
Proof.
  unfold prepare_lexicon_heap, reading.
  destruct (read_lexicon h lexicon) as [values|]; [|apply keeps_refl].
  destruct (check_phones _ _ _); [|apply keeps_refl].
  destruct (deepcopy_new h lexicon) as [Hk Hnew].
  destruct (deepcopy h lexicon).2 as [copy|] eqn:Hcopy; [|done].
  destruct (read_entries (deepcopy h lexicon).1 copy) as [es|] eqn:Hes; [|done].
  assert (Hes_new : ∀ e, e ∈ es → h !! e.2 = None) by (by eapply Hnew).
  pose proof (tag_heap_keeps h es _ Hk Hes_new) as Hk1.
  destruct (tag_heap (deepcopy h lexicon).1 es).2; [|done].
  destruct (read_values _ es) as [tagged|]; [|done].
  pose proof (disambig_heap_keeps (count_pass tagged) (prefix_pass tagged)
                h es disambig_init _ Hk1 Hes_new) as Hk2.
  destruct (disambig_heap _ _ _ _ es).2 as [st|]; [|done].
  destruct (read_values _ es) as [aug|]; done.
Qed.

Lemma read_values_keeps (h h' : gmap loc pyobj) (es : list (string * R * loc))
    (values : list entry) :
  keeps h h' → read_values h es = Ok values → read_values h' es = Ok values.
Proof.
  intros Hk. revert values. induction es as [|[[w p] tl] rest IH]; intros values H;
    [done|].
  cbn [read_values] in *. unfold read_list in *.
  destruct (h !! tl) as [[t|]|] eqn:Htl; try discriminate.
  rewrite Hk, Htl by eauto. cbn [rbind] in *.
  destruct (read_values h rest) as [rest'|]; [|discriminate].
  by rewrite (IH rest' eq_refl).
Qed.

(** ** The store model against the value model *)

Lemma read_values_insert_ne (h : gmap loc pyobj) (es : list (string * R * loc))
    (l : loc) (o : pyobj) :
  l ∉ es.*2 → read_values (<[l := o]> h) es = read_values h es.
Proof.
  induction es as [|[[w p] tl] rest IH]; intros Hl; [done|].
  rewrite fmap_cons, not_elem_of_cons in Hl. destruct Hl as [Hne Hl].
  cbn [read_values]. unfold read_list. cbn [snd] in Hne.
  rewrite lookup_insert_ne by done. by rewrite IH.
Qed.

Lemma tag_heap_other (h : gmap loc pyobj) (es : list (string * R * loc)) (l : loc) :
  l ∉ es.*2 → (tag_heap h es).1 !! l = h !! l.
Proof.
  revert h. induction es as [|[[w p] tl] rest IH]; intros h Hl; [done|].
  rewrite fmap_cons, not_elem_of_cons in Hl. destruct Hl as [Hne Hl].
  cbn [tag_heap]. destruct (read_list h tl) as [t|]; [|done].
  destruct (tag_trans t) as [t'|]; [|done].
  rewrite IH by done. by apply lookup_insert_ne.
Qed.

Lemma disambig_heap_other (count : gmap string nat) (prefix : gset string)
    (es : list (string * R * loc)) (st : disambig_state) (h : gmap loc pyobj)
    (l : loc) :
  l ∉ es.*2 → (disambig_heap count prefix st h es).1 !! l = h !! l.
Proof.
  revert st h. induction es as [|[[w p] tl] rest IH]; intros st h Hl; [done|].
  rewrite fmap_cons, not_elem_of_cons in Hl. destruct Hl as [Hne Hl].
  cbn [disambig_heap]. destruct (read_list h tl) as [t|]; [|done].
  destruct (disambig_entry count prefix st (w, p, t)) as [r|]; [|done].
  rewrite IH by done. by apply lookup_insert_ne.
Qed.

Lemma read_values_cons_inv (h : gmap loc pyobj) (w : string) (p : R) (tl : loc)
    (rest : list (string * R * loc)) (values : list entry) :
  read_values h ((w, p, tl) :: rest) = Ok values →
  ∃ t vrest, h !! tl = Some (PList t) ∧ read_values h rest = Ok vrest
             ∧ values = (w, p, t) :: vrest.
Proof.
  cbn [read_values]. unfold read_list.
  destruct (h !! tl) as [[t|]|]; try discriminate. cbn [rbind].
  destruct (read_values h rest) as [vrest|]; [|discriminate]. cbn [rbind].
  intros H. injection H as <-. eauto.
Qed.

(** On lists that are pairwise distinct objects the in-place tagging loop
    does what [tag_lexicon] does on the values. *)
Lemma tag_heap_values (es : list (string * R * loc)) (h : gmap loc pyobj)
    (values : list entry) :
  read_values h es = Ok values → NoDup es.*2 →
  match tag_lexicon values with
  | Ok tagged =>
      (tag_heap h es).2 = Ok ()
      ∧ read_values (tag_heap h es).1 es = Ok tagged
  | Raise e => (tag_heap h es).2 = Raise e
  end.
Proof.
  revert h values. induction es as [|[[w p] tl] rest IH]; intros h values Hread Hnd.
  - injection Hread as <-. done.
  - apply read_values_cons_inv in Hread as (t & vrest & Htl & Hrest & ->).
    rewrite fmap_cons in Hnd. apply NoDup_cons in Hnd as [Hnotin Hnd].
    cbn [snd] in Hnotin.
    assert (Hstep : tag_heap h ((w, p, tl) :: rest)
                    = match tag_trans t with
                      | Ok t' => tag_heap (<[tl := PList t']> h) rest
                      | Raise e => (h, Raise e)
                      end)
      by (cbn [tag_heap]; unfold read_list; by rewrite Htl).
    rewrite Hstep. clear Hstep. cbn [tag_lexicon tag_entry].
    destruct (tag_trans t) as [t'|] eqn:Ht; [|done]. cbn [rbind].
    specialize (IH (<[tl := PList t']> h) vrest).
    rewrite read_values_insert_ne in IH by done. specialize (IH Hrest Hnd).
    destruct (tag_lexicon vrest) as [trest|]; [|done]. cbn [rbind].
    destruct IH as [Hok Hval]. split; [done|].
    cbn [read_values]. unfold read_list.
    rewrite tag_heap_other, lookup_insert_eq by done. cbn [rbind].
    by rewrite Hval.
Qed.

(** Likewise for the third loop and [disambig_loop]. *)
Lemma disambig_heap_values (count : gmap string nat) (prefix : gset string)
    (es : list (string * R * loc)) (st : disambig_state) (h : gmap loc pyobj)
    (values : list entry) :
  read_values h es = Ok values → NoDup es.*2 →
  match disambig_loop count prefix st values with
  | Ok r =>
      (disambig_heap count prefix st h es).2 = Ok r.1
      ∧ read_values (disambig_heap count prefix st h es).1 es = Ok r.2
  | Raise e => (disambig_heap count prefix st h es).2 = Raise e
  end.
Proof.
  revert st h values.
  induction es as [|[[w p] tl] rest IH]; intros st h values Hread Hnd.
  - injection Hread as <-. done.
  - apply read_values_cons_inv in Hread as (t & vrest & Htl & Hrest & ->).
    rewrite fmap_cons in Hnd. apply NoDup_cons in Hnd as [Hnotin Hnd].
    cbn [snd] in Hnotin.
    assert (Hstep : disambig_heap count prefix st h ((w, p, tl) :: rest)
                    = match disambig_entry count prefix st (w, p, t) with
                      | Ok r => disambig_heap count prefix r.1
                                  (<[tl := PList (e_trans r.2)]> h) rest
                      | Raise e => (h, Raise e)
                      end)
      by (cbn [disambig_heap]; unfold read_list; by rewrite Htl).
    rewrite Hstep. clear Hstep. cbn [disambig_loop].
    destruct (disambig_entry count prefix st (w, p, t)) as [[st1 e1]|] eqn:He;
      [|done].
    cbn [rbind fst snd].
    assert (He1 : e1 = (w, p, e_trans e1)).
    { rewrite disambig_entry_choose in He.
      destruct (choose count prefix st (pron_string (w, p, t))) as [[st2 o]|];
        [|discriminate].
      cbn [rbind fst snd] in He. injection He as _ <-. by destruct o. }
    specialize (IH st1 (<[tl := PList (e_trans e1)]> h) vrest).
    rewrite read_values_insert_ne in IH by done. specialize (IH Hrest Hnd).
    destruct (disambig_loop count prefix st1 vrest) as [[st2 arest]|]; [|done].
    cbn [rbind fst snd] in *.
    destruct IH as [Hok Hval]. split; [done|].
    cbn [read_values]. unfold read_list.
    rewrite disambig_heap_other, lookup_insert_eq by done. cbn [rbind].
    rewrite Hval. cbn [rbind]. by rewrite <- He1.
Qed.

(** The deep copy of entries that are pairwise distinct lists: new, pairwise
    distinct lists with the same contents. *)
Lemma deepcopy_entries_values (es : list (string * R * loc))
    (h : gmap loc pyobj) (memo : gmap loc loc) (values : list entry) :
  read_values h es = Ok values → NoDup es.*2 →
  (∀ l, l ∈ es.*2 → memo !! l = None) →
  ∃ es',
    (deepcopy_entries h memo es).2 = Ok es'
    ∧ read_values (deepcopy_entries h memo es).1 es' = Ok values
    ∧ NoDup es'.*2
    ∧ (∀ l, l ∈ es'.*2 → h !! l = None)
    ∧ keeps h (deepcopy_entries h memo es).1.
Proof.
  revert h memo values.
  induction es as [|[[w p] tl] rest IH]; intros h memo values Hread Hnd Hmemo.
  - injection Hread as <-. exists []. simpl. split; [done|]. split; [done|].
    split; [constructor|]. split; [|apply keeps_refl].
    intros l Hl. by apply elem_of_nil in Hl.
  - apply read_values_cons_inv in Hread as (t & vrest & Htl & Hrest & ->).
    rewrite fmap_cons in Hnd. apply NoDup_cons in Hnd as [Hnotin Hnd].
    cbn [snd] in Hnotin.
    set (a := alloc h (PList t)).
    assert (Hstep : deepcopy_entries h memo ((w, p, tl) :: rest)
                    = ((deepcopy_entries a.1 (<[tl := a.2]> memo) rest).1,
                       rest' <- (deepcopy_entries a.1 (<[tl := a.2]> memo) rest).2 ;;
                       Ok ((w, p, a.2) :: rest'))).
    { cbn [deepcopy_entries]. rewrite (Hmemo tl) by (rewrite fmap_cons; left).
      unfold read_list. by rewrite Htl. }
    rewrite Hstep. clear Hstep. cbn [fst snd].
    pose proof (alloc_keeps h (PList t)) as Hka. fold a in Hka.
    pose proof (alloc_new h (PList t)) as Hna. fold a in Hna.
    assert (Ha : a.1 !! a.2 = Some (PList t)) by (unfold a, alloc; apply lookup_insert_eq).
    destruct (IH a.1 (<[tl := a.2]> memo) vrest)
      as (rest' & Hok & Hval & Hnd' & Hnew & Hkeep).
    { by eapply read_values_keeps. }
    { done. }
    { intros l Hl. rewrite lookup_insert_ne; [|by intros <-].
      apply Hmemo. rewrite fmap_cons. by right. }
    exists ((w, p, a.2) :: rest'). rewrite Hok. cbn [rbind].
    split; [done|]. split.
    { cbn [read_values]. unfold read_list. rewrite Hkeep, Ha by eauto.
      cbn [rbind]. by rewrite Hval. }
    split.
    { rewrite fmap_cons. apply NoDup_cons. split; [|done].
      intros Hin. apply Hnew in Hin. cbn [snd] in Hin. by rewrite Ha in Hin. }
    split; [|by eapply keeps_trans].
    intros l Hl. rewrite fmap_cons in Hl. apply elem_of_cons in Hl as [->|Hl];
      [done|].
    apply Hnew in Hl. destruct (h !! l) as [o|] eqn:Ho; [|done].
    rewrite Hka in Hl by eauto. by rewrite Ho in Hl.
Qed.

(** When every entry has a transcription list of its own, the result of the
    store model is that of the value model on the contents. *)
Lemma prepare_lexicon_heap_values (h : gmap loc pyobj) (lexicon : loc)
    (es : list (string * R * loc)) (values : list entry)
    (silence_phones nonsilence_phones : list string)
    (optional_silence oov : string) :
  read_entries h lexicon = Ok es → read_values h es = Ok values →
  NoDup es.*2 →
  (prepare_lexicon_heap h lexicon silence_phones nonsilence_phones
     optional_silence oov).2
  = prepare_lexicon values silence_phones nonsilence_phones optional_silence oov.
Proof.
  intros Hes Hvalues Hnd.
  unfold prepare_lexicon_heap, prepare_lexicon, reading, read_lexicon.
  rewrite Hes. cbn [rbind]. rewrite Hvalues.
  destruct (check_phones _ _ _) as [[]|]; [|done]. cbn [rbind].
  destruct (deepcopy_entries_values es h ∅ values Hvalues Hnd)
    as (es' & Hok & Hval & Hnd' & _ & _).
  { intros l _. apply lookup_empty. }
  unfold deepcopy. rewrite Hes, Hok. cbn [fst snd].
  set (c := alloc (deepcopy_entries h ∅ es).1 (PLexicon es')).
  assert (Hread : read_entries c.1 c.2 = Ok es').
  { unfold read_entries, c, alloc. cbn [fst snd]. by rewrite lookup_insert_eq. }
  rewrite Hread.
  assert (Hval_c : read_values c.1 es' = Ok values).
  { eapply read_values_keeps; [apply alloc_keeps|done]. }
  pose proof (tag_heap_values es' c.1 values Hval_c Hnd') as Htag.
  destruct (tag_lexicon values) as [tagged|]; [|by rewrite Htag].
  destruct Htag as [Htag Htagged]. rewrite Htag, Htagged. cbn [rbind].
  pose proof (disambig_heap_values (count_pass tagged) (prefix_pass tagged)
                es' disambig_init _ tagged Htagged Hnd') as Hdis.
  unfold add_disambig.
  destruct (disambig_loop _ _ disambig_init tagged) as [[st aug]|];
    [|by rewrite Hdis].
  cbn [fst snd rbind] in *. destruct Hdis as [Hdis Haug].
  by rewrite Hdis, Haug.
Qed.

(** C10: when [prepare_lexicon] returns, the caller's lexicon is as it was:
    the list object, and the triples with the contents of their
    transcription lists, read before and after the call, are equal; every
    object of the caller's store is unchanged, the tags and symbols having
    been written to the lists of the deep copy, which are new objects. *)
Theorem caller_lexicon_is_unchanged (h h' : gmap loc pyobj) (lexicon : loc)
    (silence_phones nonsilence_phones : list string)
    (optional_silence oov : string) (r : prepared) :
  prepare_lexicon_heap h lexicon silence_phones nonsilence_phones
    optional_silence oov = (h', Ok r) →
  h' !! lexicon = h !! lexicon
  ∧ (∃ values, read_lexicon h lexicon = Ok values
               ∧ read_lexicon h' lexicon = Ok values)
  ∧ ∀ l, is_Some (h !! l) → h' !! l = h !! l.
Proof.
  intros Hrun.
  pose proof (prepare_lexicon_heap_keeps h lexicon silence_phones
                nonsilence_phones optional_silence oov) as Hk.
  rewrite Hrun in Hk. cbn [fst] in Hk.
  assert (Hvalues : ∃ values, read_lexicon h lexicon = Ok values).
  { unfold prepare_lexicon_heap, reading in Hrun.
    destruct (read_lexicon h lexicon) as [values|]; [eauto|discriminate]. }
  destruct Hvalues as [values Hvalues].
  assert (Hobj : is_Some (h !! lexicon)).
  { unfold read_lexicon, read_entries in Hvalues.
    destruct (h !! lexicon); [eauto|discriminate]. }
  split; [by apply Hk|]. split; [|done].
  exists values. split; [done|].
  unfold read_lexicon, read_entries in *. rewrite Hk by done.
  destruct (h !! lexicon) as [[t|es]|]; try discriminate.
  cbn [rbind] in *. by eapply read_values_keeps.
Qed.

Lemma caller_lexicon_is_unchanged_witness :
  let h : gmap loc pyobj :=
    <[0 := PLexicon [("a", 0%R, 1); ("b", 0%R, 2)]]>
      (<[1 := PList ["x"]]> (<[2 := PList ["x"]]> ∅)) in
  ∃ h' r,
    prepare_lexicon_heap h 0 ["sil"] ["x"] "sil" "<unk>" = (h', Ok r)
    ∧ read_lexicon h' 0 = Ok [("a", 0%R, ["x"]); ("b", 0%R, ["x"])].
Proof.
  intros h.
  destruct (prepare_lexicon_heap h 0 ["sil"] ["x"] "sil" "<unk>")
    as [h' res] eqn:Hrun.
  assert (Hres : res = prepare_lexicon [("a", 0%R, ["x"]); ("b", 0%R, ["x"])]
                         ["sil"] ["x"] "sil" "<unk>").
  { change res with (h', res).2. rewrite <- Hrun.
    apply (prepare_lexicon_heap_values h 0 [("a", 0%R, 1); ("b", 0%R, 2)]);
      [reflexivity|reflexivity|].
    apply (bool_decide_unpack _). reflexivity. }
  rewrite prepare_lexicon_two_words in Hres. subst res.
  eexists h', _. split; [reflexivity|].
  destruct (caller_lexicon_is_unchanged _ _ _ _ _ _ _ _ Hrun)
    as (_ & (values & Hbefore & Hafter) & _).
  rewrite Hafter, <- Hbefore. reflexivity.
Defined.

(** In [write_fst_with_silence] the states handed to the nonterminal
    extension are new: the start state is 0, the loop state 1, and the next
    free state is 3 or more. *)
Lemma lexicon_next_ge (lexicon : list entry) (next : nat) :
  next ≤ lexicon_next next lexicon.
Proof.
  revert next. induction lexicon as [|e rest IH]; intros next; [done|].
  unfold lexicon_next in *. cbn [foldl].
  etrans; [|apply IH]. lia.
Qed.

Lemma shared_state_is_new (lexicon : list entry) (sil_disambig : option string) :
  0 ≠ lexicon_next (first_free sil_disambig) lexicon
  ∧ 1 ≠ lexicon_next (first_free sil_disambig) lexicon.
Proof.
  pose proof (lexicon_next_ge lexicon (first_free sil_disambig)) as H.
  assert (3 ≤ first_free sil_disambig) by (destruct sil_disambig; simpl; lia).
  lia.
Qed.

(** ** Empty transcriptions *)

Lemma deepcopy_entries_grows (es : list (string * R * loc))
    (h : gmap loc pyobj) (memo : gmap loc loc) :
  keeps h (deepcopy_entries h memo es).1.
Proof.
  revert h memo. induction es as [|[[w p] tl] rest IH]; intros h memo.
  - apply keeps_refl.
  - cbn [deepcopy_entries]. destruct (memo !! tl) as [tl'|]; [apply IH|].
    destruct (read_list h tl) as [t|]; [|apply keeps_refl]. cbn [fst].
    eapply keeps_trans; [apply alloc_keeps|apply IH].
Qed.

(** The deep copy of the entries reads as the original does, whether or not
    entries share a list: the memo maps a list to a copy with its contents. *)
Lemma deepcopy_entries_read (es : list (string * R * loc))
    (h : gmap loc pyobj) (memo : gmap loc loc) (values : list entry) :
  read_values h es = Ok values →
  (∀ k v, memo !! k = Some v →
          ∃ t, h !! k = Some (PList t) ∧ h !! v = Some (PList t)) →
  ∃ es',
    (deepcopy_entries h memo es).2 = Ok es'
    ∧ read_values (deepcopy_entries h memo es).1 es' = Ok values.
Proof.
  revert h memo values.
  induction es as [|[[w p] tl] rest IH]; intros h memo values Hval Hmemo.
  - cbn in Hval. injection Hval as <-. by exists [].
  - apply read_values_cons_inv in Hval as (t & vrest & Htl & Hrest & ->).
    cbn [deepcopy_entries]. destruct (memo !! tl) as [tl'|] eqn:Hm.
    + destruct (Hmemo tl tl' Hm) as (t0 & Hk & Hv).
      assert (t0 = t) as -> by congruence.
      destruct (IH h memo vrest Hrest Hmemo) as (es' & Hok & Hread).
      exists ((w, p, tl') :: es'). cbn [fst snd]. rewrite Hok. cbn [rbind].
      split; [done|]. cbn [read_values]. unfold read_list.
      rewrite (deepcopy_entries_grows rest h memo tl') by by rewrite Hv.
      rewrite Hv. cbn [rbind]. by rewrite Hread.
    + assert (Hrl : read_list h tl = Ok t) by (unfold read_list; by rewrite Htl).
      rewrite Hrl. set (a := alloc h (PList t)).
      assert (Hnew : h !! a.2 = None) by apply alloc_new.
      assert (Ha : a.1 !! a.2 = Some (PList t))
        by (unfold a, alloc; cbn [fst snd]; by rewrite lookup_insert_eq).
      assert (Hkeep : keeps h a.1) by apply alloc_keeps.
      clearbody a.
      destruct (IH a.1 (<[tl := a.2]> memo) vrest) as (es' & Hok & Hread).
      { by eapply read_values_keeps. }
      { intros k v Hkv. destruct (decide (tl = k)) as [<- | Hne].
        - rewrite lookup_insert_eq in Hkv. injection Hkv as <-.
          exists t. split; [|done]. rewrite (Hkeep tl) by by rewrite Htl. done.
        - rewrite lookup_insert_ne in Hkv by done.
          destruct (Hmemo k v Hkv) as (t0 & Hk & Hv). exists t0.
          rewrite (Hkeep k) by by rewrite Hk.
          rewrite (Hkeep v) by by rewrite Hv. done. }
      exists ((w, p, a.2) :: es'). cbn [fst snd]. rewrite Hok. cbn [rbind].
      split; [done|]. cbn [read_values]. unfold read_list.
      rewrite (deepcopy_entries_grows rest a.1 (<[tl := a.2]> memo) a.2)
        by by rewrite Ha.
      rewrite Ha. cbn [rbind]. by rewrite Hread.
Qed.

Lemma read_values_lists (h : gmap loc pyobj) (es : list (string * R * loc))
    (values : list entry) :
  read_values h es = Ok values →
  (∀ e, e ∈ es → ∃ t, h !! e.2 = Some (PList t))
  ∧ ((∃ v, v ∈ values ∧ e_trans v = []) →
     ∃ e, e ∈ es ∧ h !! e.2 = Some (PList [])).
Proof.
  revert values. induction es as [|[[w p] tl] rest IH]; intros values Hval.
  - cbn in Hval. injection Hval as <-. split.
    + intros e He. by apply elem_of_nil in He.
    + intros (v & Hv & _). by apply elem_of_nil in Hv.
  - apply read_values_cons_inv in Hval as (t & vrest & Htl & Hrest & ->).
    destruct (IH vrest Hrest) as [Hall Hempty]. split.
    + intros e He. apply elem_of_cons in He as [-> | He]; [eauto|by apply Hall].
    + intros (v & Hv & Hnil). apply elem_of_cons in Hv as [-> | Hv].
      * cbn in Hnil. subst t. exists (w, p, tl).
        split; [apply list_elem_of_here|done].
      * destruct Hempty as (e & He & Hl); [eauto|].
        exists e. split; [by apply list_elem_of_further|done].
Qed.

(** The tagging loop stops with [IndexError] at the first entry whose list
    is empty; the lists it tagged before keep their lengths. *)
Lemma tag_heap_empty (es : list (string * R * loc)) (h : gmap loc pyobj) :
  (∀ e, e ∈ es → ∃ t, h !! e.2 = Some (PList t)) →
  (∃ e, e ∈ es ∧ h !! e.2 = Some (PList [])) →
  (tag_heap h es).2 = Raise IndexError.
Proof.
  revert h. induction es as [|[[w p] tl] rest IH]; intros h Hall (e0 & He0 & Hnil).
  - by apply elem_of_nil in He0.
  - destruct (Hall (w, p, tl)) as [t Ht]; [apply list_elem_of_here|].
    cbn [snd] in Ht. cbn [tag_heap]. unfold read_list. rewrite Ht.
    destruct t as [|a t]; [done|].
    destruct (tag_trans_ok (a :: t)) as (t' & Htag & _); [done|].
    rewrite Htag. apply IH.
    + intros e He. destruct (decide (e.2 = tl)) as [Heq | Hne].
      * rewrite Heq, lookup_insert_eq. eauto.
      * rewrite lookup_insert_ne by done. apply Hall.
        by apply list_elem_of_further.
    + apply elem_of_cons in He0 as [-> | He0].
      * cbn [snd] in Hnil. congruence.
      * exists e0. split; [done|].
        rewrite lookup_insert_ne; [done|]. intros Heq.
        rewrite <- Heq in Hnil. congruence.
Qed.


(** With all phones declared and an empty transcription the call stops in
    the tagging loop, on every store. *)
Lemma prepare_lexicon_heap_empty (h : gmap loc pyobj) (lexicon : loc)
    (es : list (string * R * loc)) (values : list entry)
    (silence_phones nonsilence_phones : list string)
    (optional_silence oov : string) :
  read_entries h lexicon = Ok es → read_values h es = Ok values →
  check_phones values silence_phones nonsilence_phones = Ok () →
  (∃ e, e ∈ values ∧ e_trans e = []) →
  (prepare_lexicon_heap h lexicon silence_phones nonsilence_phones
     optional_silence oov).2 = Raise IndexError.
Proof.
  intros Hes Hvalues Hcheck Hempty.
  unfold prepare_lexicon_heap, reading, read_lexicon.
  rewrite Hes. cbn [rbind]. rewrite Hvalues, Hcheck.
  destruct (deepcopy_entries_read es h ∅ values Hvalues) as (es' & Hok & Hval).
  { intros k v Hkv. by rewrite lookup_empty in Hkv. }
  unfold deepcopy. rewrite Hes, Hok. cbn [fst snd].
  set (c := alloc (deepcopy_entries h ∅ es).1 (PLexicon es')).
  assert (Hread : read_entries c.1 c.2 = Ok es').
  { unfold read_entries, c, alloc. cbn [fst snd]. by rewrite lookup_insert_eq. }
  rewrite Hread.
  assert (Hval_c : read_values c.1 es' = Ok values).
  { eapply read_values_keeps; [apply alloc_keeps|done]. }
  destruct (read_values_lists _ _ _ Hval_c) as [Hall Hnil].
  by rewrite (tag_heap_empty es' c.1 Hall (Hnil Hempty)).
Qed.

(** * Further properties *)

(** ** Which runs of [prepare_lexicon] return *)

Lemma for_each_ok {A S : Type} (l : list A) (body : S → A → result S) (s : S) :
  (∀ s' x, x ∈ l → ∃ s'', body s' x = Ok s'') →
  ∃ s', for_each l body s = Ok s'.
Proof.
  revert s. induction l as [|x l IH]; intros s Hbody; [by exists s|].
  cbn [for_each]. destruct (Hbody s x) as [s1 Hs1]; [left|].
  rewrite Hs1. cbn [rbind]. apply IH. intros s' y Hy. apply Hbody. by right.
Qed.

(** The assertion loop returns when every phone is declared and raises
    [AssertionError] otherwise. *)
Lemma check_phones_cases (lexicon : list entry)
    (silence_phones nonsilence_phones : list string) :
  (check_phones lexicon silence_phones nonsilence_phones = Ok ()
   ∧ ∀ e ph, e ∈ lexicon → ph ∈ e_trans e →
             ph ∈ nonsilence_phones ∨ ph ∈ silence_phones)
  ∨ (check_phones lexicon silence_phones nonsilence_phones = Raise AssertionError
     ∧ ∃ e ph, e ∈ lexicon ∧ ph ∈ e_trans e
               ∧ (ph ∉ nonsilence_phones) ∧ (ph ∉ silence_phones)).
Proof.
  assert (Hinner : ∀ trans : list string,
    (for_each trans (fun _ ph =>
        if bool_decide (ph ∈ nonsilence_phones) || bool_decide (ph ∈ silence_phones)
        then Ok () else Raise AssertionError) () = Ok ()
     ∧ ∀ ph, ph ∈ trans → ph ∈ nonsilence_phones ∨ ph ∈ silence_phones)
    ∨ (for_each trans (fun _ ph =>
        if bool_decide (ph ∈ nonsilence_phones) || bool_decide (ph ∈ silence_phones)
        then Ok () else Raise AssertionError) () = Raise AssertionError
       ∧ ∃ ph, ph ∈ trans ∧ (ph ∉ nonsilence_phones) ∧ (ph ∉ silence_phones))).
  { induction trans as [|ph trans IH].
    - left. split; [done|]. intros ph Hph. by apply elem_of_nil in Hph.
    - cbn [for_each].
      destruct (decide (ph ∈ nonsilence_phones)) as [Hn|Hn];
        [|destruct (decide (ph ∈ silence_phones)) as [Hs|Hs]].
      + rewrite (bool_decide_eq_true_2 _ Hn). cbn [orb rbind].
        destruct IH as [[Hok Hall]|[Herr (ph' & Hin & Hbad)]].
        * left. split; [done|]. intros ph' Hph'.
          apply elem_of_cons in Hph' as [->|Hph']; [by left|by apply Hall].
        * right. split; [done|]. exists ph'. split; [by right|done].
      + rewrite (bool_decide_eq_false_2 _ Hn), (bool_decide_eq_true_2 _ Hs).
        cbn [orb rbind].
        destruct IH as [[Hok Hall]|[Herr (ph' & Hin & Hbad)]].
        * left. split; [done|]. intros ph' Hph'.
          apply elem_of_cons in Hph' as [->|Hph']; [by right|by apply Hall].
        * right. split; [done|]. exists ph'. split; [by right|done].
      + rewrite (bool_decide_eq_false_2 _ Hn), (bool_decide_eq_false_2 _ Hs).
        cbn [orb rbind]. right. split; [done|]. exists ph. split; [left|done]. }
  unfold check_phones. induction lexicon as [|[[w p] t] rest IH].
  - left. split; [done|]. intros e ph He. by apply elem_of_nil in He.
  - cbn [for_each]. destruct (Hinner t) as [[Hok Hall]|[Herr (ph & Hin & Hbad)]].
    + rewrite Hok. cbn [rbind].
      destruct IH as [[Hok' Hall']|[Herr (e & ph & He & Hin & Hbad)]].
      * left. split; [done|]. intros e ph He Hph.
        apply elem_of_cons in He as [->|He]; [by apply Hall|by eapply Hall'].
      * right. split; [done|]. exists e, ph. split; [by right|done].
    + rewrite Herr. cbn [rbind]. right. split; [done|].
      exists (w, p, t), ph. split; [left|done].
Qed.


Lemma dict_set_keys {V : Type} (d : list (string * V)) (k k' : string) (v : V) :
  k' ∈ (dict_set d k v).*1 ↔ k' = k ∨ k' ∈ d.*1.
Proof.
  induction d as [|[k0 v0] d IH].
  - simpl. rewrite list_elem_of_singleton. split; [auto|]. intros [?|H]; [done|].
    by apply elem_of_nil in H.
  - cbn [dict_set]. case_decide as Hk.
    + subst k0. rewrite !fmap_cons. cbn [fst]. rewrite !elem_of_cons. tauto.
    + rewrite !fmap_cons. cbn [fst]. rewrite !elem_of_cons, IH. tauto.
Qed.

Lemma foldl_assign_keys (names : list string) (st : list (string * nat) * nat)
    (k : string) :
  k ∈ (foldl assign st names).1.*1 ↔ k ∈ st.1.*1 ∨ k ∈ names.
Proof.
  revert st. induction names as [|n names IH]; intros st.
  - simpl. split; [auto|]. intros [?|H]; [done|]. by apply elem_of_nil in H.
  - cbn [foldl]. rewrite IH. unfold assign at 1. cbn [fst].
    rewrite dict_set_keys, elem_of_cons. tauto.
Qed.

Lemma dict_get_key {V : Type} (d : list (string * V)) (k : string) :
  k ∈ d.*1 → ∃ v, dict_get d k = Ok v.
Proof.
  induction d as [|[k0 v0] d IH]; intros Hk; [by apply elem_of_nil in Hk|].
  cbn [dict_get]. case_decide; [eauto|].
  rewrite fmap_cons in Hk. apply elem_of_cons in Hk as [->|Hk]; [done|auto].
Qed.

(** Every [#i] that [disambig.int] looks up has been assigned. *)
Lemma disambig_ints_ok (silence_phones nonsilence_phones : list string) (m : nat) :
  ∃ ds, disambig_ints (build_phone_map silence_phones nonsilence_phones m).1 m
        = Ok ds.
Proof.
  unfold disambig_ints. apply for_each_ok. intros acc i Hi.
  destruct (dict_get_key (build_phone_map silence_phones nonsilence_phones m).1
              (disambig_name i)) as [d Hd].
  - rewrite build_phone_map_foldl, foldl_assign_keys. right.
    unfold phone_names. rewrite elem_of_cons, !elem_of_app. right. right. right.
    apply list_elem_of_fmap_2. unfold range in Hi.
    replace (Z.to_nat (Z.of_nat m + 1)) with (m + 1) in Hi by lia. done.
  - rewrite Hd. cbn [rbind]. eauto.
Qed.

Lemma write_tables_ok (aug : list entry) (m : nat)
    (silence_phones nonsilence_phones : list string) (optional_silence : string) :
  ∃ r, write_tables aug m silence_phones nonsilence_phones optional_silence = Ok r.
Proof.
  rewrite write_tables_eq.
  destruct (disambig_ints_ok silence_phones nonsilence_phones m) as [ds Hds].
  rewrite Hds. cbn [rbind]. eauto.
Qed.




(** C2: the run the claim describes does not happen.  Whenever the caller's
    lexicon has an entry with an empty transcription, and every phone is
    declared, [prepare_lexicon] stops with [IndexError]: the tagging loop
    evaluates [trans[0] += '_B'] on the empty list.  This holds on every
    store, also when entries share list objects.  In particular the call on
    [("a", 0.0, [])] raises, whatever the phone inventory; no symbol is
    assigned and no silence symbol computed. *)
Theorem empty_pronunciation_raises_IndexError (h : gmap loc pyobj)
    (lexicon : loc) (es : list (string * R * loc)) (values : list entry)
    (silence_phones nonsilence_phones : list string)
    (optional_silence oov : string) :
  read_entries h lexicon = Ok es → read_values h es = Ok values →
  (∀ e ph, e ∈ values → ph ∈ e_trans e →
           ph ∈ nonsilence_phones ∨ ph ∈ silence_phones) →
  (∃ e, e ∈ values ∧ e_trans e = []) →
  (prepare_lexicon_heap h lexicon silence_phones nonsilence_phones
     optional_silence oov).2 = Raise IndexError
  ∧ tag_trans [] = Raise IndexError
  ∧ prepare_lexicon [("a", 0%R, [])] silence_phones nonsilence_phones
      optional_silence oov = Raise IndexError.
Proof.
  intros Hes Hvalues Hdecl Hempty. split; [|split; [done|done]].
  apply (prepare_lexicon_heap_empty h lexicon es values); [done|done| |done].
  destruct (check_phones_cases values silence_phones nonsilence_phones)
    as [[Hok _]|[_ (e & ph & He & Hph & Hn & Hs)]]; [done|].
  destruct (Hdecl e ph He Hph); done.
Qed.

Lemma empty_pronunciation_raises_IndexError_witness :
  let h : gmap loc pyobj :=
    <[0 := PLexicon [("a", 0%R, 1)]]> (<[1 := PList []]> ∅) in
  (prepare_lexicon_heap h 0 ["sil"] ["x"] "sil" "<unk>").2 = Raise IndexError.
Proof.
  intros h.
  destruct (empty_pronunciation_raises_IndexError h 0 [("a", 0%R, 1)]
              [("a", 0%R, [])] ["sil"] ["x"] "sil" "<unk>") as [Hrun _].
  - reflexivity.
  - reflexivity.
  - intros e ph He Hph. apply list_elem_of_singleton in He. subst e.
    by apply elem_of_nil in Hph.
  - exists ("a", 0%R, []). split; [apply list_elem_of_here|reflexivity].
  - exact Hrun.
Defined.

(** ** Positional tags *)

(** X2: Tagging fails on the empty transcription only; otherwise the length
    stays and the token at position [j] gets [_S] when it is alone, [_B] when
    first, [_E] when last and [_I] in between. *)
Theorem tag_trans_positions (l : list string) :
  match tag_trans l with
  | Ok l' =>
      l ≠ [] ∧ length l' = length l
      ∧ ∀ j t, l !! j = Some t →
          l' !! j = Some (t +:+ (if decide (length l = 1) then "_S"
                                 else if decide (j = 0) then "_B"
                                 else if decide (j = length l - 1) then "_E"
                                 else "_I"))
  | Raise e => e = IndexError ∧ l = []
  end.
Proof.
  destruct l as [|a l]; [done|].
  destruct (tag_trans_ok (a :: l)) as (l' & Hok & Hlen & Hlook); [done|].
  rewrite Hok. split; [done|]. split; [done|]. exact Hlook.
Qed.

(** ** The numbers of the disambiguation symbols *)

(** X3: When the assigner returns, as it does whenever no two entries share
    a list object, it has kept the number and the order of the entries and
    has left each entry as it is or appended one symbol [#n] to its
    transcription, with [1 ≤ n < m] for the incremented maximum [m]: [#0] is
    never appended, and neither is [#m], the number kept for the silence
    symbol. *)
Theorem assigned_symbols_in_range (lexicon aug : list entry) (m : nat) :
  add_disambig lexicon = Ok (aug, m) →
  length aug = length lexicon
  ∧ 1 ≤ m
  ∧ ∀ i e e', lexicon !! i = Some e → aug !! i = Some e' →
      e' = e
      ∨ ∃ n, e' = (e_word e, e_prob e, e_trans e ++ [disambig_name n])
             ∧ 1 ≤ n < m.
Proof.
  intros Hrun.
  destruct (choose_all_shape (count_pass lexicon) (prefix_pass lexicon)
              (pron_string <$> lexicon) disambig_init)
    as (st' & syms & Hall & Hlen & _).
  { intros x Hx. by apply count_pass_is_Some. }
  destruct (choose_all_fresh _ _ _ _ _ _ bounded_init Hall)
    as (_ & _ & _ & Hs & _ & _).
  rewrite length_fmap in Hlen.
  rewrite add_disambig_choose, Hall in Hrun. cbn [rbind fst snd] in Hrun.
  injection Hrun as <- <-.
  split; [rewrite length_zip_with; lia|]. split; [lia|].
  intros i e e' Hi Hi'.
  destruct (lookup_lt_is_Some_2 syms i) as [o Ho];
    [rewrite Hlen; by eapply lookup_lt_Some|].
  assert (He' : Some e' = Some (with_symbol e o))
    by (etrans; [symmetry; exact Hi'|];
        exact (with_symbol_lookup lexicon syms i e o Hi Ho)).
  injection He' as ->. destruct o as [n|]; [|by left].
  right. exists n. split; [done|]. destruct (Hs i n Ho) as (? & ? & _). lia.
Qed.

Lemma assigned_symbols_in_range_witness :
  ∃ n, ("b", 0%R, ["x_S"; "#2"])
       = ("b", 0%R, ["x_S"] ++ [disambig_name n]) ∧ 1 ≤ n < 3.
Proof.
  destruct (assigned_symbols_in_range
              [("a", 0%R, ["x_S"]); ("b", 0%R, ["x_S"])]
              [("a", 0%R, ["x_S"; "#1"]); ("b", 0%R, ["x_S"; "#2"])] 3 eq_refl)
    as (_ & _ & Hsym).
  destruct (Hsym 1 ("b", 0%R, ["x_S"]) ("b", 0%R, ["x_S"; "#2"]) eq_refl eq_refl)
    as [Hsame|Hn].
  - discriminate Hsame.
  - exact Hn.
Defined.

(** ** No transcription is a prefix of another *)

Lemma pretty_N_go_last (x : N) (s : string) :
  s ≠ "" → last_char (pretty_N_go x s) = last_char s.
Proof.
  revert s. induction (N.lt_wf_0 x) as [x _ IH]; intros s Hs.
  assert (x = 0 ∨ 0 < x)%N as [->|Hx] by lia.
  - by rewrite pretty_N_go_0.
  - rewrite pretty_N_go_step by done. rewrite IH.
    + simpl. by destruct s.
    + by apply N.div_lt.
    + done.
Qed.

(** A symbol name ends in a digit. *)
Lemma last_char_disambig_name (n : nat) :
  ∃ d, last_char (disambig_name n) = Some (pretty_N_char d).
Proof.
  unfold disambig_name. rewrite last_char_append.
  - unfold pretty, pretty_nat, pretty, pretty_N. case_decide as H0.
    + by exists 0%N.
    + rewrite pretty_N_go_step by lia. rewrite pretty_N_go_last by done.
      by eexists.
  - unfold pretty, pretty_nat, pretty, pretty_N. case_decide as H0; [done|].
    intros Hemp. apply (f_equal last_char) in Hemp.
    rewrite pretty_N_go_step in Hemp by lia.
    rewrite pretty_N_go_last in Hemp by done. discriminate.
Qed.

Lemma digit_is_no_tag (d : N) (c : ascii) :
  c = "S"%char ∨ c = "E"%char ∨ c = "B"%char ∨ c = "I"%char →
  pretty_N_char d ≠ c.
Proof.
  intros Hc Heq. unfold pretty_N_char in Heq.
  repeat case_match; destruct Hc as [-> | [-> | [-> | ->]]]; discriminate.
Qed.

(** Every token of a tagged transcription ends in a tag letter. *)
Lemma tagged_token_last (l l' : list string) (j : nat) (t' : string) :
  tag_trans l = Ok l' → l' !! j = Some t' →
  ∃ c, last_char t' = Some c
       ∧ (c = "S"%char ∨ c = "E"%char ∨ c = "B"%char ∨ c = "I"%char)
       ∧ (j = length l' - 1 ↔ c = "S"%char ∨ c = "E"%char).
Proof.
  intros Htag Hj. apply tag_trans_inv in Htag as (Hne & Hlen & Hlook).
  pose proof (lookup_lt_Some _ _ _ Hj) as Hjlt.
  destruct (lookup_lt_is_Some_2 l j) as [t Ht]; [lia|].
  rewrite (Hlook _ _ Ht) in Hj. injection Hj as <-.
  rewrite last_char_tag. eexists. split; [done|]. rewrite Hlen.
  repeat case_decide; (split; [tauto|]); split; intros Hcase;
    try tauto; try lia; try (destruct Hcase; discriminate).
Qed.

Lemma occ_app (l1 l2 : list entry) (x : string) :
  occ (l1 ++ l2) x = occ l1 x + occ l2 x.
Proof. unfold occ. by rewrite filter_app, length_app. Qed.

(** Within a group the rank grows with the position. *)
Lemma occ_take_lt (lexicon : list entry) (i j : nat) (e : entry) (x : string) :
  i < j → lexicon !! j = Some e → pron_string e = x →
  occ (take (S i) lexicon) x < occ (take (S j) lexicon) x.
Proof.
  intros Hij Hj Hx.
  assert (Hsplit : take (S j) lexicon
                   = take (S i) lexicon ++ drop (S i) (take (S j) lexicon)).
  { rewrite <- (take_drop (S i) (take (S j) lexicon)) at 1.
    rewrite take_take. by rewrite Nat.min_l by lia. }
  rewrite Hsplit, occ_app.
  assert (Hin : e ∈ drop (S i) (take (S j) lexicon)).
  { apply list_elem_of_lookup. exists (j - S i).
    rewrite lookup_drop, lookup_take_lt by lia.
    by replace (S i + (j - S i)) with j by lia. }
  pose proof (occ_pos e _ Hin) as Hpos. rewrite Hx in Hpos. lia.
Qed.

Lemma e_trans_with_symbol (e : entry) (o : option nat) :
  e_trans (with_symbol e o)
  = e_trans e ++ match o with
                 | Some n => [disambig_name n]
                 | None => []
                 end.
Proof. destruct o; [done|]. by rewrite app_nil_r. Qed.

(** X5: After tagging and disambiguation no entry's transcription is a prefix
    of, or equal to, the transcription of another entry: the sequences of
    input labels of two entries always part ways. *)
Theorem disambiguated_lexicon_is_prefix_free (lexicon tagged aug : list entry)
    (m : nat) :
  tag_lexicon lexicon = Ok tagged → add_disambig tagged = Ok (aug, m) →
  ∀ i j ei ej, i ≠ j → aug !! i = Some ei → aug !! j = Some ej →
               ¬ e_trans ei `prefix_of` e_trans ej.
Proof.
  intros Htag Hdis i j ei ej Hij Hi Hj [k Hpre].
  destruct (add_disambig_tagged _ _ Htag) as (aug' & m' & Hrun & Hlen & Haug).
  rewrite Hdis in Hrun. injection Hrun as <- <-.
  pose proof (lookup_lt_Some _ _ _ Hi) as Hilt.
  pose proof (lookup_lt_Some _ _ _ Hj) as Hjlt.
  destruct (lookup_lt_is_Some_2 tagged i) as [e1 He1]; [lia|].
  destruct (lookup_lt_is_Some_2 tagged j) as [e2 He2]; [lia|].
  assert (Hei : Some ei = Some (with_symbol e1
            (if decide (plain (count_pass tagged) (prefix_pass tagged) (pron_string e1))
             then None else Some (occ (take (S i) tagged) (pron_string e1)))))
    by (etrans; [symmetry; exact Hi|exact (Haug i e1 He1)]).
  assert (Hej : Some ej = Some (with_symbol e2
            (if decide (plain (count_pass tagged) (prefix_pass tagged) (pron_string e2))
             then None else Some (occ (take (S j) tagged) (pron_string e2)))))
    by (etrans; [symmetry; exact Hj|exact (Haug j e2 He2)]).
  injection Hei as ->. injection Hej as ->.
  rewrite !e_trans_with_symbol in Hpre.
  set (s1 := match (if decide (plain _ _ (pron_string e1)) then None
                    else Some (occ (take (S i) tagged) (pron_string e1))) with
             | Some n => [disambig_name n] | None => [] end) in Hpre.
  set (s2 := match (if decide (plain _ _ (pron_string e2)) then None
                    else Some (occ (take (S j) tagged) (pron_string e2))) with
             | Some n => [disambig_name n] | None => [] end) in Hpre.
  (* the tagged transcriptions and their sources *)
  pose proof (tag_lexicon_inv _ _ Htag) as Hall.
  destruct (Forall2_lookup_r _ _ _ _ _ Hall He1) as (l1 & _ & _ & _ & Hl1).
  destruct (Forall2_lookup_r _ _ _ _ _ Hall He2) as (l2 & _ & _ & _ & Hl2).
  set (t1 := e_trans e1) in *. set (t2 := e_trans e2) in *.
  assert (Ht1 : 0 < length t1).
  { destruct (tag_trans_inv _ _ Hl1) as (Hne & Hlen1 & _). rewrite Hlen1.
    destruct (e_trans l1); [done|simpl; lia]. }
  assert (Hsym : ∀ s' tok, (s' = s1 ∨ s' = s2) → tok ∈ s' →
            ∃ n, tok = disambig_name n).
  { intros s' tok [->| ->] Hin; unfold s1, s2 in Hin;
      repeat case_decide; try (by apply elem_of_nil in Hin);
      apply list_elem_of_singleton in Hin; eauto. }
  destruct (Nat.lt_trichotomy (length t1) (length t2)) as [Hlt|[Heq|Hgt]].
  - (* the last token of [t1] would be an inner token of [t2] *)
    destruct (lookup_lt_is_Some_2 t1 (length t1 - 1)) as [tok Htok]; [lia|].
    assert (Htok2 : t2 !! (length t1 - 1) = Some tok).
    { assert (H2 : (t2 ++ s2) !! (length t1 - 1) = Some tok).
      { rewrite Hpre, <- app_assoc, lookup_app_l by lia. done. }
      by rewrite lookup_app_l in H2 by lia. }
    destruct (tagged_token_last _ _ _ _ Hl1 Htok) as (c & Hc & _ & Hlast).
    destruct (tagged_token_last _ _ _ _ Hl2 Htok2) as (c2 & Hc2 & _ & Hlast2).
    assert (c2 = c) as -> by congruence.
    assert (Hse : c = "S"%char ∨ c = "E"%char) by by apply Hlast.
    apply Hlast2 in Hse. lia.
  - (* same tagged transcription: the symbols would have to agree *)
    assert (Ht : t1 = t2 ∧ s1 ++ k = s2).
    { apply app_inj_1; [done|]. by rewrite app_assoc. }
    destruct Ht as [Ht Hs].
    assert (Hx : pron_string e1 = pron_string e2)
      by (unfold pron_string; fold t1 t2; by rewrite Ht).
    assert (Hocc : 2 ≤ occ tagged (pron_string e1)).
    { destruct (decide (i < j)).
      - by apply (occ_two tagged i j e1 e2).
      - apply (occ_two tagged j i e2 e1); (done || lia). }
    assert (Hnp : ¬ plain (count_pass tagged) (prefix_pass tagged) (pron_string e1)).
    { intros [_ Hc]. rewrite count_pass_lookup in Hc. case_decide; [done|].
      injection Hc as Hc. lia. }
    unfold s1, s2 in Hs. rewrite <- Hx in Hs.
    rewrite !decide_False in Hs by done.
    apply (f_equal (fun l => default "" (head l))) in Hs. cbn [app head default] in Hs.
    apply disambig_name_inj in Hs.
    destruct (decide (i < j)).
    + pose proof (occ_take_lt tagged i j e2 (pron_string e1) ltac:(lia) He2
                    (eq_sym Hx)). lia.
    + pose proof (occ_take_lt tagged j i e1 (pron_string e1) ltac:(lia) He1
                    eq_refl). lia.
  - (* a token of [t1] would be a symbol, or missing *)
    destruct (lookup_lt_is_Some_2 t1 (length t2)) as [tok Htok]; [lia|].
    assert (H2 : (t2 ++ s2) !! (length t2) = Some tok).
    { rewrite Hpre, <- app_assoc, lookup_app_l by lia. done. }
    rewrite lookup_app_r, Nat.sub_diag in H2 by lia.
    destruct (Hsym s2 tok) as [n ->]; [by right| |].
    { apply list_elem_of_lookup. eauto. }
    destruct (tagged_token_last _ _ _ _ Hl1 Htok) as (c & Hc & Hletter & _).
    destruct (last_char_disambig_name n) as [d Hd].
    apply (digit_is_no_tag d c Hletter). congruence.
Qed.

Lemma disambiguated_lexicon_is_prefix_free_witness :
  ¬ ["x_S"; "#1"] `prefix_of` ["x_S"; "#2"].
Proof.
  apply (disambiguated_lexicon_is_prefix_free
           [("a", 0%R, ["x"]); ("b", 0%R, ["x"])]
           [("a", 0%R, ["x_S"]); ("b", 0%R, ["x_S"])]
           [("a", 0%R, ["x_S"; "#1"]); ("b", 0%R, ["x_S"; "#2"])] 3
           eq_refl eq_refl 0 1 ("a", 0%R, ["x_S"; "#1"]) ("b", 0%R, ["x_S"; "#2"]));
    [lia|reflexivity|reflexivity].
Defined.

(** ** The shape of the written graph *)

Lemma finals_app (l1 l2 : list line) :
  finals (l1 ++ l2) = finals l1 ++ finals l2.
Proof. unfold finals. by rewrite omap_app. Qed.

Lemma finals_lexicon_lines (loop_state sil_state : nat) (sil_cost no_sil_cost : R)
    (lexicon : list entry) (next : nat) :
  finals (lexicon_lines loop_state sil_state sil_cost no_sil_cost next lexicon) = [].
Proof.
  revert next. induction lexicon as [|e rest IH]; intros next; [done|].
  cbn [lexicon_lines]. rewrite finals_app, IH, app_nil_r.
  unfold entry_lines. rewrite finals_app. cbn.
  rewrite app_nil_r. induction (seq 0 (length (e_trans e) - 1)); [done|].
  by cbn.
Qed.

Lemma finals_graph_lines (lexicon : list entry) (sil_prob : R) (sil_phone : string)
    (sil_disambig : option string) :
  finals (graph_lines lexicon sil_prob sil_phone sil_disambig) = [].
Proof.
  unfold graph_lines. rewrite !finals_app, finals_lexicon_lines.
  by destruct sil_disambig.
Qed.

(** The file after a call with a silence probability in range: the graph
    lines, and the final line exactly when the call returns. *)
Lemma write_fst_with_silence_file (lexicon : list entry) (sil_prob : R)
    (sil_phone : string) (sil_disambig : option string)
    (nonterminals left_context_phones : option (list string)) (s : streams) :
  (0 < sil_prob < 1)%R →
  ∃ f o r,
    write_fst_with_silence lexicon sil_prob sil_phone sil_disambig
      nonterminals left_context_phones s
    = (write_to s (graph_lines lexicon sil_prob sil_phone sil_disambig ++ f) o, r)
    ∧ ((f = [] ∧ ∃ e, r = Raise e) ∨ (f = [Final 1 0] ∧ r = Ok ())).
Proof.
  intros Hp.
  destruct nonterminals as [nts|]; [destruct left_context_phones as [[|ph lcp]|]|].
  - exists [], (nonterminal_head 0 1 (lexicon_next (first_free sil_disambig) lexicon) nts),
      (Raise ZeroDivisionError).
    split; [|left; eauto].
    rewrite write_fst_with_silence_eq by done. unfold ebind.
    by rewrite write_nonterminal_arcs_empty, write_to_write_to, !app_nil_r.
  - eexists [Final 1 0], _, (Ok ()). split; [|right; eauto].
    by rewrite write_fst_with_silence_nonterminals.
  - exists [], (nonterminal_head 0 1 (lexicon_next (first_free sil_disambig) lexicon) nts),
      (Raise TypeError).
    split; [|left; eauto].
    rewrite write_fst_with_silence_eq by done. unfold ebind.
    by rewrite write_nonterminal_arcs_none, write_to_write_to, !app_nil_r.
  - exists [Final 1 0], [], (Ok ()). split; [|right; eauto].
    by rewrite write_fst_with_silence_plain.
Qed.

(** X6: What [write_fst_with_silence] leaves behind, for a silence probability
    in range: the graph lines are always written to the file.  Without
    nonterminals the final line follows and the left-context phones are not
    looked at.  With nonterminals and at least one left-context phone the
    final line follows too and the extension is printed.  With nonterminals
    and no left-context phone the call raises [ZeroDivisionError], with
    [None] for them [TypeError]; the file is then left without its final
    line and the head of the extension stays printed. *)
Theorem write_fst_with_silence_outcome (lexicon : list entry) (sil_prob : R)
    (sil_phone : string) (sil_disambig : option string)
    (nonterminals left_context_phones : option (list string)) (s : streams) :
  (0 < sil_prob < 1)%R →
  let graph := graph_lines lexicon sil_prob sil_phone sil_disambig in
  let next := lexicon_next (first_free sil_disambig) lexicon in
  write_fst_with_silence lexicon sil_prob sil_phone sil_disambig
    nonterminals left_context_phones s
  = match nonterminals, left_context_phones with
    | None, _ => (write_to s (graph ++ [Final 1 0]) [], Ok ())
    | Some nts, Some (ph :: lcp) =>
        (write_to s (graph ++ [Final 1 0])
           (nonterminal_lines 0 1 next nts (ph :: lcp)), Ok ())
    | Some nts, Some [] =>
        (write_to s graph (nonterminal_head 0 1 next nts),
         Raise ZeroDivisionError)
    | Some nts, None =>
        (write_to s graph (nonterminal_head 0 1 next nts), Raise TypeError)
    end.
Proof.
  intros Hp graph next.
  destruct nonterminals as [nts|].
  - destruct left_context_phones as [[|ph lcp]|].
    + rewrite write_fst_with_silence_eq by done. unfold ebind.
      by rewrite write_nonterminal_arcs_empty, write_to_write_to, app_nil_r.
    + by rewrite write_fst_with_silence_nonterminals.
    + rewrite write_fst_with_silence_eq by done. unfold ebind.
      by rewrite write_nonterminal_arcs_none, write_to_write_to, app_nil_r.
  - by rewrite write_fst_with_silence_plain.
Qed.

Lemma write_fst_with_silence_outcome_witness :
  write_fst_with_silence [("a", 0%R, ["x"])] (1 / 2) "sil" None
    (Some ["#nonterm:x"]) (Some []) no_output
  = (write_to no_output (graph_lines [("a", 0%R, ["x"])] (1 / 2) "sil" None)
       (nonterminal_head 0 1 3 ["#nonterm:x"]),
     Raise ZeroDivisionError).
Proof.
  apply (write_fst_with_silence_outcome [("a", 0%R, ["x"])] (1 / 2) "sil" None
           (Some ["#nonterm:x"]) (Some []) no_output).
  lra.
Defined.

(** X7: The file never holds more than one final-state line: when the call
    returns, the last line it wrote, and no other, is the final line of the
    loop state, with cost 0; when it raises, it wrote no final line. *)
Theorem file_ends_in_its_only_final_state (lexicon : list entry) (sil_prob : R)
    (sil_phone : string) (sil_disambig : option string)
    (nonterminals left_context_phones : option (list string)) (s : streams) :
  ∃ f o r,
    write_fst_with_silence lexicon sil_prob sil_phone sil_disambig
      nonterminals left_context_phones s = (write_to s f o, r)
    ∧ match r with
      | Ok _ => finals f = [(1, 0%R)] ∧ last f = Some (Final 1 0)
      | Raise _ => finals f = []
      end.
Proof.
  destruct (decide (0 < sil_prob < 1)%R) as [Hp|Hp].
  - destruct (write_fst_with_silence_file lexicon sil_prob sil_phone sil_disambig
                nonterminals left_context_phones s Hp)
      as (f & o & r & Heq & [[-> [e ->]] | [-> ->]]).
    + eexists _, _, _. split; [exact Heq|].
      rewrite app_nil_r. apply finals_graph_lines.
    + eexists _, _, _. split; [exact Heq|].
      by rewrite finals_app, last_snoc, finals_graph_lines.
  - exists [], [], (Raise AssertionError).
    rewrite write_fst_with_silence_assert by done. by rewrite write_to_nil.
Qed.

Lemma costs_leaving_cons_other (q src dest : nat) (ph wd : string) (c : R)
    (l : list line) :
  src ≠ q → costs_leaving q (Arc src dest ph wd c :: l) = costs_leaving q l.
Proof.
  intros Hq. unfold costs_leaving. cbn [omap list_omap].
  by rewrite decide_False.
Qed.

Lemma costs_leaving_lexicon_lines (q loop_state sil_state : nat)
    (sil_cost no_sil_cost : R) (lexicon : list entry) (next : nat) :
  q ≠ loop_state → q < next →
  costs_leaving q (lexicon_lines loop_state sil_state sil_cost no_sil_cost
                     next lexicon) = [].
Proof.
  intros Hq. revert next. induction lexicon as [|e rest IH]; intros next Hn; [done|].
  cbn [lexicon_lines]. rewrite costs_leaving_app, IH, app_nil_r by lia.
  unfold entry_lines. rewrite costs_leaving_app.
  assert (Hchain : ∀ l, costs_leaving q
            (chain_arc loop_state next (e_word e) (e_prob e) (e_trans e) <$> l) = []).
  { induction l as [|i l IHl]; [done|].
    rewrite fmap_cons. unfold chain_arc at 1.
    rewrite costs_leaving_cons_other; [done|]. case_decide; lia. }
  rewrite Hchain. unfold final_arcs.
  rewrite !costs_leaving_cons_other; [done|case_decide; lia..].
Qed.

(** X8: Whatever the lexicon, and whether the call returns or raises in the
    nonterminal extension, exactly two arcs of the file leave the start
    state: the two of the silence choice, with the costs
    [-log(1.0 - sil_prob)] and [-log(sil_prob)], in this order.  No arc of
    an entry leaves the start state. *)
Theorem start_state_has_two_arcs (lexicon : list entry) (sil_prob : R)
    (sil_phone : string) (sil_disambig : option string)
    (nonterminals left_context_phones : option (list string)) (s : streams) :
  (0 < sil_prob < 1)%R →
  ∃ f o r,
    write_fst_with_silence lexicon sil_prob sil_phone sil_disambig
      nonterminals left_context_phones s = (write_to s f o, r)
    ∧ take 2 f = [Arc 0 1 eps eps (- ln (1 - sil_prob));
                  Arc 0 2 eps eps (- ln sil_prob)]
    ∧ costs_leaving 0 f = [(- ln (1 - sil_prob))%R; (- ln sil_prob)%R].
Proof.
  intros Hp.
  assert (Hg : costs_leaving 0 (graph_lines lexicon sil_prob sil_phone sil_disambig)
               = [(- ln (1 - sil_prob))%R; (- ln sil_prob)%R]).
  { unfold graph_lines. rewrite !costs_leaving_app.
    rewrite costs_leaving_lexicon_lines; [|lia|destruct sil_disambig; simpl; lia].
    by destruct sil_disambig. }
  destruct (write_fst_with_silence_file lexicon sil_prob sil_phone sil_disambig
              nonterminals left_context_phones s Hp)
    as (f & o & r & Heq & Hf).
  eexists _, _, _. split; [exact Heq|]. split; [done|].
  rewrite costs_leaving_app, Hg.
  destruct Hf as [[-> _] | [-> _]]; by rewrite ?app_nil_r.
Qed.

Lemma start_state_has_two_arcs_witness :
  ∃ f o r,
    write_fst_with_silence [("a", 0%R, ["x"])] (1 / 2) "sil" None None None
      no_output = (write_to no_output f o, r)
    ∧ costs_leaving 0 f = [(- ln (1 - 1 / 2))%R; (- ln (1 / 2))%R].
Proof.
  destruct (start_state_has_two_arcs [("a", 0%R, ["x"])] (1 / 2) "sil" None None
              None no_output) as (f & o & r & Hrun & _ & Hcosts); [lra|].
  exists f, o, r. split; [exact Hrun|exact Hcosts].
Defined.

(** ** State numbers *)

Lemma fresh_dests_app (from : nat) (l1 l2 : list line) :
  fresh_dests from (l1 ++ l2) = fresh_dests from l1 ++ fresh_dests from l2.
Proof. unfold fresh_dests. by rewrite omap_app. Qed.

Lemma lexicon_next_cons (next : nat) (e : entry) (rest : list entry) :
  lexicon_next next (e :: rest)
  = lexicon_next (next + (length (e_trans e) - 1)) rest.
Proof. done. Qed.

Lemma fresh_dests_chain (from loop_state next : nat) (word : string) (weight : R)
    (pron : list string) (start n : nat) :
  from ≤ next →
  fresh_dests from (chain_arc loop_state next word weight pron <$> seq start n)
  = seq (next + start) n.
Proof.
  intros Hn. revert start. induction n as [|n IH]; intros start; [done|].
  cbn [seq fmap list_fmap]. unfold fresh_dests in *. cbn [omap list_omap].
  unfold chain_arc at 1. rewrite decide_True by lia.
  cbn [seq]. f_equal. rewrite IH. f_equal. lia.
Qed.

Lemma fresh_dests_lexicon_lines (from loop_state sil_state : nat)
    (sil_cost no_sil_cost : R) (lexicon : list entry) (next : nat) :
  loop_state < from → sil_state < from → from ≤ next →
  fresh_dests from (lexicon_lines loop_state sil_state sil_cost no_sil_cost
                      next lexicon)
  = seq next (lexicon_next next lexicon - next).
Proof.
  intros Hl Hs. revert next.
  induction lexicon as [|e rest IH]; intros next Hn.
  - unfold lexicon_next. cbn. by rewrite Nat.sub_diag.
  - cbn [lexicon_lines]. rewrite lexicon_next_cons.
    rewrite fresh_dests_app, IH by lia.
    unfold entry_lines. rewrite fresh_dests_app, fresh_dests_chain by done.
    assert (Hfin : fresh_dests from
              (final_arcs loop_state sil_state sil_cost no_sil_cost next
                 (e_word e) (e_prob e) (e_trans e)) = []).
    { unfold final_arcs, fresh_dests. cbn [omap list_omap].
      by rewrite !decide_False by lia. }
    rewrite Hfin, app_nil_r, Nat.add_0_r.
    pose proof (lexicon_next_ge rest (next + (length (e_trans e) - 1))).
    replace (lexicon_next (next + (length (e_trans e) - 1)) rest - next)
      with ((length (e_trans e) - 1)
            + (lexicon_next (next + (length (e_trans e) - 1)) rest
               - (next + (length (e_trans e) - 1)))) by lia.
    by rewrite seq_app.
Qed.

(** X9: The states from 3 on are numbered in the order in which the file first
    reaches them, without gaps, and each of them is the destination of
    exactly one arc: the chains of the entries never join before they return
    to the loop state or the silence state. *)
Theorem fresh_states_are_entered_once (lexicon : list entry) (sil_prob : R)
    (sil_phone : string) (sil_disambig : option string)
    (nonterminals left_context_phones : option (list string)) (s : streams) :
  (0 < sil_prob < 1)%R →
  ∃ f o r,
    write_fst_with_silence lexicon sil_prob sil_phone sil_disambig
      nonterminals left_context_phones s = (write_to s f o, r)
    ∧ fresh_dests 3 f
      = seq 3 (lexicon_next (first_free sil_disambig) lexicon - 3).
Proof.
  intros Hp.
  destruct (write_fst_with_silence_file lexicon sil_prob sil_phone sil_disambig
              nonterminals left_context_phones s Hp)
    as (f & o & r & Heq & Hf).
  eexists _, _, _. split; [exact Heq|].
  assert (Hf' : fresh_dests 3 f = [])
    by (destruct Hf as [[-> _] | [-> _]]; done).
  rewrite fresh_dests_app, Hf', app_nil_r.
  unfold graph_lines. rewrite !fresh_dests_app.
  rewrite fresh_dests_lexicon_lines; [|lia|lia|destruct sil_disambig; simpl; lia].
  pose proof (lexicon_next_ge lexicon (first_free sil_disambig)) as Hge.
  destruct sil_disambig as [d|]; cbn [first_free] in *.
  - change (fresh_dests 3 [Arc 0 1 eps eps (- ln (1 - sil_prob));
                           Arc 0 2 eps eps (- ln sil_prob)]) with (@nil nat).
    change (fresh_dests 3 (silence_lines sil_phone (Some d))) with [3].
    replace (lexicon_next 4 lexicon - 3) with (1 + (lexicon_next 4 lexicon - 4))
      by lia.
    by rewrite seq_app.
  - done.
Qed.

Lemma fresh_states_are_entered_once_witness :
  ∃ f o r,
    write_fst_with_silence [("a", 0%R, ["x"; "y"; "z"]); ("b", 0%R, ["x"; "y"])]
      (1 / 2) "sil" None None None no_output = (write_to no_output f o, r)
    ∧ fresh_dests 3 f = [3; 4; 5].
Proof.
  apply (fresh_states_are_entered_once
           [("a", 0%R, ["x"; "y"; "z"]); ("b", 0%R, ["x"; "y"])]
           (1 / 2) "sil" None None None no_output).
  lra.
Defined.

(** ** The cost of an entry *)

Lemma total_cost_app (l1 l2 : list line) :
  total_cost (l1 ++ l2) = (total_cost l1 + total_cost l2)%R.
Proof.
  induction l1 as [|l l1 IH]; cbn [app total_cost foldr].
  - unfold total_cost. cbn. lra.
  - unfold total_cost in *. rewrite IH. lra.
Qed.

Lemma total_cost_chain_tail (loop_state next : nat) (word : string) (weight : R)
    (pron : list string) (start n : nat) :
  0 < start →
  total_cost (chain_arc loop_state next word weight pron <$> seq start n) = 0%R.
Proof.
  revert start. induction n as [|n IH]; intros start Hs; [done|].
  cbn [seq fmap list_fmap]. unfold total_cost in *. cbn [foldr].
  rewrite IH by lia. unfold chain_arc. cbn [cost_of].
  rewrite decide_False by lia. lra.
Qed.

(** X10: The weight of an entry is charged exactly once on each of its two
    paths, whatever the length of the transcription: the arcs [write_entry]
    writes are a chain followed by two closing arcs, and the costs along
    the chain and one closing arc add up to the weight plus the cost of
    going on without silence, or plus the cost of going on with silence. *)
Theorem entry_weight_is_charged_once (loop_state sil_state : nat)
    (sil_cost no_sil_cost : R) (next : nat) (word : string) (weight : R)
    (pron : list string) (s : streams) :
  ∃ chain to_loop to_sil,
    write_entry loop_state sil_state sil_cost no_sil_cost next
      (word, weight, pron) s
    = (write_to s (chain ++ [to_loop; to_sil]) [],
       Ok (next + (length pron - 1)))
    ∧ length chain = length pron - 1
    ∧ total_cost (chain ++ [to_loop]) = (weight + no_sil_cost)%R
    ∧ total_cost (chain ++ [to_sil]) = (weight + sil_cost)%R.
Proof.
  eexists _, _, _. split; [apply write_entry_eq|].
  cbn [e_word e_prob e_trans fst snd].
  split; [by rewrite length_fmap, length_seq|].
  rewrite !total_cost_app.
  destruct (length pron - 1) as [|n] eqn:Hn.
  - rewrite !decide_True by lia. unfold total_cost.
    cbn [seq fmap list_fmap foldr cost_of]. split; lra.
  - rewrite !decide_False by lia. cbn [seq fmap list_fmap].
    unfold total_cost at 1 3. cbn [foldr].
    fold (total_cost (chain_arc loop_state next word weight pron <$> seq 1 n)).
    rewrite total_cost_chain_tail by lia.
    unfold chain_arc, total_cost. cbn [foldr cost_of].
    rewrite !decide_True by done. split; lra.
Qed.

(** ** The files of the registry *)

Lemma dict_get_set {V : Type} (d : list (string * V)) (k : string) (v : V) :
  dict_get (dict_set d k v) k = Ok v.
Proof.
  induction d as [|[k' v'] d IH]; cbn [dict_set dict_get].
  - by rewrite decide_True.
  - case_decide; cbn [dict_get]; [by rewrite decide_True|].
    by rewrite decide_False.
Qed.

Lemma dict_get_set_ne {V : Type} (d : list (string * V)) (k k' : string) (v : V) :
  k ≠ k' → dict_get (dict_set d k v) k' = dict_get d k'.
Proof.
  intros Hne. induction d as [|[k0 v0] d IH]; cbn [dict_set dict_get].
  - by rewrite decide_False.
  - destruct (decide (k0 = k)) as [->|Hk]; cbn [dict_get].
    + by rewrite !decide_False.
    + case_decide; [done|exact IH].
Qed.

Lemma dict_get_elem {V : Type} (d : list (string * V)) (k : string) (v : V) :
  dict_get d k = Ok v → (k, v) ∈ d.
Proof.
  induction d as [|[k' v'] d IH]; cbn [dict_get]; [done|].
  case_decide as Hk.
  - intros [= ->]. subst k'. apply list_elem_of_here.
  - intros H. apply list_elem_of_further. by apply IH.
Qed.

Lemma foldl_assign_count (names : list string) (st : list (string * nat) * nat) :
  (foldl assign st names).2 = st.2 + length names.
Proof.
  revert st. induction names as [|k names IH]; intros st; cbn [foldl length].
  - lia.
  - rewrite IH. unfold assign. cbn [snd]. lia.
Qed.

Lemma foldl_assign_get_other (names : list string) (st : list (string * nat) * nat)
    (k : string) :
  k ∉ names → dict_get (foldl assign st names).1 k = dict_get st.1 k.
Proof.
  revert st. induction names as [|k' names IH]; intros st Hk; [done|].
  apply not_elem_of_cons in Hk as [Hne Hk]. cbn [foldl]. rewrite IH by done.
  unfold assign. cbn [fst]. by apply dict_get_set_ne.
Qed.

(** A key gets the value of the counter at its last assignment. *)
Lemma foldl_assign_get_last (pre post : list string) (k : string)
    (st : list (string * nat) * nat) :
  k ∉ post →
  dict_get (foldl assign st (pre ++ k :: post)).1 k = Ok (st.2 + length pre).
Proof.
  intros Hk. rewrite foldl_app. cbn [foldl].
  rewrite foldl_assign_get_other by done.
  unfold assign at 1. cbn [fst]. by rewrite dict_get_set, foldl_assign_count.
Qed.

Lemma for_each_collect {A B : Type} (get : A → result B) (g : A → B)
    (l : list A) (acc : list B) :
  (∀ x, x ∈ l → get x = Ok (g x)) →
  for_each l (fun acc x => d <- get x ;; Ok (acc ++ [d])%list) acc
  = Ok (acc ++ (g <$> l)).
Proof.
  revert acc. induction l as [|x l IH]; intros acc Hget; cbn [for_each].
  - by rewrite app_nil_r.
  - rewrite (Hget x) by apply list_elem_of_here. cbn [rbind].
    rewrite IH by (intros y Hy; apply Hget; by apply list_elem_of_further).
    by rewrite fmap_cons, <- app_assoc.
Qed.

Lemma length_bind_const {A B : Type} (f : A → list B) (n : nat) (l : list A) :
  (∀ x, length (f x) = n) → length (l ≫= f) = n * length l.
Proof.
  intros Hf. induction l as [|x l IH]; cbn [length]; [cbn; lia|].
  rewrite bind_cons, length_app, Hf, IH. lia.
Qed.

(** The id of [#i] in the phone table, whatever the phone names are. *)
Lemma disambig_id (silence_phones nonsilence_phones : list string) (m i : nat) :
  i ≤ m →
  dict_get (build_phone_map silence_phones nonsilence_phones m).1 (disambig_name i)
  = Ok (1 + 5 * length silence_phones + 4 * length nonsilence_phones + i).
Proof.
  intros Hi. rewrite build_phone_map_foldl. unfold phone_names.
  replace (m + 1) with (i + S (m - i)) by lia.
  rewrite seq_app, fmap_app. cbn [seq]. rewrite fmap_cons, Nat.add_0_l.
  rewrite !app_comm_cons, !app_assoc.
  rewrite foldl_assign_get_last.
  - f_equal. cbn [fst snd]. rewrite !length_app. cbn [length].
    rewrite length_fmap, length_seq.
    rewrite (length_bind_const _ 5), (length_bind_const _ 4) by done. lia.
  - intros Hin. apply list_elem_of_fmap in Hin as (j & Hj & Hjin).
    apply disambig_name_inj in Hj. apply elem_of_seq in Hjin. lia.
Qed.

Lemma prepare_lexicon_inv_files (lexicon : list entry)
    (silence_phones nonsilence_phones : list string)
    (optional_silence oov : string) (r : prepared) :
  prepare_lexicon lexicon silence_phones nonsilence_phones optional_silence oov
    = Ok r →
  ∃ tagged aug m,
    tag_lexicon lexicon = Ok tagged
    ∧ add_disambig tagged = Ok (aug, m)
    ∧ phones_txt r = (build_phone_map silence_phones nonsilence_phones m).1
    ∧ disambig_ints (build_phone_map silence_phones nonsilence_phones m).1 m
      = Ok (disambig_int r)
    ∧ word_boundary_int r = word_boundary_lines silence_phones nonsilence_phones
    ∧ printed r = [].
Proof.
  rewrite prepare_lexicon_eq.
  destruct (check_phones _ _ _); [|discriminate]. cbn [rbind].
  destruct (tag_lexicon lexicon) as [tagged|] eqn:Htag; [|discriminate].
  cbn [rbind].
  destruct (add_disambig tagged) as [[aug m]|] eqn:Hdis; [|discriminate].
  cbn [rbind fst snd].
  destruct (disambig_ints _ _) as [ds|] eqn:Hds; [|discriminate]. cbn [rbind].
  intros H. injection H as <-. exists tagged, aug, m. done.
Qed.

(** X12: [disambig.int] always lists [m + 1] consecutive ids, those of [#0] to
    [#m] for the incremented maximum [m], starting right after the ids of the
    phones, at [1 + 5 |silence_phones| + 4 |nonsilence_phones|]; and
    [phones.txt] has each [#i] under that id.  This holds whatever the
    phone names are, also when two names of the table coincide. *)
Theorem disambig_int_is_a_run (lexicon : list entry)
    (silence_phones nonsilence_phones : list string)
    (optional_silence oov : string) (r : prepared) :
  prepare_lexicon lexicon silence_phones nonsilence_phones optional_silence oov
    = Ok r →
  let first := 1 + 5 * length silence_phones + 4 * length nonsilence_phones in
  ∃ tagged aug m,
    tag_lexicon lexicon = Ok tagged
    ∧ add_disambig tagged = Ok (aug, m)
    ∧ disambig_int r = seq first (m + 1)
    ∧ ∀ i, i ≤ m → (disambig_name i, first + i) ∈ phones_txt r.
Proof.
  intros Hrun first.
  destruct (prepare_lexicon_inv_files _ _ _ _ _ _ Hrun)
    as (tagged & aug & m & Htag & Hdis & Hph & Hds & _).
  exists tagged, aug, m. split; [done|]. split; [done|]. split.
  - unfold disambig_ints in Hds.
    rewrite (for_each_collect
               (fun i => dict_get (build_phone_map silence_phones nonsilence_phones m).1
                           (disambig_name i))
               (Nat.add first)) in Hds.
    + assert (Hr : disambig_int r
                   = [] ++ (Nat.add first <$> range (Z.of_nat m + 1)))
        by congruence.
      rewrite Hr. cbn [app]. unfold range.
      replace (Z.to_nat (Z.of_nat m + 1)) with (m + 1) by lia.
      rewrite fmap_add_seq. f_equal. lia.
    + intros i Hi. unfold range in Hi. apply elem_of_seq in Hi.
      apply disambig_id. lia.
  - intros i Hi. rewrite Hph. apply dict_get_elem. by apply disambig_id.
Qed.

Lemma disambig_int_is_a_run_witness :
  [10; 11; 12; 13] = seq (1 + 5 * 1 + 4 * 1) (3 + 1)
  ∧ ∀ i, i ≤ 3 →
      (disambig_name i, 1 + 5 * 1 + 4 * 1 + i)
      ∈ [("<eps>", 0); ("sil", 1); ("sil_B", 2); ("sil_E", 3); ("sil_S", 4);
         ("sil_I", 5); ("x_B", 6); ("x_E", 7); ("x_S", 8); ("x_I", 9);
         ("#0", 10); ("#1", 11); ("#2", 12); ("#3", 13)].
Proof.
  destruct (disambig_int_is_a_run _ _ _ _ _ _ prepare_lexicon_two_words)
    as (tagged & aug & m & Htag & Hdis & Hds & Hin).
  vm_compute in Htag. injection Htag as <-.
  vm_compute in Hdis. injection Hdis as <- <-.
  split; [exact Hds|exact Hin].
Defined.

(** ** [word_boundary.int] *)

Lemma foldl_write_lines (bs : list string) (st : list (nat * string) * nat) :
  foldl (fun (st : list (nat * string) * nat) (b : string) =>
           ((st.1 ++ [(st.2, b)])%list, st.2 + 1)) st bs
  = (st.1 ++ zip (seq st.2 (length bs)) bs, st.2 + length bs).
Proof.
  revert st. induction bs as [|b bs IH]; intros [ls c]; cbn [foldl length seq zip zip_with fst snd].
  - by rewrite app_nil_r, Nat.add_0_r.
  - rewrite IH. cbn [fst snd]. rewrite <- app_assoc. cbn [app].
    rewrite Nat.add_1_r. f_equal. lia.
Qed.

Lemma foldl_blocks {A : Type} (bs : list string) (l : list A)
    (st : list (nat * string) * nat) :
  foldl (fun st (_ : A) =>
           foldl (fun (st : list (nat * string) * nat) (b : string) =>
                    ((st.1 ++ [(st.2, b)])%list, st.2 + 1)) st bs) st l
  = (st.1 ++ zip (seq st.2 (length (l ≫= fun _ => bs))) (l ≫= fun _ => bs),
     st.2 + length (l ≫= fun _ => bs)).
Proof.
  revert st. induction l as [|x l IH]; intros [ls c].
  - cbn. by rewrite app_nil_r, Nat.add_0_r.
  - cbn [foldl]. rewrite foldl_write_lines, IH. cbn [fst snd].
    rewrite bind_cons, length_app, seq_app.
    rewrite zip_with_app by by rewrite length_seq.
    rewrite <- app_assoc. f_equal. lia.
Qed.

Lemma bind_const_length {A B C : Type} (bs : list C) (l : list A) (l' : list B) :
  length l = length l' → (l ≫= fun _ => bs) = (l' ≫= fun _ => bs).
Proof.
  revert l'. induction l as [|x l IH]; intros [|y l'] Hlen; try done.
  rewrite !bind_cons. f_equal. apply IH. by injection Hlen.
Qed.

Lemma zip_bind {A B C : Type} (f : A → list B) (bs : list C) (l : list A) :
  (∀ x, length (f x) = length bs) →
  zip (l ≫= f) (l ≫= fun _ => bs) = l ≫= fun x => zip (f x) bs.
Proof.
  intros Hf. induction l as [|x l IH]; [done|].
  rewrite !bind_cons, zip_with_app by apply Hf. by rewrite IH.
Qed.

(** The closed form of the lines: the labels of the blocks, numbered
    from 1. *)
Lemma word_boundary_lines_eq (silence_phones nonsilence_phones : list string) :
  let labels :=
    (silence_phones ≫= fun _ => ["nonword"; "begin"; "end"; "singleton"; "internal"])
    ++ (nonsilence_phones ≫= fun _ => ["begin"; "end"; "singleton"; "internal"]) in
  word_boundary_lines silence_phones nonsilence_phones
  = zip (seq 1 (length labels)) labels.
Proof.
  intros labels. unfold word_boundary_lines.
  rewrite (foldl_blocks ["nonword"; "begin"; "end"; "singleton"; "internal"]).
  rewrite (foldl_blocks ["begin"; "end"; "singleton"; "internal"]).
  cbn [fst snd app]. unfold range. rewrite !Nat2Z.id.
  rewrite (bind_const_length _ (seq 0 (length silence_phones)) silence_phones)
    by by rewrite length_seq.
  rewrite (bind_const_length _ (seq 0 (length nonsilence_phones)) nonsilence_phones)
    by by rewrite length_seq.
  unfold labels. rewrite length_app, seq_app.
  by rewrite zip_with_app by by rewrite length_seq.
Qed.

(** X13: [word_boundary.int] goes with the phone table: its lines are numbered
    from 1 to [5 |silence_phones| + 4 |nonsilence_phones|] without a gap,
    and the line with number [id] carries the label of the form of the name
    that is the [id]-th one assigned in the phone table: [nonword] for a
    plain silence phone, [begin], [end], [singleton] and [internal] for the
    forms [_B], [_E], [_S] and [_I] of a phone. *)
Theorem word_boundary_follows_phone_table
    (silence_phones nonsilence_phones : list string) (m : nat) :
  let lines := word_boundary_lines silence_phones nonsilence_phones in
  let table := phone_names silence_phones nonsilence_phones m in
  lines.*1 = seq 1 (5 * length silence_phones + 4 * length nonsilence_phones)
  ∧ ∀ id b, (id, b) ∈ lines →
      ∃ name, table !! id = Some name
        ∧ ((b = "nonword" ∧ name ∈ silence_phones)
           ∨ ∃ ph, (ph ∈ silence_phones ∨ ph ∈ nonsilence_phones)
                   ∧ ((b = "begin" ∧ name = ph +:+ "_B")
                      ∨ (b = "end" ∧ name = ph +:+ "_E")
                      ∨ (b = "singleton" ∧ name = ph +:+ "_S")
                      ∨ (b = "internal" ∧ name = ph +:+ "_I"))).
Proof.
  intros lines table. unfold lines. rewrite word_boundary_lines_eq.
  set (f5 := fun ph : string =>
               [ph; ph +:+ "_B"; ph +:+ "_E"; ph +:+ "_S"; ph +:+ "_I"]).
  set (f4 := fun ph : string =>
               [ph +:+ "_B"; ph +:+ "_E"; ph +:+ "_S"; ph +:+ "_I"]).
  set (l5 := ["nonword"; "begin"; "end"; "singleton"; "internal"]).
  set (l4 := ["begin"; "end"; "singleton"; "internal"]).
  set (labels := (silence_phones ≫= fun _ => l5) ++ (nonsilence_phones ≫= fun _ => l4)).
  set (names := (silence_phones ≫= f5) ++ (nonsilence_phones ≫= f4)).
  assert (Hlen : length labels = 5 * length silence_phones + 4 * length nonsilence_phones).
  { unfold labels. rewrite length_app.
    by rewrite (length_bind_const _ 5), (length_bind_const _ 4). }
  assert (Hlen' : length names = length labels).
  { rewrite Hlen. unfold names. rewrite length_app.
    by rewrite (length_bind_const _ 5), (length_bind_const _ 4). }
  assert (Hzip : zip names labels
                 = (silence_phones ≫= fun ph => zip (f5 ph) l5)
                   ++ (nonsilence_phones ≫= fun ph => zip (f4 ph) l4)).
  { unfold names, labels. rewrite zip_with_app.
    - by rewrite !zip_bind.
    - by rewrite (length_bind_const _ 5), (length_bind_const _ 5). }
  split.
  - rewrite fst_zip; [by rewrite Hlen|]. by rewrite length_seq.
  - intros id b Hin. apply list_elem_of_lookup in Hin as [i Hi].
    apply lookup_zip_with_Some in Hi as (id' & b' & Heq & Hid & Hb).
    injection Heq as <- <-.
    apply lookup_seq in Hid as [-> Hilt].
    destruct (lookup_lt_is_Some_2 names i) as [name Hname]; [lia|].
    exists name. split.
    { unfold table, phone_names. fold f5 f4. rewrite app_assoc. fold names.
      exact (lookup_app_l_Some names _ i name Hname). }
    assert (Hpair : (name, b) ∈ zip names labels).
    { apply list_elem_of_lookup. exists i. apply lookup_zip_with_Some. eauto. }
    rewrite Hzip in Hpair. apply elem_of_app in Hpair as [Hpair|Hpair];
      apply list_elem_of_bind in Hpair as (ph & Hpair & Hph);
      unfold f5, f4, l5, l4 in Hpair; cbn [zip zip_with] in Hpair;
      repeat (apply elem_of_cons in Hpair as [[= -> ->]|Hpair]);
      try (by apply elem_of_nil in Hpair); eauto 10.
Qed.

(** ** The labels of the arcs and the symbol tables *)

Lemma add_disambig_entries (lexicon aug : list entry) (m : nat) :
  add_disambig lexicon = Ok (aug, m) →
  ∀ i e', aug !! i = Some e' →
    ∃ e, lexicon !! i = Some e
         ∧ (e' = e
            ∨ ∃ n, e' = (e_word e, e_prob e, e_trans e ++ [disambig_name n])
                   ∧ 1 ≤ n < m).
Proof.
  intros Hrun.
  destruct (choose_all_shape (count_pass lexicon) (prefix_pass lexicon)
              (pron_string <$> lexicon) disambig_init)
    as (st' & syms & Hall & Hlen & _).
  { intros x Hx. by apply count_pass_is_Some. }
  destruct (choose_all_fresh _ _ _ _ _ _ bounded_init Hall)
    as (_ & _ & _ & Hs & _ & _).
  rewrite length_fmap in Hlen.
  rewrite add_disambig_choose, Hall in Hrun. cbn [rbind fst snd] in Hrun.
  injection Hrun as <- <-.
  intros i e' Hi'.
  pose proof (lookup_lt_Some _ _ _ Hi') as Hlt.
  rewrite length_zip_with in Hlt.
  destruct (lookup_lt_is_Some_2 lexicon i) as [e Hi]; [lia|].
  destruct (lookup_lt_is_Some_2 syms i) as [o Ho]; [lia|].
  exists e. split; [done|].
  assert (He' : Some e' = Some (with_symbol e o))
    by (etrans; [symmetry; exact Hi'|];
        exact (with_symbol_lookup lexicon syms i e o Hi Ho)).
  injection He' as ->. destruct o as [n|]; [|by left].
  right. exists n. split; [done|]. destruct (Hs i n Ho) as (? & ? & _). lia.
Qed.

Lemma lexicon_lines_labels (loop_state sil_state : nat) (sil_cost no_sil_cost : R)
    (lexicon : list entry) (next : nat) (src dest : nat) (ph wd : string) (c : R) :
  Arc src dest ph wd c
    ∈ lexicon_lines loop_state sil_state sil_cost no_sil_cost next lexicon →
  ∃ e, e ∈ lexicon ∧ (ph = eps ∨ ph ∈ e_trans e) ∧ (wd = eps ∨ wd = e_word e).
Proof.
  revert next. induction lexicon as [|e rest IH]; intros next Hin.
  - by apply elem_of_nil in Hin.
  - cbn [lexicon_lines] in Hin. apply elem_of_app in Hin as [Hin|Hin].
    + exists e. split; [apply list_elem_of_here|].
      assert (Htok : ∀ i, default eps (e_trans e !! i) = eps
                          ∨ default eps (e_trans e !! i) ∈ e_trans e).
      { intros i. destruct (e_trans e !! i) as [t|] eqn:Ht; [|by left].
        right. by apply list_elem_of_lookup_2 in Ht. }
      unfold entry_lines in Hin. apply elem_of_app in Hin as [Hin|Hin].
      * apply list_elem_of_fmap in Hin as (i & Heq & _).
        unfold chain_arc in Heq. injection Heq as _ _ -> -> _.
        split; [apply Htok|]. case_decide; eauto.
      * unfold final_arcs in Hin.
        apply elem_of_cons in Hin as [Heq|Hin];
          [|apply elem_of_cons in Hin as [Heq|Hin];
            [|by apply elem_of_nil in Hin]];
          injection Heq as _ _ -> -> _;
          (split; [apply Htok|case_decide; eauto]).
    + destruct (IH _ Hin) as (e' & He' & Hlab). exists e'.
      split; [by apply list_elem_of_further|done].
Qed.

(** The tokens of the lexicon after tagging and disambiguation: a phone of
    the caller's lexicon with one of the four tags, or a symbol [#n] with
    [n] at most the incremented maximum. *)
Lemma augmented_tokens (lexicon tagged aug : list entry) (m : nat) :
  tag_lexicon lexicon = Ok tagged → add_disambig tagged = Ok (aug, m) →
  ∀ e' tok, e' ∈ aug → tok ∈ e_trans e' →
    (∃ e ph tg, e ∈ lexicon ∧ ph ∈ e_trans e
                ∧ tg ∈ ["_B"; "_E"; "_S"; "_I"] ∧ tok = ph +:+ tg)
    ∨ (∃ n, n ≤ m ∧ tok = disambig_name n).
Proof.
  intros Htag Hdis e' tok He' Htok.
  apply list_elem_of_lookup in He' as [i Hi'].
  destruct (add_disambig_entries _ _ _ Hdis i e' Hi') as (et & Hit & Hcase).
  pose proof (tag_lexicon_inv _ _ Htag) as Hall.
  destruct (Forall2_lookup_r _ _ _ _ _ Hall Hit) as (e & Hi & _ & _ & Htr).
  assert (Htagged : ∀ t, t ∈ e_trans et →
            ∃ ph tg, ph ∈ e_trans e ∧ tg ∈ ["_B"; "_E"; "_S"; "_I"]
                     ∧ t = ph +:+ tg).
  { intros t Ht. apply list_elem_of_lookup in Ht as [j Hj].
    destruct (tag_trans_inv _ _ Htr) as (_ & Hlen & Hlook).
    pose proof (lookup_lt_Some _ _ _ Hj) as Hjlt.
    destruct (lookup_lt_is_Some_2 (e_trans e) j) as [ph Hph]; [lia|].
    rewrite (Hlook _ _ Hph) in Hj. injection Hj as <-.
    exists ph, (tag_of (length (e_trans e)) j).
    split; [by apply list_elem_of_lookup_2 in Hph|]. split; [|done].
    unfold tag_of. repeat case_decide; apply (bool_decide_unpack _); done. }
  assert (Hin : e ∈ lexicon) by by apply list_elem_of_lookup_2 in Hi.
  destruct Hcase as [-> | (n & -> & Hn)].
  - left. destruct (Htagged tok Htok) as (ph & tg & ? & ? & ?). eauto 10.
  - cbn [e_trans snd] in Htok. apply elem_of_app in Htok as [Htok|Htok].
    + left. destruct (Htagged tok Htok) as (ph & tg & ? & ? & ?). eauto 10.
    + apply list_elem_of_singleton in Htok. right. exists n. split; [lia|done].
Qed.

(** X15: Every label of the text given to the compiler is a key of the symbol
    table it is read with, provided the optional silence is one of the
    silence phones, the one label the code does not check: the input label
    of each arc is in the phone table and its output label in the word
    table. *)
Theorem arc_labels_are_in_the_tables (lexicon : list entry)
    (silence_phones nonsilence_phones : list string)
    (optional_silence oov : string) (r : prepared) :
  prepare_lexicon lexicon silence_phones nonsilence_phones optional_silence oov
    = Ok r →
  ∀ src dest ph wd c, Arc src dest ph wd c ∈ fst_text r →
    (optional_silence ∈ silence_phones ∨ ph ≠ optional_silence →
     ph ∈ (isyms r).*1)
    ∧ wd ∈ (osyms r).*1.
Proof.
  intros Hrun src dest ph wd c Harc.
  destruct (prepare_lexicon_inv _ _ _ _ _ _ Hrun)
    as (tagged & aug & m & Htag & Hdis & Hi & _ & Ho & _ & Htext).
  assert (Hdecl : ∀ e p, e ∈ lexicon → p ∈ e_trans e →
            p ∈ nonsilence_phones ∨ p ∈ silence_phones).
  { unfold prepare_lexicon in Hrun.
    destruct (check_phones_cases lexicon silence_phones nonsilence_phones)
      as [[_ H]|[H _]]; [done|]. by rewrite H in Hrun. }
  assert (Hkeys : ∀ k, k ∈ (isyms r).*1
                       ↔ k ∈ phone_names silence_phones nonsilence_phones m).
  { intros k. rewrite Hi, build_phone_map_foldl, foldl_assign_keys.
    cbn [fst fmap list_fmap]. rewrite elem_of_nil. tauto. }
  assert (Hwkeys : ∀ k, k ∈ (osyms r).*1
                        ↔ k ∈ word_names
                            (sorted (foldl (fun wordlist e => {[ e_word e ]} ∪ wordlist)
                                       ∅ aug))).
  { intros k. rewrite Ho, build_words_map_foldl, foldl_assign_keys.
    cbn [fst fmap list_fmap]. rewrite elem_of_nil. tauto. }
  assert (Heps : eps ∈ (isyms r).*1)
    by (apply Hkeys; unfold phone_names; apply list_elem_of_here).
  assert (Hweps : eps ∈ (osyms r).*1)
    by (apply Hwkeys; unfold word_names; apply list_elem_of_here).
  assert (Hform : ∀ p tg, (p ∈ nonsilence_phones ∨ p ∈ silence_phones) →
            tg ∈ ["_B"; "_E"; "_S"; "_I"] → p +:+ tg ∈ (isyms r).*1).
  { intros p tg Hp Htg. apply Hkeys. unfold phone_names.
    rewrite elem_of_cons, !elem_of_app. right.
    destruct Hp as [Hp|Hp]; [right; left|left];
      apply list_elem_of_bind; exists p; (split; [|done]);
      repeat (apply elem_of_cons in Htg as [-> | Htg]);
      try (by apply elem_of_nil in Htg);
      apply (bool_decide_unpack _); rewrite bool_decide_spec;
      rewrite !elem_of_cons; tauto. }
  rewrite Htext in Harc. apply elem_of_app in Harc as [Harc|Harc];
    [|apply list_elem_of_singleton in Harc; discriminate].
  unfold graph_lines in Harc.
  apply elem_of_app in Harc as [Harc|Harc];
    [|apply elem_of_app in Harc as [Harc|Harc]].
  - repeat (apply elem_of_cons in Harc as [Heq|Harc];
            [injection Heq as _ _ -> -> _; done|]).
    by apply elem_of_nil in Harc.
  - cbn [silence_lines] in Harc. apply list_elem_of_singleton in Harc.
    injection Harc as _ _ -> -> _. split; [|done].
    intros [Hsil|Hne]; [|done]. apply Hkeys. unfold phone_names.
    rewrite elem_of_cons, !elem_of_app. right. left.
    apply list_elem_of_bind. exists optional_silence. split; [|done].
    apply list_elem_of_here.
  - destruct (lexicon_lines_labels _ _ _ _ _ _ _ _ _ _ _ Harc)
      as (e' & He' & Hph & Hwd).
    split.
    + intros _. destruct Hph as [-> | Hph]; [done|].
      destruct (augmented_tokens _ _ _ _ Htag Hdis e' ph He' Hph)
        as [(e & p & tg & He & Hp & Htg & ->)|(n & Hn & ->)].
      * apply Hform; [by eapply Hdecl|done].
      * apply Hkeys. unfold phone_names.
        rewrite elem_of_cons, !elem_of_app. right. right. right.
        apply list_elem_of_fmap_2, elem_of_seq. lia.
    + destruct Hwd as [-> | ->]; [done|].
      apply Hwkeys. unfold word_names. rewrite elem_of_cons, elem_of_app.
      right. left. apply sorted_spec, wordlist_elem. right. eauto.
Qed.

Lemma arc_labels_are_in_the_tables_witness :
  "#1" ∈ ["<eps>"; "sil"; "sil_B"; "sil_E"; "sil_S"; "sil_I"; "x_B"; "x_E";
          "x_S"; "x_I"; "#0"; "#1"; "#2"; "#3"]
  ∧ "<eps>" ∈ ["<eps>"; "a"; "b"; "#0"; "<s>"; "</s>"].
Proof.
  destruct (arc_labels_are_in_the_tables _ _ _ _ _ _ prepare_lexicon_two_words
              3 1 "#1" "<eps>" (- ln (1 - 1 / 2) + 0)%R) as [Hph Hwd].
  - apply list_elem_of_lookup. by exists 4.
  - split; [|exact Hwd]. apply Hph. left. apply list_elem_of_here.
Defined.

(** ** The path of an entry *)

Lemma follow_app (q : nat) (l1 l2 : list line) :
  follow q (l1 ++ l2) = follow q l1 ≫= fun q' => follow q' l2.
Proof.
  revert q. induction l1 as [|[src dest ph wd c|st c] l1 IH]; intros q;
    cbn [app follow]; [done| |done].
  case_decide; [apply IH|done].
Qed.

Lemma follow_chain_tail (loop_state next : nat) (word : string) (weight : R)
    (pron : list string) (start n : nat) :
  0 < start →
  follow (next + start - 1)
    (chain_arc loop_state next word weight pron <$> seq start n)
  = Some (next + start + n - 1).
Proof.
  revert start. induction n as [|n IH]; intros start Hs.
  - cbn. f_equal. lia.
  - cbn [seq fmap list_fmap follow]. unfold chain_arc at 1.
    rewrite (decide_False (P := start = 0)) by lia.
    rewrite decide_True by done.
    replace (next + start) with (next + S start - 1) by lia.
    rewrite IH by lia. f_equal. lia.
Qed.

Lemma input_of_chain (loop_state next : nat) (word : string) (weight : R)
    (pron : list string) (n : nat) :
  n ≤ length pron →
  input_of <$> (chain_arc loop_state next word weight pron <$> seq 0 n)
  = take n pron.
Proof.
  intros Hn. apply list_eq. intros i.
  rewrite <- list_fmap_compose, list_lookup_fmap.
  destruct (decide (i < n)) as [Hi|Hi].
  - rewrite lookup_seq_lt by done. rewrite lookup_take_lt by done.
    destruct (lookup_lt_is_Some_2 pron i) as [ph Hph]; [lia|].
    cbn. by rewrite Hph.
  - rewrite lookup_seq_ge by lia. by rewrite lookup_take_ge by lia.
Qed.

Lemma output_of_chain_tail (loop_state next : nat) (word : string) (weight : R)
    (pron : list string) (start n : nat) :
  0 < start →
  output_of <$> (chain_arc loop_state next word weight pron <$> seq start n)
  = replicate n eps.
Proof.
  revert start. induction n as [|n IH]; intros start Hs; [done|].
  cbn [seq fmap list_fmap replicate]. rewrite IH by lia.
  unfold chain_arc at 1. cbn [output_of]. by rewrite decide_False by lia.
Qed.

(** X11: The arcs of an entry are two paths that share a chain: both leave the
    loop state, one comes back to it and the other ends in the silence
    state.  Along each of them the input labels spell the transcription (a
    single epsilon when it is empty) and the output labels are the word,
    once, on the first arc, and epsilon after it. *)
Theorem entry_paths_spell_the_entry (loop_state sil_state : nat)
    (sil_cost no_sil_cost : R) (next : nat) (word : string) (weight : R)
    (pron : list string) (s : streams) :
  ∃ chain to_loop to_sil,
    write_entry loop_state sil_state sil_cost no_sil_cost next
      (word, weight, pron) s
    = (write_to s (chain ++ [to_loop; to_sil]) [],
       Ok (next + (length pron - 1)))
    ∧ follow loop_state (chain ++ [to_loop]) = Some loop_state
    ∧ follow loop_state (chain ++ [to_sil]) = Some sil_state
    ∧ input_of <$> (chain ++ [to_loop])
      = (if decide (pron = []) then [eps] else pron)
    ∧ input_of to_sil = input_of to_loop
    ∧ output_of <$> (chain ++ [to_loop])
      = word :: replicate (length pron - 1) eps
    ∧ output_of to_sil = output_of to_loop.
Proof.
  eexists _, _, _. split; [apply write_entry_eq|].
  cbn [e_word e_prob e_trans fst snd].
  rewrite !follow_app, !fmap_app, input_of_chain by lia.
  cbn [fmap list_fmap input_of output_of].
  destruct pron as [|p0 pron]; [|destruct pron as [|p1 pron]].
  - cbn. rewrite !(decide_True (P := 0 ≤ 1)) by lia. by rewrite !decide_True.
  - cbn. rewrite !(decide_True (P := 1 ≤ 1)) by lia. rewrite !decide_True by done.
    by rewrite decide_False.
  - set (pr := p0 :: p1 :: pron).
    assert (Hlen : length pr = S (S (length pron))) by done.
    replace (length pr - 1) with (S (length pron)) by lia.
    cbn [seq fmap list_fmap follow]. unfold chain_arc at 1 3 5.
    cbn [output_of].
    rewrite !(decide_True (P := 0 = 0)) by done.
    rewrite !(decide_True (P := loop_state = loop_state)) by done.
    rewrite !(decide_False (P := length pr ≤ 1)) by lia.
    rewrite (decide_False (P := pr = [])) by done.
    replace (next + 0) with (next + 1 - 1) by lia.
    rewrite follow_chain_tail, output_of_chain_tail by lia.
    cbn [mbind option_bind follow].
    rewrite !(decide_True (P := next + length pr - 2 = next + 1 + length pron - 1))
      by lia.
    split; [done|]. split; [done|]. split.
    { destruct (lookup_lt_is_Some_2 pr (S (length pron))) as [ph Hph]; [lia|].
      rewrite Hph. cbn [default].
      etrans; [|apply (take_drop (S (length pron)) pr)]. f_equal.
      apply list_eq. intros [|i].
      - by rewrite lookup_drop, Nat.add_0_r, Hph.
      - rewrite lookup_drop. symmetry. apply lookup_ge_None_2. lia. }
    split; [done|]. split; [|done].
    cbn [replicate app]. f_equal. by rewrite replicate_cons_app.
Qed.

(** ** The ids of the words *)

Lemma wordlist_of_lexicon (lexicon tagged aug : list entry) (m : nat) :
  tag_lexicon lexicon = Ok tagged → add_disambig tagged = Ok (aug, m) →
  foldl (fun wordlist e => {[ e_word e ]} ∪ wordlist) ∅ aug
  = (list_to_set (e_word <$> lexicon) : gset string).
Proof.
  intros Htag Hdis. apply set_eq. intros w.
  rewrite wordlist_elem, elem_of_list_to_set.
  rewrite <- (tag_lexicon_words _ _ Htag), <- (add_disambig_words _ _ _ Hdis).
  rewrite list_elem_of_fmap. split.
  - intros [Hin|(e & He & <-)]; [by apply not_elem_of_empty in Hin|eauto].
  - intros (e & -> & He). eauto.
Qed.

(** X14: The word table gives the [j]-th word of the sorted list of distinct
    words the id [1 + j], and [#0], [<s>] and [</s>] the three ids after the
    words.  A word of the lexicon that is itself one of these three names is
    the only exception: it keeps the later id of the name; a word spelled
    like the epsilon symbol takes its own id, and no name has id 0 then. *)
Theorem word_ids_follow_sorted_order (lexicon : list entry)
    (silence_phones nonsilence_phones : list string)
    (optional_silence oov : string) (r : prepared) :
  prepare_lexicon lexicon silence_phones nonsilence_phones optional_silence oov
    = Ok r →
  let words := sorted (list_to_set (e_word <$> lexicon)) in
  (∀ j w, words !! j = Some w → w ∉ ["#0"; "<s>"; "</s>"] →
          dict_get (osyms r) w = Ok (1 + j))
  ∧ dict_get (osyms r) "#0" = Ok (1 + length words)
  ∧ dict_get (osyms r) "<s>" = Ok (2 + length words)
  ∧ dict_get (osyms r) "</s>" = Ok (3 + length words).
Proof.
  intros Hrun words.
  destruct (prepare_lexicon_inv _ _ _ _ _ _ Hrun)
    as (tagged & aug & m & Htag & Hdis & _ & _ & Ho & _).
  destruct (sorted_spec (list_to_set (e_word <$> lexicon))) as (_ & Hnd & _).
  fold words in Hnd.
  rewrite Ho, build_words_map_foldl, (wordlist_of_lexicon _ _ _ _ Htag Hdis).
  fold words. unfold word_names.
  split; [|split; [|split]].
  - intros j w Hj Hw.
    assert (Hshape : eps :: words ++ ["#0"; "<s>"; "</s>"]
                     = (eps :: take j words)
                       ++ w :: (drop (S j) words ++ ["#0"; "<s>"; "</s>"])).
    { cbn [app]. f_equal. rewrite app_comm_cons, app_assoc.
      by rewrite (take_drop_middle words j w Hj). }
    rewrite Hshape, foldl_assign_get_last.
    + cbn [snd length]. rewrite length_take.
      pose proof (lookup_lt_Some _ _ _ Hj). f_equal. lia.
    + intros Hin. apply elem_of_app in Hin as [Hin|Hin]; [|done].
      apply list_elem_of_lookup in Hin as [k Hk]. rewrite lookup_drop in Hk.
      pose proof (NoDup_lookup _ _ _ _ Hnd Hj Hk). lia.
  - assert (Hshape : eps :: words ++ ["#0"; "<s>"; "</s>"]
                     = (eps :: words) ++ "#0" :: ["<s>"; "</s>"]) by done.
    rewrite Hshape, foldl_assign_get_last.
    + done.
    + apply (bool_decide_unpack _). reflexivity.
  - assert (Hshape : eps :: words ++ ["#0"; "<s>"; "</s>"]
                     = (eps :: words ++ ["#0"]) ++ "<s>" :: ["</s>"])
      by (cbn [app]; by rewrite <- app_assoc).
    rewrite Hshape, foldl_assign_get_last.
    + cbn [snd length]. rewrite length_app. cbn [length]. f_equal. lia.
    + apply (bool_decide_unpack _). reflexivity.
  - assert (Hshape : eps :: words ++ ["#0"; "<s>"; "</s>"]
                     = (eps :: words ++ ["#0"; "<s>"]) ++ "</s>" :: [])
      by (cbn [app]; by rewrite <- app_assoc).
    rewrite Hshape, foldl_assign_get_last.
    + cbn [snd length]. rewrite length_app. cbn [length]. f_equal. lia.
    + apply not_elem_of_nil.
Qed.

Lemma word_ids_follow_sorted_order_witness :
  dict_get [("<eps>", 0); ("a", 1); ("b", 2); ("#0", 3); ("<s>", 4); ("</s>", 5)]
    "b" = Ok (1 + 1)
  ∧ dict_get [("<eps>", 0); ("a", 1); ("b", 2); ("#0", 3); ("<s>", 4);
              ("</s>", 5)] "#0" = Ok (1 + 2).
Proof.
  destruct (word_ids_follow_sorted_order _ _ _ _ _ _ prepare_lexicon_two_words)
    as (Hw & Hend & _).
  split.
  - apply (Hw 1 "b").
    + vm_compute. reflexivity.
    + apply (bool_decide_unpack _). vm_compute. reflexivity.
  - vm_compute in Hend. vm_compute. exact Hend.
Defined.

(** ** The phone table of the module's inventory *)

Lemma disambig_name_first (n : nat) :
  String.get 0 (disambig_name n) = Some "#"%char.
Proof. unfold disambig_name. by rewrite append_cons. Qed.

Lemma config_names_NoDup (m : nat) :
  NoDup (phone_names Config.silence_phones Config.nonsilence_phones m).
Proof.
  unfold phone_names. rewrite app_assoc, app_comm_cons.
  apply NoDup_app. split; [|split].
  - apply (bool_decide_unpack _). vm_compute. reflexivity.
  - intros x Hx Hin. apply list_elem_of_fmap in Hin as (n & -> & _).
    revert Hx. generalize (disambig_name_first n).
    generalize (disambig_name n). intros s Hs Hin.
    assert (Hall : Forall (fun s => String.get 0 s ≠ Some "#"%char)
              (eps :: (Config.silence_phones ≫= fun ph =>
                         [ph; ph +:+ "_B"; ph +:+ "_E"; ph +:+ "_S"; ph +:+ "_I"])
                      ++ (Config.nonsilence_phones ≫= fun ph =>
                            [ph +:+ "_B"; ph +:+ "_E"; ph +:+ "_S"; ph +:+ "_I"]))).
    { apply (bool_decide_unpack _). vm_compute. reflexivity. }
    rewrite Forall_forall in Hall. by apply (Hall s Hin).
  - apply NoDup_fmap_2; [|apply NoDup_seq].
    intros a b. apply disambig_name_inj.
Qed.

(** X16: With the phone inventory of the module, the one [words_to_lexicon]
    passes on, no two names of the phone table coincide, whatever the
    lexicon: every name has the id of its position, the ids are the
    numbers from 0 to [155 + m] for the incremented maximum [m], and the
    optional silence [sil] has id 1. *)
Theorem module_phone_table_is_contiguous (lexicon : list entry) (r : prepared) :
  prepare_lexicon lexicon Config.silence_phones Config.nonsilence_phones
    Config.optional_silence Config.oov = Ok r →
  ∃ tagged aug m,
    tag_lexicon lexicon = Ok tagged
    ∧ add_disambig tagged = Ok (aug, m)
    ∧ isyms r = numbered (phone_names Config.silence_phones
                            Config.nonsilence_phones m)
    ∧ (isyms r).*2 = seq 0 (156 + m)
    ∧ (Config.optional_silence, 1) ∈ isyms r.
Proof.
  intros Hrun.
  destruct (prepare_lexicon_inv _ _ _ _ _ _ Hrun)
    as (tagged & aug & m & Htag & Hdis & Hi & _).
  exists tagged, aug, m. split; [done|]. split; [done|].
  assert (Heq : isyms r = numbered (phone_names Config.silence_phones
                                      Config.nonsilence_phones m)).
  { rewrite Hi, build_phone_map_foldl. apply numbered_fresh, config_names_NoDup. }
  assert (Hlen : length (phone_names Config.silence_phones
                           Config.nonsilence_phones m) = 156 + m).
  { unfold phone_names. cbn [length].
    rewrite !length_app, length_fmap, length_seq.
    rewrite (length_bind_const _ 5), (length_bind_const _ 4) by done.
    change (length Config.silence_phones) with 2.
    change (length Config.nonsilence_phones) with 36. lia. }
  split; [done|]. split.
  - rewrite Heq. unfold numbered. rewrite snd_zip; [by rewrite Hlen|].
    by rewrite length_seq.
  - rewrite Heq. unfold numbered. apply list_elem_of_lookup. exists 1.
    apply lookup_zip_with_Some. exists Config.optional_silence, 1.
    split; [done|]. split; [reflexivity|].
    apply lookup_seq. rewrite Hlen. lia.
Qed.

Lemma module_phone_table_is_contiguous_witness :
  ∃ r,
    prepare_lexicon [("ala", 0%R, ["a"; "l"; "a"])] Config.silence_phones
      Config.nonsilence_phones Config.optional_silence Config.oov = Ok r
    ∧ (isyms r).*2 = seq 0 (156 + 1).
Proof.
  assert (Hrun : ∃ r,
            prepare_lexicon [("ala", 0%R, ["a"; "l"; "a"])] Config.silence_phones
              Config.nonsilence_phones Config.optional_silence Config.oov = Ok r).
  { assert (Hc : check_phones [("ala", 0%R, ["a"; "l"; "a"])]
                   Config.silence_phones Config.nonsilence_phones = Ok ())
      by (vm_compute; reflexivity).
    assert (Ht : tag_lexicon [("ala", 0%R, ["a"; "l"; "a"])]
                 = Ok [("ala", 0%R, ["a_B"; "l_I"; "a_E"])])
      by (vm_compute; reflexivity).
    assert (Hd : add_disambig [("ala", 0%R, ["a_B"; "l_I"; "a_E"])]
                 = Ok ([("ala", 0%R, ["a_B"; "l_I"; "a_E"])], 1))
      by (vm_compute; reflexivity).
    unfold prepare_lexicon. rewrite Hc. cbn [rbind]. rewrite Ht. cbn [rbind].
    rewrite Hd. cbn [rbind fst snd]. apply write_tables_ok. }
  destruct Hrun as [r Hrun]. exists r. split; [exact Hrun|].
  destruct (module_phone_table_is_contiguous _ _ Hrun)
    as (tagged & aug & m & Htag & Hdis & _ & Hids & _).
  vm_compute in Htag. injection Htag as <-.
  vm_compute in Hdis. injection Hdis as <- <-.
  exact Hids.
Defined.

(** ** No gap among the symbols *)

Lemma skip_reserved_fuel_le (fuel : nat) (reserved : gset nat) (c M : nat) :
  (∀ r, r ∈ reserved → r ≤ M) → c ≤ M + 1 →
  skip_reserved_fuel fuel reserved c ≤ M + 1.
Proof.
  intros HM. revert c. induction fuel as [|fuel IH]; intros c Hc; cbn; [done|].
  case_decide as Hin; [|done]. apply IH. specialize (HM c Hin). lia.
Qed.

(** One step of the third loop raises the maximum by at most one, and only
    to the symbol it hands out. *)
Lemma choose_step (count : gmap string nat) (prefix : gset string)
    (st st1 : disambig_state) (x : string) (o : option nat) :
  bounded st →
  (∀ y s, last_sym st !! y = Some s → s ≤ max_disambig st) →
  choose count prefix st x = Ok (st1, o) →
  bounded st1
  ∧ (∀ y s, last_sym st1 !! y = Some s → s ≤ max_disambig st1)
  ∧ (max_disambig st1 = max_disambig st
     ∨ (max_disambig st1 = max_disambig st + 1 ∧ o = Some (max_disambig st1))).
Proof.
  intros Hb Hlast Hch.
  destruct (choose_fresh _ _ _ _ _ _ Hb Hch) as (Hb1 & _).
  split; [done|].
  destruct (choose_inv _ _ _ _ _ _ Hch)
    as [(_ & -> & ->)|[(_ & _ & -> & Hm & _ & Hl)|(_ & _ & c & Hc & -> & Hm & _ & Hl)]].
  - split; [done|by left].
  - split; [|right; by rewrite Hm].
    intros y s Hy. rewrite Hl in Hy. specialize (Hlast y s Hy). lia.
  - assert (Hle : c ≤ max_disambig st + 1).
    { rewrite Hc. unfold skip_reserved. apply skip_reserved_fuel_le; [exact Hb|].
      destruct (last_sym st !! x) as [s|] eqn:Hs.
      - specialize (Hlast x s Hs). lia.
      - unfold first_sym. lia. }
    split.
    + intros y s Hy. rewrite Hl in Hy. rewrite Hm.
      destruct (decide (x = y)) as [<- | Hne].
      * rewrite lookup_insert_eq in Hy. injection Hy as <-. case_decide; lia.
      * rewrite lookup_insert_ne in Hy by done. specialize (Hlast y s Hy).
        case_decide; lia.
    + rewrite Hm. case_decide as Hlt; [right|by left].
      split; [lia|done].
Qed.

Lemma choose_all_dense (count : gmap string nat) (prefix : gset string)
    (xs : list string) (st st' : disambig_state) (syms : list (option nat)) :
  bounded st →
  (∀ y s, last_sym st !! y = Some s → s ≤ max_disambig st) →
  choose_all count prefix st xs = Ok (st', syms) →
  ∀ n, 1 ≤ n ≤ max_disambig st' →
       n ≤ max_disambig st ∨ ∃ j, syms !! j = Some (Some n).
Proof.
  revert st syms. induction xs as [|x xs IH]; intros st syms Hb Hlast Hall n Hn.
  - cbn in Hall. injection Hall as <- <-. left. lia.
  - cbn [choose_all] in Hall.
    destruct (choose count prefix st x) as [[st1 o]|] eqn:Hch; [|done].
    cbn [rbind fst snd] in Hall.
    destruct (choose_all count prefix st1 xs) as [[st2 syms']|] eqn:Hrest; [|done].
    cbn [rbind fst snd] in Hall. injection Hall as <- <-.
    destruct (choose_step _ _ _ _ _ _ Hb Hlast Hch) as (Hb1 & Hlast1 & Hmax).
    destruct (IH st1 syms' Hb1 Hlast1 Hrest n Hn) as [Hle|[j Hj]].
    + destruct Hmax as [Heq|[Heq ->]].
      * left. lia.
      * destruct (decide (n = max_disambig st1)) as [-> | Hne].
        -- right. by exists 0.
        -- left. lia.
    + right. by exists (S j).
Qed.

(** X4: Every number from 1 up to, and not including, the incremented maximum
    [m] is the number of the symbol appended to some entry: among [#0] to
    [#m], the symbols written to the phone table, only [#0] and [#m] are on
    no transcription. *)
Theorem symbols_are_used_without_gaps (lexicon : list entry) :
  ∃ aug m,
    add_disambig lexicon = Ok (aug, m)
    ∧ ∀ n, 1 ≤ n < m →
        ∃ i e, lexicon !! i = Some e
               ∧ aug !! i = Some (e_word e, e_prob e,
                                  e_trans e ++ [disambig_name n]).
Proof.
  destruct (choose_all_shape (count_pass lexicon) (prefix_pass lexicon)
              (pron_string <$> lexicon) disambig_init)
    as (st' & syms & Hall & Hlen & _).
  { intros x Hx. by apply count_pass_is_Some. }
  rewrite length_fmap in Hlen.
  exists (zip_with with_symbol lexicon syms), (max_disambig st' + 1).
  rewrite add_disambig_choose, Hall. cbn [rbind fst snd]. split; [done|].
  intros n Hn.
  destruct (choose_all_dense _ _ _ _ _ _ bounded_init
              ltac:(intros y s Hy; cbn [disambig_init last_sym] in Hy;
                    by rewrite lookup_empty in Hy) Hall n
              ltac:(lia)) as [Hle|[i Hi]].
  - cbn in Hle. lia.
  - destruct (lookup_lt_is_Some_2 lexicon i) as [e He];
      [rewrite <- Hlen; by eapply lookup_lt_Some|].
    exists i, e. split; [done|].
    exact (with_symbol_lookup lexicon syms i e (Some n) He Hi).
Qed.

(** ** Transcription lists shared between entries *)

(** X17: The tagging loop works on the list objects: a list is tagged once for
    each entry that refers to it, so a transcription that [k] entries share
    ends up with [k] tags on its tokens; every other object of the store is
    left as it was.  The loop returns when every entry refers to a non-empty
    list. *)
Theorem shared_lists_are_tagged_once_per_reference (h : gmap loc pyobj)
    (es : list (string * R * loc)) :
  (∀ e, e ∈ es → ∃ t, h !! e.2 = Some (PList t) ∧ t ≠ []) →
  ∃ h',
    tag_heap h es = (h', Ok ())
    ∧ ∀ l, match h !! l with
           | Some (PList t) =>
               ∃ t', h' !! l = Some (PList t')
                     ∧ tag_times (length (filter (fun e => e.2 = l) es)) t
                       = Ok t'
           | other => h' !! l = other
           end.
Proof.
  revert h. induction es as [|[[w p] tl] rest IH]; intros h Hes.
  - exists h. split; [done|]. intros l.
    destruct (h !! l) as [[t|es]|]; eauto.
  - destruct (Hes (w, p, tl)) as (t0 & Ht0 & Hne); [apply list_elem_of_here|].
    cbn [snd] in Ht0.
    destruct (tag_trans_ok t0 Hne) as (t0' & Htag & Hlen & _).
    destruct (IH (<[tl := PList t0']> h)) as (h' & Hrun & Hall).
    { intros e He. destruct (decide (e.2 = tl)) as [-> | Hl].
      - exists t0'. rewrite lookup_insert_eq. split; [done|].
        intros ->. destruct t0; [done|discriminate].
      - rewrite lookup_insert_ne by done. apply Hes.
        by apply list_elem_of_further. }
    exists h'. split.
    { cbn [tag_heap]. unfold read_list. by rewrite Ht0, Htag. }
    intros l. specialize (Hall l). rewrite filter_cons. cbn [snd].
    destruct (decide (tl = l)) as [<- | Hl].
    + rewrite Ht0. rewrite lookup_insert_eq in Hall.
      destruct Hall as (t' & Hl' & Ht'). exists t'. split; [done|].
      cbn [length tag_times]. by rewrite Htag.
    + by rewrite lookup_insert_ne in Hall by done.
Qed.

Lemma shared_lists_are_tagged_once_per_reference_witness :
  ∃ h',
    tag_heap {[ 0 := PList ["x"] ]} [("a", 0%R, 0); ("b", 0%R, 0)] = (h', Ok ())
    ∧ h' !! 0 = Some (PList ["x_S_S"]).
Proof.
  destruct (shared_lists_are_tagged_once_per_reference {[ 0 := PList ["x"] ]}
              [("a", 0%R, 0); ("b", 0%R, 0)]) as (h' & Hrun & Hall).
  - intros e He. exists ["x"].
    repeat (apply elem_of_cons in He as [-> | He]); [done|done|].
    by apply elem_of_nil in He.
  - exists h'. split; [exact Hrun|].
    specialize (Hall 0). rewrite lookup_singleton_eq in Hall.
    destruct Hall as (t' & Hl & Ht). vm_compute in Ht. injection Ht as <-.
    exact Hl.
Defined.

(** * The oracle of the n-best list *)

Lemma rate_lt_irrefl (a : rate) : ¬ rate_lt a a.
Proof. destruct a; cbn; [lra|tauto]. Qed.

Lemma rate_lt_trans (a b c : rate) : rate_lt a b → rate_lt b c → rate_lt a c.
Proof. destruct a, b, c; cbn; try tauto. lra. Qed.

Lemma wers_get_Ok (wers : list (Z * rate)) (k : Z) (v : rate) :
  wers_get wers k = Ok v → (k, v) ∈ wers.
Proof.
  induction wers as [|[k' v'] wers IH]; cbn [wers_get]; [done|].
  case_decide as Hk.
  - intros [= ->]. subst k'. apply list_elem_of_here.
  - intros H. apply list_elem_of_further. by apply IH.
Qed.

Lemma wers_get_Raise (wers : list (Z * rate)) (k : Z) (e : exn) :
  wers_get wers k = Raise e → e = KeyError ∧ k ∉ wers.*1.
Proof.
  induction wers as [|[k' v'] wers IH]; cbn [wers_get].
  - intros [= <-]. split; [done|]. apply not_elem_of_nil.
  - case_decide as Hk; [done|]. intros H. destruct (IH H) as [-> Hnot].
    split; [done|]. rewrite fmap_cons. cbn [fst].
    apply not_elem_of_cons. split; [congruence|done].
Qed.

(** The invariant of the loop over the positions. *)
Lemma oracle_loop (all : list (Z * rate)) (onebest : rate)
    (l seen : list (Z * rate)) (st : rate * Z) :
  (st.2, st.1) ∈ all → (∀ x, x ∈ l → x ∈ all) →
  (st = (onebest, 1%Z) ∨ rate_lt st.1 onebest) →
  (∀ p w, (p, w) ∈ seen → ¬ rate_lt w st.1) →
  let st' := foldl (fun (st : rate * Z) (item : Z * rate) =>
                      let '(pos, wer) := item in
                      if decide (rate_lt wer st.1) then (wer, pos) else st)
                   st l in
  (st'.2, st'.1) ∈ all
  ∧ (st' = (onebest, 1%Z) ∨ rate_lt st'.1 onebest)
  ∧ ∀ p w, (p, w) ∈ seen ++ l → ¬ rate_lt w st'.1.
Proof.
  revert seen st. induction l as [|[pos wer] l IH]; intros seen st Hin Hall Hone Hseen.
  - cbn [foldl]. rewrite app_nil_r. done.
  - cbn [foldl].
    assert (Hl : ∀ x, x ∈ l → x ∈ all)
      by (intros x Hx; apply Hall; by apply list_elem_of_further).
    assert (Hitem : (pos, wer) ∈ all) by (apply Hall; apply list_elem_of_here).
    assert (Hassoc : seen ++ (pos, wer) :: l = (seen ++ [(pos, wer)]) ++ l)
      by by rewrite <- app_assoc.
    rewrite Hassoc. case_decide as Hlt.
    + apply IH; [done|done| |].
      * right. cbn [fst]. destruct Hone as [-> | Hone]; [done|].
        by eapply rate_lt_trans.
      * intros p w Hpw. cbn [fst]. apply elem_of_app in Hpw as [Hpw|Hpw].
        -- intros Hw. apply (Hseen p w Hpw). by eapply rate_lt_trans.
        -- apply list_elem_of_singleton in Hpw. injection Hpw as -> ->.
           apply rate_lt_irrefl.
    + apply IH; [done|done|done|].
      intros p w Hpw. apply elem_of_app in Hpw as [Hpw|Hpw].
      * exact (Hseen p w Hpw).
      * apply list_elem_of_singleton in Hpw. by injection Hpw as -> ->.
Qed.

(** X18: The line printed for a sentence: the oracle rate is the rate of one of
    the positions of the sentence, the one printed with it, and no position
    has a lower rate; when no position is strictly better than the first,
    the oracle is the 1-best and its position is 1.  The script stops with
    [KeyError] exactly when the sentence has no hypothesis numbered 1. *)
Theorem oracle_is_the_best_rate (wers : list (Z * rate)) :
  match oracle wers with
  | Ok (onebest, best, pos) =>
      wers_get wers 1%Z = Ok onebest
      ∧ (pos, best) ∈ wers
      ∧ (∀ p w, (p, w) ∈ wers → ¬ rate_lt w best)
      ∧ (¬ rate_lt best onebest → best = onebest ∧ pos = 1%Z)
  | Raise e => e = KeyError ∧ 1%Z ∉ wers.*1
  end.
Proof.
  unfold oracle. destruct (wers_get wers 1%Z) as [onebest|e] eqn:Hget.
  - cbn [rbind].
    destruct (oracle_loop wers onebest wers [] (onebest, 1%Z))
      as (Hin & Hone & Hbest).
    + cbn [fst snd]. by apply wers_get_Ok.
    + done.
    + by left.
    + intros p w Hpw. by apply elem_of_nil in Hpw.
    + split; [done|]. split; [done|]. split; [exact Hbest|].
      intros Hno. destruct Hone as [Heq|Hlt]; [|done].
      by rewrite Heq.
  - cbn [rbind]. by apply wers_get_Raise.
Qed.
